(** * RSSBot: the subscription store, the entry differ, the renderer and the
      delivery dispatcher of [bot.py], embedded in Rocq.

    The Redis database is a finite map from keys to values (a string or a
    set of strings); the Telegram transport, the feed fetcher and the
    helpers of other modules are fields of the class [Env]; Python
    exceptions are the left summand of the result of a computation in the
    monad [M], which keeps the effects performed before the exception.

    Strings are sequences of 8-bit characters; the message catalogue is the
    English one (every msgid stands for itself). *)

From Stdlib Require Import Ascii String.
From stdpp Require Import gmap strings list pretty.

Open Scope string_scope.
Open Scope list_scope.

(** ** Strings *)

Definition newline : ascii := "010"%char.
Definition dquote : ascii := "034"%char.

Fixpoint strip_prefix (p s : string) : option string :=
  match p with
  | EmptyString => Some s
  | String a p' =>
      match s with
      | String b s' => if Ascii.eqb a b then strip_prefix p' s' else None
      | EmptyString => None
      end
  end.

(** [strip_suffix suf s] is [Some u] exactly when [s = u +:+ suf]. *)
Fixpoint strip_suffix (suf s : string) : option string :=
  if String.eqb s suf then Some EmptyString
  else match s with
       | EmptyString => None
       | String c s' => String c <$> strip_suffix suf s'
       end.

Fixpoint has_char (c : ascii) (s : string) : bool :=
  match s with
  | EmptyString => false
  | String a s' => Ascii.eqb a c || has_char c s'
  end.

Definition is_digit (c : ascii) : bool :=
  let n := nat_of_ascii c in (48 <=? n)%nat && (n <=? 57)%nat.

Definition is_alpha (c : ascii) : bool :=
  let n := nat_of_ascii c in
  ((65 <=? n)%nat && (n <=? 90)%nat) || ((97 <=? n)%nat && (n <=? 122)%nat).

(** [str.replace] for a one-character pattern. *)
Fixpoint replace_char (c : ascii) (by_ : string) (s : string) : string :=
  match s with
  | EmptyString => EmptyString
  | String a s' =>
      if Ascii.eqb a c then by_ +:+ replace_char c by_ s'
      else String a (replace_char c by_ s')
  end.

(** [html.escape] of the Python standard library (with [quote=True]). *)
Fixpoint html_escape (s : string) : string :=
  match s with
  | EmptyString => EmptyString
  | String a s' =>
      (if Ascii.eqb a "&" then "&amp;"
       else if Ascii.eqb a "<" then "&lt;"
       else if Ascii.eqb a ">" then "&gt;"
       else if Ascii.eqb a dquote then "&quot;"
       else if Ascii.eqb a "'" then "&#x27;"
       else String a EmptyString) +:+ html_escape s'
  end.

(** [str(n)] for an [int]. *)
Definition str (n : Z) : string := pretty n.

(** ** Keys of the database

    [feed_hash = "pythonbot:rss:{0}"]. *)

Definition feed_hash (s : string) : string := "pythonbot:rss:" +:+ s.

Definition subs_key (feed_url : string) : string := feed_hash (feed_url +:+ ":subs").
Definition last_entry_key (feed_url : string) : string :=
  feed_hash (feed_url +:+ ":last_entry").

(** [re.match("^" + feed_hash.format("(.+):subs$"), key).group(1)]: the dot
    does not match a newline, the group is greedy, and [$] also matches just
    before a newline that ends the string.  [None] is the failed match. *)
Definition match_subs_key (key : string) : option string :=
  rest ← strip_prefix "pythonbot:rss:" key;
  u ← match strip_suffix ":subs" rest with
      | Some u => Some u
      | None => strip_suffix (":subs" +:+ String newline EmptyString) rest
      end;
  match u with
  | EmptyString => None
  | _ => if has_char newline u then None else Some u
  end.

(** The glob pattern [feed_hash.format("*:subs")] of [run_job]. *)
Definition is_subs_key (key : string) : bool :=
  match strip_prefix "pythonbot:rss:" key with
  | Some rest => bool_decide (is_Some (strip_suffix ":subs" rest))
  | None => false
  end.

(** ** Feeds as [feedparser] returns them *)

Record entry := Entry {
  e_id : option string;
  e_link : option string;
  e_title : option string;
  e_content : option (list string);   (* the "value" of each content item *)
  e_summary : option string
}.

Record feed_info := FeedInfo {
  f_link : option string;
  f_title : option string
}.

(** The result of [feedparser.parse]: a dictionary read by key or by
    attribute, so every field may be missing. *)
Record parsed := Parsed {
  p_feed : feed_info;
  p_entries : list entry;
  p_status : option Z;
  p_bozo_exception : option string;
  p_href : option string;
  p_link : option string              (* [data.link], read by [check_feed] *)
}.

(** ** The database *)

Inductive rval :=
  | RStr (s : string)
  | RSet (s : gset string).

Global Instance rval_eq_dec : EqDecision rval.
Proof. solve_decision. Defined.

(** ** The transport: what [bot.sendMessage] does, the exceptions of
    [telegram.error] included *)

Inductive outcome :=
  | Delivered
  | Unauthorized
  | ChatMigrated (new_chat_id : Z)
  | TimedOut
  | BadRequest (why : string)
  | OtherError (why : string).

Inductive exn :=
  | ResponseError (why : string)      (* redis.exceptions.ResponseError *)
  | AttributeError (attr : string)
  | KeyError (key : string)
  | IndexError
  | TelegramError (o : outcome).      (* a telegram error nobody catches *)

Record delivery := Delivery {
  d_chat : string;
  d_text : string;
  d_outcome : outcome
}.

(** ** Replies and log records, by msgid *)

Inductive problem :=
  | NoFeedUrl                 (* "No feed URL given." *)
  | NotAnUrl                  (* "That doesn't look like an URL." *)
  | NoSuchChannel             (* "This channel does not exist." *)
  | NotAdministrator          (* "You need to add the bot as an administrator to the channel." *)
  | NotAFeed                  (* "Not a valid feed." *)
  | NoNumberGiven             (* "No number given." *)
  | NumberTooSmall            (* "Number must be bigger than 0!" *)
  | FeedIdTooHigh.            (* "Feed ID too high." *)

Inductive notice :=
  | AlreadySubscribed         (* "Already subscribed to this feed." *)
  | Added (feed_title : string)     (* "<b>{0}</b> added!" *)
  | Removed (feed_url : string).    (* "<b>{0}</b> removed!" *)

Inductive ui_event :=
  | Typing (chat : Z)         (* sendChatAction(..., TYPING) *)
  | ReplyErr (p : problem)    (* reply_text("❌ " + ...) *)
  | ReplyOk (n : notice).     (* reply_text("✅ " + ...) *)

Inductive log_event :=
  | LogInfo (s : string)
  | LogNotValidStatus (feed_url : string) (status : Z)
  | LogNotValidFeed (feed_url : string) (bozo : string)
  | LogChatGone (member : string)
  | LogChatMigrated (member : string) (new_chat_id : string)
  | LogError (why : string).

Definition problem_text (p : problem) : string :=
  match p with
  | NoFeedUrl => "No feed URL given."
  | NotAnUrl => "That doesn't look like an URL."
  | NoSuchChannel => "This channel does not exist."
  | NotAdministrator => "You need to add the bot as an administrator to the channel."
  | NotAFeed => "Not a valid feed."
  | NoNumberGiven => "No number given."
  | NumberTooSmall => "Number must be bigger than 0!"
  | FeedIdTooHigh => "Feed ID too high."
  end.

Definition notice_text (n : notice) : string :=
  match n with
  | AlreadySubscribed => "Already subscribed to this feed."
  | Added t => "<b>" +:+ t +:+ "</b> added!"
  | Removed u => "<b>" +:+ u +:+ "</b> removed!"
  end.

Definition reply_text (e : ui_event) : option string :=
  match e with
  | Typing _ => None
  | ReplyErr p => Some ("❌ " +:+ problem_text p)
  | ReplyOk n => Some ("✅ " +:+ notice_text n)
  end.

(** ** The world a handler runs in *)

Record update := Update { u_chat_id : Z }.

Record world := World {
  db : gmap string rval;
  sent : list delivery;        (* every bot.sendMessage, with its outcome *)
  ui : list ui_event;          (* what the issuer of a command is shown *)
  logged : list log_event
}.

(** What [bot.py] takes from outside: the fetcher, the transport, the
    iteration order of a set, and the helpers of [utils] and of Python's
    libraries whose results no property below depends on.

    [re_digit s] is what is left of [s] after one character of the class
    [\d] of Python's [re], if [s] begins with one; the class holds every
    decimal digit of Unicode: of the characters of ASCII, [0] to [9] and no
    other.

    [getChat] answers or raises [BadRequest]; a run in which it, or
    [reply_text], fails in another way is not described. *)
Class Env := {
  feedparser_parse : string → parsed;
  send_message : list delivery → string → string → outcome;
  set_order : gset string → list string;
  set_order_perm : ∀ s, set_order s ≡ₚ elements s;
  can_use_bot : update → bool;
  get_chat : string → option Z;            (* None: telegram.error.BadRequest *)
  bot_status_in : string → string;         (* getChatMember(chat, bot.id).status *)
  py_int : string → option Z;              (* None: ValueError *)
  py_strip : string → string;
  urlparse_netloc : string → string;
  re_digit : string → option string;
  re_digit_ascii : ∀ c r, is_digit c = true → re_digit (String c r) = Some r;
  re_digit_other : ∀ c r,
    is_digit c = false → (nat_of_ascii c < 128)%nat → re_digit (String c r) = None;
  remove_html_tags : string → string;
  get_content : string → string
}.

(** ** Computations: state, and exceptions that keep the state *)

Definition M (A : Type) : Type := world → (exn + A) * world.

Global Instance M_ret : MRet M := λ A a w, (inr a, w).
Global Instance M_bind : MBind M := λ A B k m w,
  match m w with
  | (inr a, w') => k a w'
  | (inl e, w') => (inl e, w')
  end.

Definition raise {A} (e : exn) : M A := λ w, (inl e, w).

Fixpoint for_each {A} (xs : list A) (body : A → M unit) : M unit :=
  match xs with
  | [] => mret tt
  | x :: rest => body x ;; for_each rest body
  end.

Definition with_db (w : world) (d : gmap string rval) : world :=
  World d (sent w) (ui w) (logged w).

Definition reply (e : ui_event) : M unit := λ w,
  (inr tt, World (db w) (sent w) (ui w ++ [e]) (logged w)).

Definition log (e : log_event) : M unit := λ w,
  (inr tt, World (db w) (sent w) (ui w) (logged w ++ [e])).

(** ** Redis commands

    Each command is a function of the database; [ask] and [run] make it a
    computation.  A command that fails leaves the database as it was. *)

Definition wrongtype : exn :=
  ResponseError "WRONGTYPE Operation against a key holding the wrong kind of value".

Definition ask {A} (f : gmap string rval → exn + A) : M A := λ w, (f (db w), w).

Definition run (f : gmap string rval → exn + gmap string rval) : M unit := λ w,
  match f (db w) with
  | inr d => (inr tt, with_db w d)
  | inl e => (inl e, w)
  end.

Definition smembers (key : string) (d : gmap string rval) : exn + gset string :=
  match d !! key with
  | None => inr ∅
  | Some (RSet s) => inr s
  | Some (RStr _) => inl wrongtype
  end.

Definition get (key : string) (d : gmap string rval) : exn + option string :=
  match d !! key with
  | None => inr None
  | Some (RStr v) => inr (Some v)
  | Some (RSet _) => inl wrongtype
  end.

Definition sadd (key member : string) (d : gmap string rval) : exn + gmap string rval :=
  match d !! key with
  | None => inr (<[key := RSet {[member]}]> d)
  | Some (RSet s) => inr (<[key := RSet ({[member]} ∪ s)]> d)
  | Some (RStr _) => inl wrongtype
  end.

(** A set that becomes empty is removed with its key. *)
Definition srem (key member : string) (d : gmap string rval) : exn + gmap string rval :=
  match d !! key with
  | None => inr d
  | Some (RSet s) =>
      let s' := s ∖ {[member]} in
      if bool_decide (s' = ∅) then inr (delete key d)
      else inr (<[key := RSet s']> d)
  | Some (RStr _) => inl wrongtype
  end.

Definition rename (old new : string) (d : gmap string rval) : exn + gmap string rval :=
  match d !! old with
  | None => inl (ResponseError "no such key")
  | Some v => inr (<[new := v]> (delete old d))
  end.

Definition r_exists (key : string) : M bool :=
  ask (λ d, inr (bool_decide (is_Some (d !! key)))).
Definition r_get (key : string) : M (option string) := ask (get key).
Definition r_set (key v : string) : M unit := run (λ d, inr (<[key := RStr v]> d)).
Definition r_delete (key : string) : M unit := run (λ d, inr (delete key d)).
Definition r_smembers (key : string) : M (gset string) := ask (smembers key).
Definition r_sismember (key member : string) : M bool :=
  s ← r_smembers key; mret (bool_decide (member ∈ s)).
Definition r_sadd (key member : string) : M unit := run (sadd key member).
Definition r_srem (key member : string) : M unit := run (srem key member).
Definition r_rename (old new : string) : M unit := run (rename old new).

Definition r_keys_subs `{Env} : M (list string) :=
  ask (λ d, inr (filter (λ k, is_subs_key k = true) (set_order (dom d)))).

(** [bot.sendMessage]: the transport answers from what it has seen so far;
    the call and its outcome are recorded. *)
Definition send `{Env} (chat text : string) : M outcome := λ w,
  let o := send_message (sent w) chat text in
  (inr o, World (db w) (sent w ++ [Delivery chat text o]) (ui w) (logged w)).

(** ** Entry differ *)

Definition entry_ident (e : entry) : option string :=
  match e_id e with
  | Some i => Some i
  | None => e_link e
  end.

Definition entry_matches (marker : string) (e : entry) : bool :=
  bool_decide (entry_ident e = Some marker).

Fixpoint entries_before (marker : string) (entries : list entry) : option (list entry) :=
  match entries with
  | [] => None
  | e :: rest =>
      if entry_matches marker e then Some []
      else cons e <$> entries_before marker rest
  end.

(** Modelled from the spec: [utils.get_new_entries], whose module is not
    among the sources.  The entries are scanned from the newest; an entry
    matches the marker if its id equals it or, when it has no id, its link
    does; the entries before the match are collected; without a match
    (marker absent or not found) no entry is new. *)
Definition get_new_entries (entries : list entry) (last_entry : option string) : list entry :=
  match last_entry with
  | None => []
  | Some marker => default [] (entries_before marker entries)
  end.

(** ** Content renderer *)

(** [(.+?)/.*] after the first character of the group. *)
Fixpoint lazy_until_slash (s : string) : option string :=
  match s with
  | EmptyString => None
  | String c r =>
      if Ascii.eqb c "/" then Some EmptyString
      else if Ascii.eqb c newline then None
      else String c <$> lazy_until_slash r
  end.

(** [re.search("^https?://feedproxy\.google\.com/~r/(.+?)/.*", link)] and
    its [group(1)]. *)
Definition feedproxy_name (link : string) : option string :=
  rest ← strip_prefix "http" link;
  let rest := default rest (strip_prefix "s" rest) in
  rest ← strip_prefix "://feedproxy.google.com/~r/" rest;
  match rest with
  | EmptyString => None
  | String c r =>
      if Ascii.eqb c newline then None else String c <$> lazy_until_slash r
  end.

(** [re.sub("^www\d?\.", "", name)]: after [www] the pattern takes a digit
    if it can, and goes back to none if no dot follows the digit. *)
Definition strip_www `{Env} (name : string) : string :=
  match strip_prefix "www" name with
  | Some rest =>
      match re_digit rest ≫= strip_prefix "." with
      | Some r => r
      | None => default name (strip_prefix "." rest)
      end
  | None => name
  end.

(** Lines 289-299: the target of the trailing link and its label. *)
Definition link_and_label `{Env} (data : parsed) (e : entry) : exn + (string * string) :=
  match e_link e with
  | None =>
      match p_link data with
      | Some post_link => inr (post_link, strip_www post_link)
      | None => inl (AttributeError "link")
      end
  | Some post_link =>
      let link_name :=
        match feedproxy_name post_link with
        | Some name => name
        | None => urlparse_netloc post_link
        end in
      inr (post_link, strip_www link_name)
  end.

Definition post_title_of `{Env} (e : entry) : string :=
  match e_title e with
  | None => "No title"
  | Some t =>
      replace_char ">" "&gt;" (replace_char "<" "&lt;" (py_strip (remove_html_tags t)))
  end.

Definition content_of `{Env} (e : entry) : exn + string :=
  match e_content e with
  | Some (v :: _) => inr (get_content v)
  | Some [] => inl IndexError
  | None =>
      match e_summary e with
      | Some s => inr (get_content s)
      | None => inr EmptyString
      end
  end.

Definition nl : string := String newline EmptyString.
Definition dq : string := String dquote EmptyString.

(** Lines 284-315: the text sent for one entry. *)
Definition render `{Env} (data : parsed) (feed_title : string) (e : entry) : exn + string :=
  let post_title := post_title_of e in
  match link_and_label data e with
  | inl x => inl x
  | inr (post_link, link_name) =>
      match content_of e with
      | inl x => inl x
      | inr content =>
          inr ("<b>" +:+ post_title +:+ "</b>" +:+ nl +:+
               "<i>" +:+ feed_title +:+ "</i>" +:+ nl +:+ content +:+
               nl +:+ "<a href=" +:+ dq +:+ post_link +:+ dq +:+ ">" +:+
               "Read more on " +:+ link_name +:+ "</a>" +:+ nl)
      end
  end.

Definition lift {A} (r : exn + A) : M A := λ w, (r, w).

(** ** Delivery dispatcher *)

(** Lines 324-343: the [except] clauses around [bot.sendMessage]. *)
Definition react `{Env} (key text member : string) (o : outcome) : M unit :=
  match o with
  | Delivered => mret tt
  | Unauthorized =>
      log (LogChatGone member) ;;
      r_srem key member ;;
      r_delete (feed_hash member)
  | ChatMigrated new_chat_id =>
      log (LogChatMigrated member (str new_chat_id)) ;;
      r_srem key member ;;
      r_sadd key (str new_chat_id) ;;
      r_rename (feed_hash member) (feed_hash (str new_chat_id)) ;;
      o' ← send member text;
      match o' with
      | Delivered => mret tt
      | _ => raise (TelegramError o')
      end
  | TimedOut => mret tt
  | BadRequest why => log (LogError why)
  | OtherError why => raise (TelegramError o)
  end.

(** Lines 317-343: one subscriber, one rendered entry. *)
Definition deliver `{Env} (key text member : string) : M unit :=
  o ← send member text;
  react key text member o.

(** Lines 283-343: the body of the loop over the new entries. *)
Definition deliver_entry `{Env} (key : string) (data : parsed) (feed_title : string)
    (e : entry) : M unit :=
  text ← lift (render data feed_title e);
  members ← r_smembers key;
  for_each (set_order members) (deliver key text).

(** Lines 349-355. *)
Definition advance_marker (last_entry_hash : string) (new_entries : list entry) : M unit :=
  match new_entries with
  | [] => mret tt
  | e0 :: _ =>
      new_last_entry ←
        match e_id e0 with
        | None =>
            match e_link e0 with
            | Some l => mret l
            | None => raise (AttributeError "link")
            end
        | Some i => mret i
        end;
      r_set last_entry_hash new_last_entry
  end.

Definition check_feed `{Env} (key : string) : M unit :=
  match match_subs_key key with
  | None => raise (AttributeError "group")
  | Some feed_url =>
      log (LogInfo feed_url) ;;
      let data := feedparser_parse feed_url in
      match f_link (p_feed data) with
      | None =>
          match p_status data, p_bozo_exception data with
          | Some status, bozo =>
              if bool_decide (status ≠ 200%Z) then log (LogNotValidStatus feed_url status)
              else match bozo with
                   | Some b => log (LogNotValidFeed feed_url b)
                   | None => raise (AttributeError "bozo_exception")
                   end
          | None, Some b => log (LogNotValidFeed feed_url b)
          | None, None => raise (AttributeError "bozo_exception")
          end
      | Some feed_link =>
          let feed_title := default feed_link (f_title (p_feed data)) in
          let last_entry_hash := last_entry_key feed_url in
          last_entry ← r_get last_entry_hash;
          let new_entries := get_new_entries (p_entries data) last_entry in
          for_each (rev new_entries) (deliver_entry key data feed_title) ;;
          still ← r_exists key;
          if negb still then r_delete last_entry_hash
          else advance_marker last_entry_hash new_entries
      end
  end.

(** [@run_async]: an exception ends the worker, not its caller.  The workers
    of one tick are run one after the other here. *)
Definition run_async {A} (m : M A) : M unit := λ w, (inr tt, (m w).2).

Definition run_job `{Env} : M unit :=
  log (LogInfo "================================") ;;
  keys ← r_keys_subs;
  for_each keys (λ key, run_async (check_feed key)).

(** ** Commands *)

Definition url_char (c : ascii) : bool :=
  let n := nat_of_ascii c in
  is_alpha c || is_digit c || ((36 <=? n)%nat && (n <=? 95)%nat)
  || (n =? 126)%nat || (n =? 33)%nat.

Fixpoint url_tail (s : string) : bool :=
  match s with
  | EmptyString => true
  | String c r =>
      if url_char c then url_tail r
      else Ascii.eqb c newline && bool_decide (r = EmptyString)
  end.

(** The regular expression of [subscribe] (line 164). *)
Definition looks_like_url (s : string) : bool :=
  match strip_prefix "http" s with
  | None => false
  | Some rest =>
      match strip_prefix "://" (default rest (strip_prefix "s" rest)) with
      | Some (String c r) => url_char c && url_tail r
      | _ => false
      end
  end.

(** "Get Chat ID from name if given", for [/sub]. *)
Definition subscribe_chat `{Env} (upd : update) (rest : list string) : problem + string :=
  match rest with
  | chat_name :: _ =>
      match get_chat chat_name with
      | None => inl NoSuchChannel
      | Some id =>
          let chat_id := str id in
          if bool_decide (bot_status_in chat_id = "administrator") then inr chat_id
          else inl NotAdministrator
      end
  | [] => inr (str (u_chat_id upd))
  end.

(** The same for [/del]. *)
Definition unsubscribe_chat `{Env} (upd : update) (rest : list string) : problem + string :=
  match rest with
  | chat_name :: _ =>
      match get_chat chat_name with
      | None => inl NoSuchChannel
      | Some id => inr (str id)
      end
  | [] => inr (str (u_chat_id upd))
  end.

(** Lines 199-207: "Save the last entry in Redis, if it doesn't exist". *)
Definition seed_marker (feed_url : string) (entries : list entry) : M unit :=
  match entries with
  | [] => mret tt
  | e0 :: _ =>
      let last_entry_hash := last_entry_key feed_url in
      known ← r_exists last_entry_hash;
      if (known : bool) then mret tt
      else
        last_entry ←
          match e_id e0 with
          | None =>
              match e_link e0 with
              | Some l => mret l
              | None => raise (KeyError "link")
              end
          | Some i => mret i
          end;
        r_set last_entry_hash last_entry
  end.

(** Lines 190-214: the request has passed every check. *)
Definition store_subscription (chat_id : string) (data : parsed) (feed_url : string) : M unit :=
  already ← r_sismember (feed_hash chat_id) feed_url;
  if (already : bool) then reply (ReplyOk AlreadySubscribed) else
  let feed_title :=
    match f_title (p_feed data) with
    | None => feed_url
    | Some t => html_escape t
    end in
  seed_marker feed_url (p_entries data) ;;
  r_sadd (subs_key feed_url) chat_id ;;
  r_sadd (feed_hash chat_id) feed_url ;;
  reply (ReplyOk (Added feed_title)).

Definition subscribe `{Env} (upd : update) (args : list string) : M unit :=
  if negb (can_use_bot upd) then mret tt else
  match args with
  | [] => reply (ReplyErr NoFeedUrl)
  | feed_url :: rest =>
      if negb (looks_like_url feed_url) then reply (ReplyErr NotAnUrl) else
      match subscribe_chat upd rest with
      | inl p => reply (ReplyErr p)
      | inr chat_id =>
          reply (Typing (u_chat_id upd)) ;;
          let data := feedparser_parse feed_url in
          match f_link (p_feed data) with
          | None => reply (ReplyErr NotAFeed)
          | Some _ =>
              match p_href data with
              | None => raise (AttributeError "href")
              | Some feed_url => store_subscription chat_id data feed_url
              end
          end
      end
  end.

Definition unsubscribe `{Env} (upd : update) (args : list string) : M unit :=
  if negb (can_use_bot upd) then mret tt else
  match args with
  | [] => reply (ReplyErr NoNumberGiven)
  | arg :: rest =>
      match unsubscribe_chat upd rest with
      | inl p => reply (ReplyErr p)
      | inr chat_id =>
          match py_int arg with
          | None => reply (ReplyErr NoNumberGiven)
          | Some n =>
              let chat_hash := feed_hash chat_id in
              subs ← r_smembers chat_hash;
              if bool_decide (n < 1)%Z then reply (ReplyErr NumberTooSmall)
              else if bool_decide (n > Z.of_nat (size subs))%Z then reply (ReplyErr FeedIdTooHigh)
              else
                match set_order subs !! Z.to_nat (n - 1) with
                | None => raise IndexError
                | Some feed_url =>
                    let sub_hash := subs_key feed_url in
                    r_srem chat_hash feed_url ;;
                    r_srem sub_hash chat_id ;;
                    remaining ← r_smembers sub_hash;
                    (if bool_decide (remaining = ∅) then r_delete (last_entry_key feed_url)
                     else mret tt) ;;
                    reply (ReplyOk (Removed feed_url))
                end
          end
      end
  end.

(** The entry points a user or the scheduler can trigger. *)
Inductive request :=
  | Sub (upd : update) (args : list string)     (* /sub *)
  | Del (upd : update) (args : list string)     (* /del *)
  | Poll (key : string).                        (* one feed of a tick *)

Definition handle `{Env} (r : request) : M unit :=
  match r with
  | Sub upd args => subscribe upd args
  | Del upd args => unsubscribe upd args
  | Poll key => check_feed key
  end.

(** ** Reading the store *)

Fixpoint last_char (s : string) : option ascii :=
  match s with
  | EmptyString => None
  | String c r => match r with EmptyString => Some c | _ => last_char r end
  end.

(** The subscriber set of a feed and the feed set of a chat. *)
Definition members (d : gmap string rval) (key : string) : gset string :=
  match d !! key with
  | Some (RSet s) => s
  | _ => ∅
  end.

Definition subscribers (d : gmap string rval) (feed_url : string) : gset string :=
  members d (subs_key feed_url).

Definition feeds_of (d : gmap string rval) (chat_id : string) : gset string :=
  members d (feed_hash chat_id).

Definition has_marker (d : gmap string rval) (feed_url : string) : Prop :=
  is_Some (d !! last_entry_key feed_url).

(** A chat id whose own key cannot be taken for the key of a feed; the
    decimal ids of Telegram are of this kind. *)
Definition chat_like (c : string) : bool :=
  bool_decide (strip_suffix ":subs" c = None) &&
  bool_decide (strip_suffix ":last_entry" c = None).

(** What Redis and the bot keep true of every key: no set is empty, the
    subscriber keys hold sets, and their members are chat ids. *)
Record base_ok (d : gmap string rval) : Prop := BaseOk {
  ok_no_empty : ∀ k s, d !! k = Some (RSet s) → s ≠ ∅;
  ok_typed : ∀ u v, d !! subs_key u = Some v → ∃ s, v = RSet s;
  ok_chats : ∀ u c, c ∈ subscribers d u → chat_like c = true
}.

(** The feed [u] has a marker exactly when it has a subscriber. *)
Definition marker_ok (d : gmap string rval) (u : string) : Prop :=
  has_marker d u ↔ subscribers d u ≠ ∅.

Definition store_ok (d : gmap string rval) : Prop :=
  base_ok d ∧ ∀ u, marker_ok d u.

(** [keeps K m]: [m] ends, or raises, in a database in [K] when it starts
    in one. *)
Definition keeps (K : gmap string rval → Prop) {A} (m : M A) : Prop :=
  ∀ w, K (db w) → K (db (m w).2).

(** The one request after which a feed has a subscriber and no marker: the
    first subscription to a feed that has no entry yet. *)
Definition first_sub_of_empty_feed `{Env} (r : request) (d : gmap string rval) : Prop :=
  match r with
  | Sub _ (feed_url :: _) =>
      let data := feedparser_parse feed_url in
      p_entries data = [] ∧
      ∃ href, p_href data = Some href ∧ subscribers d href = ∅
  | _ => False
  end.

Definition polls_a_feed (r : request) : Prop :=
  match r with
  | Poll key => is_subs_key key = true
  | _ => True
  end.

(** The deliveries of one entry: all carry its text. *)
Definition group_of `{Env} (data : parsed) (feed_title : string)
    (e : entry) (g : list delivery) : Prop :=
  ∃ text, render data feed_title e = inr text ∧ Forall (λ d, d_text d = text) g.

(** The chats of [s] are those the deliveries of [g] are addressed to. *)
Definition recipients_are (s : gset string) (g : list delivery) : Prop :=
  ∀ m, m ∈ s ↔ ∃ d, d ∈ g ∧ d_chat d = m.

(** The world in which the turn of the [i]-th entry of a run starts. *)
Definition world_before `{Env} (key : string) (data : parsed) (feed_title : string)
    (es : list entry) (i : nat) (w : world) : world :=
  (for_each (take i es) (deliver_entry key data feed_title) w).2.

(** A feed name as the redirector wraps it: not empty, on one line, and
    with no slash after its first character. *)
Definition plain_segment (name : string) : bool :=
  match name with
  | EmptyString => false
  | String c t => negb (Ascii.eqb c newline) && negb (has_char "/" t) && negb (has_char newline t)
  end.

(** A /sub request that passes the checks of lines 158-189: it is for the
    chat [chat_id], and the feed it names is [data], fetched from the
    canonical URL [href]. *)
Definition accepted `{Env} (upd : update) (args : list string)
    (chat_id : string) (data : parsed) (href : string) : Prop :=
  ∃ feed_url rest,
    args = feed_url :: rest ∧
    can_use_bot upd = true ∧
    looks_like_url feed_url = true ∧
    subscribe_chat upd rest = inr chat_id ∧
    data = feedparser_parse feed_url ∧
    is_Some (f_link (p_feed data)) ∧
    p_href data = Some href.

(** The chat [c] has left the feed stored under [key]: it has no feed set
    of its own and is not among the subscribers. *)
Definition gone (c key : string) (d : gmap string rval) : Prop :=
  d !! feed_hash c = None ∧ c ∉ members d key.

(** [key] is absent or holds a set. *)
Definition holds_set (key : string) (d : gmap string rval) : Prop :=
  ∀ v, d !! key = Some v → ∃ s, v = RSet s.

(** [purging c key P m]: from a database in [P], [m] ends (or raises) in a
    database in [P]; and if [c] was gone before, or [m] was told that [c]
    is unauthorized, [c] is gone afterwards. *)
Definition purging (c key : string) (P : gmap string rval → Prop) {A} (m : M A) : Prop :=
  ∀ w, P (db w) →
    ∃ g, sent (m w).2 = sent w ++ g
         ∧ P (db (m w).2)
         ∧ ((∃ text, Delivery c text Unauthorized ∈ g) ∨ gone c key (db w) →
            gone c key (db (m w).2)).

(** [quiet m]: [m] sends nothing.  [emits P m]: [m] only adds deliveries
    that satisfy [P] to those already made. *)

Definition quiet {A} (m : M A) : Prop := ∀ w, sent (m w).2 = sent w.

Definition emits {A} (P : delivery → Prop) (m : M A) : Prop :=
  ∀ w, ∃ g, sent (m w).2 = sent w ++ g ∧ Forall P g.

(** [carrying c key P m]: [m] keeps [P], and keeps [c] gone if it was. *)
Definition carrying (c key : string) (P : gmap string rval → Prop) {A} (m : M A) : Prop :=
  ∀ w, P (db w) → P (db (m w).2) ∧ (gone c key (db w) → gone c key (db (m w).2)).

(** The keys of the feed [u] hold in [d] what they held in [d0]. *)
Definition same_feed (d0 d : gmap string rval) (u : string) : Prop :=
  d !! subs_key u = d0 !! subs_key u ∧ d !! last_entry_key u = d0 !! last_entry_key u.

(** During the cycle of [u], started in [d0]: the keys of every other feed
    are as they were. *)
Definition cycle_ok (u : string) (d0 d : gmap string rval) : Prop :=
  base_ok d ∧ ∀ u', u' ≠ u → same_feed d0 d u'.

(** The delivery [d] leaves the chat [c] alone: it is no refusal of a
    message to [c] (unauthorized, or migrated), and it does not name [c] as
    the new id of a migrated chat. *)
Definition spares (c : string) (d : delivery) : Prop :=
  match d_outcome d with
  | Unauthorized => d_chat d ≠ c
  | ChatMigrated n => d_chat d ≠ c ∧ str n ≠ c
  | _ => True
  end.

(** During the cycle of [u], started in [d0]: the chat [c] is a subscriber
    of [u] if it was one, and its feed set is as it was. *)
Definition spared (c u : string) (d0 d : gmap string rval) : Prop :=
  (c ∈ subscribers d0 u → c ∈ subscribers d u)
  ∧ d !! feed_hash c = d0 !! feed_hash c.

(** [sparing c u m]: from a well-formed store [m] ends, or raises, in one;
    and if every delivery it makes spares [c], it leaves [c] spared. *)
Definition sparing (c u : string) {A} (m : M A) : Prop :=
  ∀ w, base_ok (db w) →
    ∃ g, sent (m w).2 = sent w ++ g
         ∧ base_ok (db (m w).2)
         ∧ (Forall (spares c) g →
            ∀ d0, spared c u d0 (db w) → spared c u d0 (db (m w).2)).

(** ** The commands that only answer

    [start], [help_text] and [list_feeds] write nothing and send no feed
    message; the result of each is the text it hands to [reply_text],
    [None] when it returns without a reply. *)

(** The fields of [update.message.chat] that only [list_feeds] reads. *)
Record chat := Chat {
  c_type : string;
  c_first_name : option string;
  c_title : option string
}.

(** [getChat(name).title], and the order in which the loop of [/rss]
    meets the members of the set it has read; nothing ties that order to
    the one [/del] indexes. *)
Class Directory := {
  chat_title : string → option string;
  rss_order : gset string → list string;
  rss_order_perm : ∀ s, rss_order s ≡ₚ elements s
}.

Definition start `{Env} (upd : update) : M (option string) :=
  if negb (can_use_bot upd) then mret None else
  mret (Some ("<b>Welcome to the RSS Bot!</b>" +:+ nl +:+ "Send /help to get started.")).

Definition help_text `{Env} (upd : update) : M (option string) :=
  if negb (can_use_bot upd) then mret None else
  mret (Some ("<b>/rss</b> <i>[Chat]</i>: Show subbed feeds" +:+ nl +:+
              "<b>/sub</b> <i>Feed URL</i> <i>[Chat]</i>: Sub to feed" +:+ nl +:+
              "<b>/del</b> <i>n</i> <i>[Chat]</i>: Unsubscribe feed" +:+ nl +:+
              "<i>[Chat]</i> is an optional argument with the @Channelname.")).

(** One line of the list, for the feed that [enumerate] numbers [n]. *)
Definition feed_line (n : nat) (feed : string) : string :=
  "<b>" +:+ str (Z.of_nat n + 1) +:+ ")</b> " +:+ feed +:+ nl.

(** Lines 147-148: the loop that appends one line per feed. *)
Fixpoint add_lines (text : string) (n : nat) (subs : list string) : string :=
  match subs with
  | [] => text
  | feed :: rest => add_lines (text +:+ feed_line n feed) (S n) rest
  end.

(** "Get Chat ID from name if given", for [/rss]: the id and the title. *)
Definition list_chat `{Env, Directory} (upd : update) (here : chat) (args : list string)
    : problem + (string * option string) :=
  match args with
  | chat_name :: _ =>
      match get_chat chat_name with
      | None => inl NoSuchChannel
      | Some id => inr (str id, chat_title chat_name)
      end
  | [] =>
      inr (str (u_chat_id upd),
           if bool_decide (c_type here = "private") then c_first_name here
           else c_title here)
  end.

Definition list_feeds `{Env, Directory} (upd : update) (here : chat) (args : list string)
    : M (option string) :=
  if negb (can_use_bot upd) then mret None else
  match list_chat upd here args with
  | inl p => mret (reply_text (ReplyErr p))
  | inr (chat_id, title) =>
      subs ← r_smembers (feed_hash chat_id);
      if bool_decide (subs = ∅) then mret (Some ("❌ " +:+ "There are no feeds."))
      else
        match title with
        | None => raise (AttributeError "replace")     (* html.escape(None) *)
        | Some t =>
            mret (Some (add_lines ("<b>" +:+ html_escape t +:+ "</b> is subscribed to:" +:+ nl)
                          0 (rss_order subs)))
        end
  end.

(** The list as its reader sees it: the lines of the feeds, numbered from
    [n + 1]. *)
Fixpoint numbered (n : nat) (subs : list string) : string :=
  match subs with
  | [] => ""
  | feed :: rest => feed_line n feed +:+ numbered (S n) rest
  end.

(** [/sync]: the tick, for whoever asks. *)
Definition run_job_manually `{Env} (upd : update) : M unit := run_async run_job.

(** ** More ways to read a computation *)

(** The three keys of a subscription. *)
Definition keys_of (chat_id feed_url : string) (k : string) : Prop :=
  k = feed_hash chat_id ∨ k = subs_key feed_url ∨ k = last_entry_key feed_url.

(** The two indexes agree: a chat is among the subscribers of a feed
    exactly when the feed is in the set of the chat. *)
Definition linked (d : gmap string rval) : Prop :=
  ∀ c u, chat_like c = true → (c ∈ subscribers d u ↔ u ∈ feeds_of d c).

(** An answer of the transport after which [check_feed] leaves the store
    alone. *)
Definition settled (o : outcome) : bool :=
  match o with
  | Unauthorized | ChatMigrated _ => false
  | _ => true
  end.

(** [tame K m]: unless one of the deliveries it makes is answered with an
    outcome that is not settled, [m] changes no key outside [K]. *)
Definition tame (K : string → Prop) {A} (m : M A) : Prop :=
  ∀ w, ∃ g, sent (m w).2 = sent w ++ g
            ∧ (Forall (λ d, settled (d_outcome d) = true) g →
               ∀ k, ¬ K k → db (m w).2 !! k = db w !! k).

Definition is_marker_key (k : string) : Prop := ∃ u, k = last_entry_key u.

(** [voices P m]: [m] only adds records to the log, all of them in [P]. *)
Definition voices (P : log_event → Prop) {A} (m : M A) : Prop :=
  ∀ w, ∃ l, logged (m w).2 = logged w ++ l ∧ Forall P l.

(** A record that, if it names a feed, names [u]. *)
Definition of_feed (u : string) (e : log_event) : Prop :=
  ∀ x, e = LogInfo x → x = u.

(** The line that [run_job] logs first. *)
Definition separator : string := "================================".

(** The messages of [g] that are addressed to the chat [m]. *)
Definition attempts (m : string) (g : list delivery) : nat :=
  length (filter (λ d, d_chat d = m) g).

(** The writes of lines 200-210, from a database [d]: the marker is seeded
    if the feed has an entry and no marker, then the two sets get their
    new member; an exception may end them after any step. *)
Definition subscribed_from (chat_id href : string) (entries : list entry)
    (d d3 : gmap string rval) : Prop :=
  ∃ d1 d2,
    (d1 = d ∨ ∃ e0 i, head entries = Some e0 ∧ entry_ident e0 = Some i
                      ∧ d !! last_entry_key href = None
                      ∧ d1 = <[last_entry_key href := RStr i]> d)
    ∧ (d2 = d1 ∨ sadd (subs_key href) chat_id d1 = inr d2)
    ∧ (d3 = d2 ∨ sadd (feed_hash chat_id) href d2 = inr d3).

(** During the cycle of [u], started in [d0]: the marker of [u] is as it
    was. *)
Definition marker_kept (u : string) (d0 d : gmap string rval) : Prop :=
  base_ok d ∧ d !! last_entry_key u = d0 !! last_entry_key u.

(** ** A small installation to run the model on

    One feed with three entries, a transport given per scenario, decimal
    integers for [int], the text between [://] and the next slash for
    [urlparse(...).netloc], and helpers that leave text as it is. *)
Module Demo.

Fixpoint digits_value (acc : Z) (s : string) : option Z :=
  match s with
  | EmptyString => Some acc
  | String c r =>
      if is_digit c
      then digits_value (10 * acc + (Z.of_nat (nat_of_ascii c) - 48)) r
      else None
  end.

Definition int (s : string) : option Z :=
  match s with
  | EmptyString => None
  | String c r =>
      if Ascii.eqb c "-"
      then match r with
           | EmptyString => None
           | _ => Z.opp <$> digits_value 0 r
           end
      else digits_value 0 s
  end.

Fixpoint until_slash (s : string) : string :=
  match s with
  | EmptyString => EmptyString
  | String c r => if Ascii.eqb c "/" then EmptyString else String c (until_slash r)
  end.

Fixpoint netloc (s : string) : string :=
  match s with
  | EmptyString => EmptyString
  | String _ r =>
      match strip_prefix "://" s with
      | Some t => until_slash t
      | None => netloc r
      end
  end.

(** The digits of ASCII, for [\d]. *)
Definition digit_rest (s : string) : option string :=
  match s with
  | String c r => if is_digit c then Some r else None
  | EmptyString => None
  end.

Definition digit_rest_ascii (c : ascii) (r : string) (H : is_digit c = true)
    : digit_rest (String c r) = Some r :=
  @eq_ind_r bool true (λ b : bool, (if b then Some r else None) = Some r)
    (eq_refl (Some r)) (is_digit c) H.

Definition digit_rest_other (c : ascii) (r : string) (H : is_digit c = false)
    (_ : (nat_of_ascii c < 128)%nat) : digit_rest (String c r) = None :=
  @eq_ind_r bool false (λ b : bool, (if b then Some r else None) = None)
    (eq_refl None) (is_digit c) H.

Definition env (feeds : string → parsed)
    (transport : list delivery → string → string → outcome) : Env :=
  {| feedparser_parse := feeds;
     send_message := transport;
     set_order := elements;
     set_order_perm := λ s, reflexivity (elements s);
     can_use_bot := λ _, true;
     get_chat := λ _, None;
     bot_status_in := λ _, "member";
     py_int := int;
     py_strip := λ s, s;
     urlparse_netloc := netloc;
     re_digit := digit_rest;
     re_digit_ascii := digit_rest_ascii;
     re_digit_other := digit_rest_other;
     remove_html_tags := λ s, s;
     get_content := λ s, s |}.

Definition item (i : string) : entry :=
  {| e_id := Some i;
     e_link := Some ("http://www.example.com/" +:+ i);
     e_title := Some i;
     e_content := None;
     e_summary := None |}.

Definition url : string := "http://example.com/feed".
Definition other_url : string := "http://example.org/rss".
Definition empty_url : string := "http://example.net/new".
Definition bare_url : string := "http://example.net/bare".

Definition feed (entries : list entry) (href : string) : parsed :=
  {| p_feed := {| f_link := Some "http://example.com"; f_title := Some "Example" |};
     p_entries := entries;
     p_status := Some 200%Z;
     p_bozo_exception := None;
     p_href := Some href;
     p_link := None |}.

Definition not_found : parsed :=
  {| p_feed := {| f_link := None; f_title := None |};
     p_entries := [];
     p_status := Some 404%Z;
     p_bozo_exception := None;
     p_href := None;
     p_link := None |}.

(** An entry with an id and a title, and no link. *)
Definition bare_item (i : string) : entry :=
  {| e_id := Some i;
     e_link := None;
     e_title := Some i;
     e_content := None;
     e_summary := None |}.

(** [url] has the entries e0 (newest), e1, e2; [other_url] has g0 only;
    [empty_url] is a feed without entries; [bare_url] has h0, h1, h2, of
    which h0 has no link; nothing else is a feed. *)
Definition web (u : string) : parsed :=
  if bool_decide (u = url) then feed [item "e0"; item "e1"; item "e2"] url
  else if bool_decide (u = other_url) then feed [item "g0"] other_url
  else if bool_decide (u = empty_url) then feed [] empty_url
  else if bool_decide (u = bare_url) then feed [bare_item "h0"; item "h1"; item "h2"] bare_url
  else not_found.

Definition always (o : outcome) : list delivery → string → string → outcome :=
  λ _ _ _, o.

Definition fresh : world := World ∅ [] [] [].

(** Chat 7 follows [url] and has seen everything up to e2. *)
Definition one_reader : world :=
  World (<[subs_key url := RSet {["7"]}]>
         (<[last_entry_key url := RStr "e2"]>
         (<[feed_hash "7" := RSet {[url]}]> ∅))) [] [] [].

(** Chat 7 follows [url] (seen up to e2) and [other_url] (up to date). *)
Definition two_feeds : world :=
  World (<[subs_key url := RSet {["7"]}]>
         (<[last_entry_key url := RStr "e2"]>
         (<[subs_key other_url := RSet {["7"]}]>
         (<[last_entry_key other_url := RStr "g0"]>
         (<[feed_hash "7" := RSet {[url; other_url]}]> ∅))))) [] [] [].

(** Chat 7 follows [url] and has seen everything up to e1. *)
Definition one_behind : world :=
  World (<[subs_key url := RSet {["7"]}]>
         (<[last_entry_key url := RStr "e1"]>
         (<[feed_hash "7" := RSet {[url]}]> ∅))) [] [] [].

(** Chat 7 follows [bare_url] and has seen everything up to h2. *)
Definition bare_reader : world :=
  World (<[subs_key bare_url := RSet {["7"]}]>
         (<[last_entry_key bare_url := RStr "h2"]>
         (<[feed_hash "7" := RSet {[bare_url]}]> ∅))) [] [] [].

(** Chat 7 has become chat 8: what is sent to 7 is refused with the new id,
    what is sent to 8 arrives. *)
Definition moved : Env :=
  env web (λ _ chat _, if bool_decide (chat = "7") then ChatMigrated 8 else Delivered).

(** Chat 7 has blocked the bot. *)
Definition blocked : Env := env web (always Unauthorized).

(** The transport delivers everything. *)
Definition calm : Env := env web (always Delivered).

(** Chat 7 has just sent [/sub http://example.com/feed] to a new bot. *)
Definition subscribed : world := (@subscribe calm (Update 7) [url] fresh).2.

End Demo.

(** ** A second installation

    A feed whose only entry has neither an id nor a link, a private chat,
    a user the bot refuses, and a channel. *)
Module Lab.

Definition anonymous : entry :=
  {| e_id := None;
     e_link := None;
     e_title := Some "untitled";
     e_content := None;
     e_summary := None |}.

Definition odd_url : string := "http://example.net/odd".

Definition web (u : string) : parsed :=
  if bool_decide (u = odd_url) then Demo.feed [anonymous] odd_url else Demo.web u.

Definition env : Env := Demo.env web (Demo.always Delivered).

(** The same bot for a user it refuses. *)
Definition closed : Env :=
  {| feedparser_parse := web;
     send_message := Demo.always Delivered;
     set_order := elements;
     set_order_perm := λ s, reflexivity (elements s);
     can_use_bot := λ _, false;
     get_chat := λ _, None;
     bot_status_in := λ _, "member";
     py_int := Demo.int;
     py_strip := λ s, s;
     urlparse_netloc := Demo.netloc;
     re_digit := Demo.digit_rest;
     re_digit_ascii := Demo.digit_rest_ascii;
     re_digit_other := Demo.digit_rest_other;
     remove_html_tags := λ s, s;
     get_content := λ s, s |}.

(** The bot is an administrator of the channel [@news], whose id is
    -1001; it knows no other channel. *)
Definition newsroom : Env :=
  {| feedparser_parse := web;
     send_message := Demo.always Delivered;
     set_order := elements;
     set_order_perm := λ s, reflexivity (elements s);
     can_use_bot := λ _, true;
     get_chat := λ name, if bool_decide (name = "@news") then Some (-1001)%Z else None;
     bot_status_in := λ _, "administrator";
     py_int := Demo.int;
     py_strip := λ s, s;
     urlparse_netloc := Demo.netloc;
     re_digit := Demo.digit_rest;
     re_digit_ascii := Demo.digit_rest_ascii;
     re_digit_other := Demo.digit_rest_other;
     remove_html_tags := λ s, s;
     get_content := λ s, s |}.

(** A parsed result that has a link attribute of its own, which
    [feedparser] does not give it, and an entry without a link. *)
Definition with_link : parsed :=
  {| p_feed := {| f_link := Some "http://example.com"; f_title := Some "Example" |};
     p_entries := [Demo.bare_item "h0"];
     p_status := Some 200%Z;
     p_bozo_exception := None;
     p_href := Some Demo.bare_url;
     p_link := Some "http://www.example.org/top" |}.

(** What the parser gives for a document that is no feed, served with
    status 200, when it has nothing to report about it. *)
Definition blank : parsed :=
  {| p_feed := {| f_link := None; f_title := None |};
     p_entries := [];
     p_status := Some 200%Z;
     p_bozo_exception := None;
     p_href := Some Demo.url;
     p_link := None |}.

(** A feed document served with status 404. *)
Definition served_404 : parsed :=
  {| p_feed := {| f_link := Some "http://example.com"; f_title := Some "Example" |};
     p_entries := [Demo.item "e0"; Demo.item "e1"; Demo.item "e2"];
     p_status := Some 404%Z;
     p_bozo_exception := None;
     p_href := Some Demo.url;
     p_link := None |}.

(** Chat 7 has sent [/sub http://example.com/feed] to a new bot while the
    feed had no entry yet. *)
Definition early : (exn + unit) * world :=
  @subscribe (Demo.env (λ _, Demo.feed [] Demo.url) (Demo.always Delivered))
    (Update 7) [Demo.url] Demo.fresh.

(** Chat 7 has blocked the bot; every other chat gets its messages. *)
Definition one_blocked : Env :=
  Demo.env Demo.web
    (λ _ chat _, if bool_decide (chat = "7") then Unauthorized else Delivered).

(** Chats 7 and 9 follow [Demo.url] and have seen everything up to e1;
    chat 7 follows [Demo.other_url] too, which is up to date. *)
Definition shared : world :=
  World (<[subs_key Demo.url := RSet {["7"; "9"]}]>
         (<[last_entry_key Demo.url := RStr "e1"]>
         (<[subs_key Demo.other_url := RSet {["7"]}]>
         (<[last_entry_key Demo.other_url := RStr "g0"]>
         (<[feed_hash "7" := RSet {[Demo.url; Demo.other_url]}]>
         (<[feed_hash "9" := RSet {[Demo.url]}]> ∅)))))) [] [] [].

Definition directory : Directory :=
  {| chat_title := λ _, None;
     rss_order := λ s, rev (elements s);
     rss_order_perm := λ s, Permutation_sym (Permutation_rev (elements s)) |}.

Definition ada : chat :=
  {| c_type := "private"; c_first_name := Some "Ada"; c_title := None |}.

(** Chat 7 has become chat 8: the first message to chat 7 is refused with
    the new id, every later message arrives. *)
Definition moved_once : Env :=
  Demo.env Demo.web
    (λ seen chat _,
       if bool_decide (chat = "7") && negb (existsb (λ d, String.eqb (d_chat d) "7") seen)
       then ChatMigrated 8 else Delivered).

(** Chats 7 and 9 follow [Demo.url]. *)
Definition two_readers : world :=
  World (<[feed_hash "7" := RSet {[Demo.url]}]>
         (<[feed_hash "9" := RSet {[Demo.url]}]>
         (<[subs_key Demo.url := RSet {["7"; "9"]}]> ∅))) [] [] [].

End Lab.

(** ** String lemmas *)

Lemma str_app_nil_l s : "" +:+ s = s.
Proof. reflexivity. Qed.

Lemma str_app_cons a s t : String a s +:+ t = String a (s +:+ t).
Proof. reflexivity. Qed.

Ltac sapp := rewrite ?str_app_cons, ?str_app_nil_l in *.

Lemma strip_prefix_app p s : strip_prefix p (p +:+ s) = Some s.
Proof.
  induction p as [|a p IH]; sapp; simpl; [done|].
  by rewrite Ascii.eqb_refl.
Qed.

Lemma strip_prefix_Some p s r : strip_prefix p s = Some r → s = p +:+ r.
Proof.
  revert s; induction p as [|a p IH]; intros [|b s] Hs; sapp; simpl in *;
    try congruence.
  destruct (Ascii.eqb_spec a b) as [->|]; [|done].
  f_equal. by apply IH.
Qed.

Lemma str_length_app s t : String.length (s +:+ t) = String.length s + String.length t.
Proof. induction s as [|a s IH]; sapp; simpl; [done|]. by rewrite IH. Qed.

Lemma str_app_longer a s suf : String a (s +:+ suf) ≠ suf.
Proof.
  intros Heq. apply (f_equal String.length) in Heq. simpl in Heq.
  rewrite str_length_app in Heq. lia.
Qed.

Lemma str_app_inv_tail s t suf : s +:+ suf = t +:+ suf → s = t.
Proof.
  revert t; induction s as [|a s IH]; intros [|b t] Heq; sapp; try done.
  - symmetry in Heq. by apply str_app_longer in Heq.
  - by apply str_app_longer in Heq.
  - injection Heq as -> Heq. f_equal. by apply IH.
Qed.

Lemma strip_suffix_unfold suf s :
  strip_suffix suf s =
    if String.eqb s suf then Some ""
    else match s with
         | "" => None
         | String c s' => String c <$> strip_suffix suf s'
         end.
Proof. by destruct s. Qed.

Lemma strip_suffix_Some suf s u : strip_suffix suf s = Some u → s = u +:+ suf.
Proof.
  revert u; induction s as [|a s IH]; intros u; rewrite strip_suffix_unfold.
  - destruct (String.eqb_spec "" suf) as [<-|]; [by intros [= <-]|done].
  - destruct (String.eqb_spec (String a s) suf) as [<-|]; [by intros [= <-]|].
    destruct (strip_suffix suf s) as [u'|] eqn:Hu; simpl; [|done].
    intros [= <-]. sapp. f_equal. by apply IH.
Qed.

Lemma strip_suffix_app suf u : strip_suffix suf (u +:+ suf) = Some u.
Proof.
  induction u as [|a u IH]; rewrite strip_suffix_unfold; sapp.
  - by rewrite String.eqb_refl.
  - destruct (String.eqb_spec (String a (u +:+ suf)) suf) as [Heq|_].
    + by apply str_app_longer in Heq.
    + by rewrite IH.
Qed.

Lemma strip_suffix_None suf c u : strip_suffix suf c = None → c ≠ u +:+ suf.
Proof. intros Hc ->. by rewrite strip_suffix_app in Hc. Qed.

Lemma last_char_app s t : t ≠ "" → last_char (s +:+ t) = last_char t.
Proof.
  intros Ht. induction s as [|a s IH]; sapp; simpl; [done|].
  rewrite IH. destruct (s +:+ t) eqn:Hst; [|done].
  destruct s; sapp; [done|discriminate].
Qed.

(** ** Keys *)

Lemma feed_hash_inj a b : feed_hash a = feed_hash b → a = b.
Proof. unfold feed_hash. apply (inj _). Qed.

Lemma subs_key_inj u v : subs_key u = subs_key v → u = v.
Proof. intros Heq%feed_hash_inj. by apply str_app_inv_tail in Heq. Qed.

Lemma last_entry_key_inj u v : last_entry_key u = last_entry_key v → u = v.
Proof. intros Heq%feed_hash_inj. by apply str_app_inv_tail in Heq. Qed.

Lemma subs_key_not_marker u v : subs_key u ≠ last_entry_key v.
Proof.
  intros Heq%feed_hash_inj. apply (f_equal last_char) in Heq.
  by rewrite !last_char_app in Heq.
Qed.

Lemma chat_key_not_subs c u : chat_like c = true → feed_hash c ≠ subs_key u.
Proof.
  unfold chat_like. intros [Hc _]%andb_prop Heq%feed_hash_inj.
  apply bool_decide_eq_true in Hc. by eapply strip_suffix_None.
Qed.

Lemma chat_key_not_marker c u : chat_like c = true → feed_hash c ≠ last_entry_key u.
Proof.
  unfold chat_like. intros [_ Hc]%andb_prop Heq%feed_hash_inj.
  apply bool_decide_eq_true in Hc. by eapply strip_suffix_None.
Qed.

Lemma match_subs_key_subs u :
  u ≠ "" → has_char newline u = false → match_subs_key (subs_key u) = Some u.
Proof.
  intros Hne Hnl. unfold match_subs_key, subs_key, feed_hash.
  rewrite strip_prefix_app. simpl. rewrite strip_suffix_app. simpl.
  rewrite Hnl. by destruct u.
Qed.

Lemma is_subs_key_inv key : is_subs_key key = true → ∃ u, key = subs_key u.
Proof.
  unfold is_subs_key. destruct (strip_prefix _ key) as [rest|] eqn:Hp; [|done].
  intros [u Hu]%bool_decide_eq_true.
  apply strip_prefix_Some in Hp. apply strip_suffix_Some in Hu.
  exists u. by subst.
Qed.

Lemma match_subs_key_inv u v : match_subs_key (subs_key u) = Some v → v = u.
Proof.
  unfold match_subs_key, subs_key, feed_hash.
  rewrite strip_prefix_app. simpl. rewrite strip_suffix_app. simpl.
  destruct u; [done|]. by destruct (has_char _ _); intros [= <-].
Qed.

Lemma match_subs_key_not_marker key u v : match_subs_key key = Some u → key ≠ last_entry_key v.
Proof.
  unfold match_subs_key. intros Hm ->.
  unfold last_entry_key, feed_hash in Hm. rewrite strip_prefix_app in Hm. simpl in Hm.
  destruct (strip_suffix ":subs" (v +:+ ":last_entry")) as [u1|] eqn:H1.
  - apply strip_suffix_Some, (f_equal last_char) in H1.
    by rewrite !last_char_app in H1.
  - destruct (strip_suffix (":subs" +:+ String newline "") (v +:+ ":last_entry"))
      as [u2|] eqn:H2; [|done].
    apply strip_suffix_Some, (f_equal last_char) in H2.
    by rewrite !last_char_app in H2.
Qed.

(** ** Decimal chat ids

    [str] of an integer ends in a digit, so the key of a chat is never the
    key of a feed. *)

Lemma pretty_N_go_last x s : s ≠ "" → last_char (pretty_N_go x s) = last_char s.
Proof.
  revert s. induction (N.lt_wf_0 x) as [x _ IH]; intros s Hs.
  destruct (decide (x = 0)%N) as [->|Hx]; [by rewrite pretty_N_go_0|].
  rewrite pretty_N_go_step by lia.
  rewrite IH; [|apply N.div_lt; lia|done].
  simpl. by destruct s.
Qed.

Lemma pretty_N_char_digit x : is_digit (pretty_N_char x) = true.
Proof. unfold pretty_N_char. by repeat case_match. Qed.

Lemma pretty_pos_last (p : positive) :
  ∃ c, last_char (pretty (N.pos p)) = Some c ∧ is_digit c = true.
Proof.
  unfold pretty, pretty_N. rewrite decide_False by done.
  rewrite pretty_N_go_step by lia.
  rewrite pretty_N_go_last by done. simpl.
  eexists; split; [done|]. apply pretty_N_char_digit.
Qed.

Lemma str_last_digit z : ∃ c, last_char (str z) = Some c ∧ is_digit c = true.
Proof.
  unfold str, pretty, pretty_Z. destruct z as [|p|p].
  - by exists "0"%char.
  - apply pretty_pos_last.
  - destruct (pretty_pos_last p) as (c & Hc & Hd).
    exists c. split; [|done].
    rewrite last_char_app; [done|].
    intros Heq. unfold pretty, pretty_positive in Heq.
    by rewrite Heq in Hc.
Qed.

Lemma str_chat_like z : chat_like (str z) = true.
Proof.
  destruct (str_last_digit z) as (c & Hc & Hd).
  unfold chat_like. apply andb_true_intro; split; apply bool_decide_eq_true.
  - destruct (strip_suffix ":subs" (str z)) as [u|] eqn:Hu; [|done].
    apply strip_suffix_Some in Hu. rewrite Hu, last_char_app in Hc by done.
    simpl in Hc. by injection Hc as <-.
  - destruct (strip_suffix ":last_entry" (str z)) as [u|] eqn:Hu; [|done].
    apply strip_suffix_Some in Hu. rewrite Hu, last_char_app in Hc by done.
    simpl in Hc. by injection Hc as <-.
Qed.
(** ** The label of the trailing link *)

Lemma lazy_until_slash_plain t rest :
  has_char "/" t = false → has_char newline t = false →
  lazy_until_slash (t +:+ String "/" rest) = Some t.
Proof.
  induction t as [|a t IH]; sapp; simpl; [done|].
  intros [Ha Ht]%orb_false_elim [Hb Hu]%orb_false_elim.
  rewrite Ha, Hb. by rewrite IH.
Qed.

Lemma lazy_until_slash_inv r t :
  lazy_until_slash r = Some t →
  ∃ rest, r = t +:+ String "/" rest
          ∧ has_char "/" t = false ∧ has_char newline t = false.
Proof.
  revert t. induction r as [|a r IH]; intros t; simpl; [done|].
  destruct (Ascii.eqb_spec a "/") as [->|Hs]; [intros [= <-]; by exists r|].
  destruct (Ascii.eqb_spec a newline) as [->|Hn]; [done|].
  destruct (lazy_until_slash r) as [t'|]; [|done]. simpl. intros [= <-].
  destruct (IH t' eq_refl) as (rest & -> & Hs' & Hn').
  exists rest. sapp. simpl. rewrite Hs', Hn'.
  split_and!; [done| |]; apply orb_false_intro; try done;
    by apply Ascii.eqb_neq.
Qed.

Lemma feedproxy_name_prefix (secure : bool) tail :
  feedproxy_name ("http" +:+ (if secure then "s" else "") +:+
                  "://feedproxy.google.com/~r/" +:+ tail) =
    match tail with
    | "" => None
    | String c r => if Ascii.eqb c newline then None else String c <$> lazy_until_slash r
    end.
Proof. by destruct secure. Qed.

Lemma feedproxy_name_wrapped (secure : bool) name rest :
  plain_segment name = true →
  feedproxy_name ("http" +:+ (if secure then "s" else "") +:+
                  "://feedproxy.google.com/~r/" +:+ name +:+ "/" +:+ rest) = Some name.
Proof.
  destruct name as [|c t]; [done|]. simpl.
  intros [[Hc Hs]%andb_prop Hn]%andb_prop.
  apply negb_true_iff in Hc, Hs, Hn.
  rewrite feedproxy_name_prefix. sapp. rewrite Hc.
  by rewrite lazy_until_slash_plain.
Qed.

(** The links the pattern of line 294 accepts are those of this form, and
    no other. *)
Lemma feedproxy_name_inv l name :
  feedproxy_name l = Some name →
  ∃ (secure : bool) rest,
    l = "http" +:+ (if secure then "s" else "") +:+
        "://feedproxy.google.com/~r/" +:+ name +:+ "/" +:+ rest
    ∧ plain_segment name = true.
Proof.
  unfold feedproxy_name.
  destruct (strip_prefix "http" l) as [r0|] eqn:H0; [|done].
  apply strip_prefix_Some in H0. subst l. cbn [mbind option_bind].
  assert (∀ tail,
    match tail with
    | "" => None
    | String c r => if Ascii.eqb c newline then None else String c <$> lazy_until_slash r
    end = Some name →
    ∃ rest, tail = name +:+ "/" +:+ rest ∧ plain_segment name = true) as Htail.
  { intros [|c r]; [done|].
    destruct (Ascii.eqb c newline) eqn:Hc; [done|].
    destruct (lazy_until_slash r) as [t|] eqn:Ht; [|done]. simpl. intros [= <-].
    apply lazy_until_slash_inv in Ht as (rest & -> & Hs & Hn).
    exists rest. split; [by sapp|]. simpl. by rewrite Hc, Hs, Hn. }
  destruct (strip_prefix "s" r0) as [r1|] eqn:H1; cbn [from_option id].
  - apply strip_prefix_Some in H1. subst r0.
    destruct (strip_prefix "://feedproxy.google.com/~r/" r1) as [r2|] eqn:H2; [|done].
    apply strip_prefix_Some in H2. subst r1. cbn [mbind option_bind].
    intros (rest & -> & Hplain)%Htail. by exists true, rest.
  - destruct (strip_prefix "://feedproxy.google.com/~r/" r0) as [r2|] eqn:H2; [|done].
    apply strip_prefix_Some in H2. subst r0. cbn [mbind option_bind].
    intros (rest & -> & Hplain)%Htail. by exists false, rest.
Qed.

Lemma strip_www_dot `{Env} r : strip_www ("www." +:+ r) = r.
Proof.
  unfold strip_www. change ("www." +:+ r) with ("www" +:+ String "." r).
  rewrite strip_prefix_app.
  rewrite (re_digit_other "." r) by (vm_compute; first [reflexivity | lia]).
  reflexivity.
Qed.

Lemma strip_www_class `{Env} rest r1 r :
  re_digit rest = Some r1 → strip_prefix "." r1 = Some r →
  strip_www ("www" +:+ rest) = r.
Proof.
  intros Hd Hdot. unfold strip_www. rewrite strip_prefix_app, Hd.
  cbn [mbind option_bind]. by rewrite Hdot.
Qed.

Lemma strip_www_digit `{Env} d r :
  is_digit d = true → strip_www ("www" +:+ String d ("." +:+ r)) = r.
Proof.
  intros Hd. eapply strip_www_class; [by apply re_digit_ascii|done].
Qed.

Lemma strip_www_other `{Env} s :
  strip_prefix "www." s = None →
  (∀ rest r1, s = "www" +:+ rest → re_digit rest = Some r1 → strip_prefix "." r1 = None) →
  strip_www s = s.
Proof.
  intros Hdot Hdig. unfold strip_www.
  destruct (strip_prefix "www" s) as [rest|] eqn:Hw; [|done].
  apply strip_prefix_Some in Hw. subst s.
  assert (strip_prefix "." rest = None) as ->.
  { destruct (strip_prefix "." rest) as [r|] eqn:Hr; [|done].
    apply strip_prefix_Some in Hr. subst rest.
    change (strip_prefix "www." ("www." +:+ r) = None) in Hdot.
    by rewrite strip_prefix_app in Hdot. }
  destruct (re_digit rest) as [r1|] eqn:Hd; [|done].
  cbn [mbind option_bind]. by rewrite (Hdig rest r1 eq_refl Hd).
Qed.





(** ** Computations *)

Lemma bind_unfold {A B} (m : M A) (k : A → M B) w :
  (m ≫= k) w = match m w with
               | (inr a, w') => k a w'
               | (inl e, w') => (inl e, w')
               end.
Proof. reflexivity. Qed.

Lemma bind_inv {A B} (m : M A) (k : A → M B) w r w2 :
  (m ≫= k) w = (r, w2) →
  (∃ a w1, m w = (inr a, w1) ∧ k a w1 = (r, w2)) ∨
  (∃ e, m w = (inl e, w2) ∧ r = inl e).
Proof.
  rewrite bind_unfold. destruct (m w) as [[e|a] w1].
  - intros [= <- <-]. right. by exists e.
  - intros Hk. left. by exists a, w1.
Qed.

(** Run the next commands of a computation. *)
Ltac mrun :=
  repeat (progress (rewrite ?bind_unfold;
                    unfold r_get, r_exists, r_set, r_delete, r_smembers, r_sadd,
                      r_srem, r_rename, ask, run, log, reply, lift, raise, with_db;
                    simpl)).
(** ** A feed that cannot be fetched or parsed *)

Lemma check_feed_no_link `{Env} key feed_url w :
  match_subs_key key = Some feed_url →
  f_link (p_feed (feedparser_parse feed_url)) = None →
  db (check_feed key w).2 = db w ∧ sent (check_feed key w).2 = sent w.
Proof.
  intros Hkey Hlink. unfold check_feed. rewrite Hkey, Hlink.
  rewrite bind_unfold. simpl.
  destruct (p_status _) as [s|], (p_bozo_exception _) as [b|];
    simpl; try case_bool_decide; done.
Qed.

(** C8, as the code has it.  The test of line 269 is the missing feed
    link, whatever the status.  When the fetched feed has no feed link, the
    cycle of that feed changes nothing in the database (markers, subscriber
    sets, feed sets), delivers nothing and answers nobody, so the next tick
    finds the same feed keys.  It logs one warning and returns: the status
    if there is one other than 200, and otherwise what the parser reports
    about the document.  If the status is 200 or absent and the parser
    reports nothing, reading [bozo_exception] raises AttributeError and
    nothing but the URL has been logged. *)
Theorem check_feed_fetch_failure `{Env} key feed_url w :
  match_subs_key key = Some feed_url →
  f_link (p_feed (feedparser_parse feed_url)) = None →
  db (check_feed key w).2 = db w
  ∧ sent (check_feed key w).2 = sent w
  ∧ ui (check_feed key w).2 = ui w
  ∧ (r_keys_subs (check_feed key w).2).1 = (r_keys_subs w).1
  ∧ (∀ s, p_status (feedparser_parse feed_url) = Some s → s ≠ 200%Z →
       check_feed key w =
         (inr tt, World (db w) (sent w) (ui w)
                    ((logged w ++ [LogInfo feed_url]) ++ [LogNotValidStatus feed_url s])))
  ∧ (∀ b, p_status (feedparser_parse feed_url) = None
          ∨ p_status (feedparser_parse feed_url) = Some 200%Z →
       p_bozo_exception (feedparser_parse feed_url) = Some b →
       check_feed key w =
         (inr tt, World (db w) (sent w) (ui w)
                    ((logged w ++ [LogInfo feed_url]) ++ [LogNotValidFeed feed_url b])))
  ∧ (p_status (feedparser_parse feed_url) = None
     ∨ p_status (feedparser_parse feed_url) = Some 200%Z →
     p_bozo_exception (feedparser_parse feed_url) = None →
     check_feed key w =
       (inl (AttributeError "bozo_exception"),
        World (db w) (sent w) (ui w) (logged w ++ [LogInfo feed_url]))).
Proof.
  intros Hkey Hlink. unfold check_feed. rewrite Hkey, Hlink.
  rewrite bind_unfold. simpl.
  destruct (p_status _) as [s|] eqn:Hs, (p_bozo_exception _) as [b|] eqn:Hb; simpl.
  - case_bool_decide as Hne; simpl; split_and!; try done.
    + by intros s' [= <-] _.
    + by intros b' [[=]|[= ->]] _.
    + by intros s' [= <-] H200.
    + by intros b' _ [= <-].
  - case_bool_decide as Hne; simpl; split_and!; try done.
    + by intros s' [= <-] _.
    + by intros [[=]|[= ->]] _.
    + by intros s' [= <-] H200.
  - split_and!; try done. by intros b' _ [= <-].
  - split_and!; done.
Qed.

Lemma check_feed_fetch_failure_witness :
  db (@check_feed (Demo.env (λ _, Demo.not_found) (Demo.always Delivered))
        (subs_key Demo.url) Demo.one_reader).2 = db Demo.one_reader
  ∧ @check_feed (Demo.env (λ _, Demo.not_found) (Demo.always Delivered))
       (subs_key Demo.url) Demo.one_reader =
      (inr tt, World (db Demo.one_reader) [] []
                 ([LogInfo Demo.url] ++ [LogNotValidStatus Demo.url 404]))
  ∧ @check_feed (Demo.env (λ _, Lab.blank) (Demo.always Delivered))
       (subs_key Demo.url) Demo.one_reader =
      (inl (AttributeError "bozo_exception"),
       World (db Demo.one_reader) [] [] [LogInfo Demo.url]).
Proof.
  destruct (@check_feed_fetch_failure (Demo.env (λ _, Demo.not_found) (Demo.always Delivered))
              (subs_key Demo.url) Demo.url Demo.one_reader)
    as (Hdb & _ & _ & _ & Hstatus & _); [reflexivity|reflexivity|].
  destruct (@check_feed_fetch_failure (Demo.env (λ _, Lab.blank) (Demo.always Delivered))
              (subs_key Demo.url) Demo.url Demo.one_reader)
    as (_ & _ & _ & _ & _ & _ & Hraise); [reflexivity|reflexivity|].
  split_and!.
  - exact Hdb.
  - apply (Hstatus 404%Z); [reflexivity|lia].
  - apply Hraise; [right|]; reflexivity.
Defined.

(** C8, as stated, fails on both sides.  A document without a feed link
    that comes with status 200 and about which the parser reports nothing
    is not logged as a failure: the cycle raises AttributeError after the
    URL.  And a status other than 200 does not stop the cycle of a feed
    that has a feed link: with status 404 and two entries after the marker,
    chat 7 gets both and the marker moves to the newest. *)
Lemma check_feed_fetch_failure_counterexample :
  f_link (p_feed Lab.blank) = None
  ∧ @check_feed (Demo.env (λ _, Lab.blank) (Demo.always Delivered))
       (subs_key Demo.url) Demo.one_reader =
      (inl (AttributeError "bozo_exception"),
       World (db Demo.one_reader) [] [] [LogInfo Demo.url])
  ∧ p_status Lab.served_404 = Some 404%Z
  ∧ db Demo.one_reader !! last_entry_key Demo.url = Some (RStr "e2")
  ∧ db (@check_feed (Demo.env (λ _, Lab.served_404) (Demo.always Delivered))
          (subs_key Demo.url) Demo.one_reader).2 !! last_entry_key Demo.url
    = Some (RStr "e0")
  ∧ map (λ d, (d_chat d, d_outcome d))
      (sent (@check_feed (Demo.env (λ _, Lab.served_404) (Demo.always Delivered))
               (subs_key Demo.url) Demo.one_reader).2)
    = [("7", Delivered); ("7", Delivered)]
  ∧ logged (@check_feed (Demo.env (λ _, Lab.served_404) (Demo.always Delivered))
              (subs_key Demo.url) Demo.one_reader).2
    = [LogInfo Demo.url].
Proof.
  split_and!; by vm_compute.
Qed.


(** ** /del: the position argument *)

(** C10.  When the position argument is not an integer, /del answers
    "No number given." and does nothing else: the database, the deliveries
    and the log are as before. *)
Theorem unsubscribe_not_a_number `{Env} upd arg rest chat_id w :
  can_use_bot upd = true →
  unsubscribe_chat upd rest = inr chat_id →
  py_int arg = None →
  unsubscribe upd (arg :: rest) w =
    (inr tt, World (db w) (sent w) (ui w ++ [ReplyErr NoNumberGiven]) (logged w))
  ∧ reply_text (ReplyErr NoNumberGiven) = Some "❌ No number given.".
Proof.
  intros Hcan Hchat Hint. split; [|done].
  unfold unsubscribe. by rewrite Hcan, Hchat, Hint.
Qed.

Lemma unsubscribe_not_a_number_witness :
  @unsubscribe (Demo.env Demo.web (Demo.always Delivered)) (Update 7) ["two"] Demo.one_reader =
    (inr tt, World (db Demo.one_reader) [] [ReplyErr NoNumberGiven] []).
Proof.
  apply (@unsubscribe_not_a_number (Demo.env Demo.web (Demo.always Delivered))
           (Update 7) "two" [] "7" Demo.one_reader); reflexivity.
Defined.

(** C7.  For a chat with N subscriptions, /del with a position below 1 or
    above N answers with an error ("Number must be bigger than 0!" or
    "Feed ID too high.") and leaves the whole database as it was. *)
Theorem unsubscribe_out_of_range `{Env} upd arg rest chat_id n subs w :
  can_use_bot upd = true →
  unsubscribe_chat upd rest = inr chat_id →
  py_int arg = Some n →
  smembers (feed_hash chat_id) (db w) = inr subs →
  (n < 1 ∨ n > Z.of_nat (size subs))%Z →
  unsubscribe upd (arg :: rest) w =
    (inr tt,
     World (db w) (sent w)
       (ui w ++ [ReplyErr (if bool_decide (n < 1)%Z then NumberTooSmall else FeedIdTooHigh)])
       (logged w)).
Proof.
  intros Hcan Hchat Hint Hsubs Hn.
  unfold unsubscribe. rewrite Hcan, Hchat, Hint. simpl.
  rewrite bind_unfold. unfold r_smembers, ask. rewrite Hsubs.
  case_bool_decide; [done|].
  rewrite bool_decide_true by lia. done.
Qed.

Lemma unsubscribe_out_of_range_witness :
  @unsubscribe (Demo.env Demo.web (Demo.always Delivered)) (Update 7) ["0"] Demo.one_reader =
    (inr tt, World (db Demo.one_reader) [] [ReplyErr NumberTooSmall] [])
  ∧ @unsubscribe (Demo.env Demo.web (Demo.always Delivered)) (Update 7) ["2"] Demo.one_reader =
    (inr tt, World (db Demo.one_reader) [] [ReplyErr FeedIdTooHigh] []).
Proof.
  split.
  - apply (@unsubscribe_out_of_range (Demo.env Demo.web (Demo.always Delivered))
             (Update 7) "0" [] "7" 0%Z {[Demo.url]} Demo.one_reader);
      [reflexivity|reflexivity|reflexivity|reflexivity|lia].
  - apply (@unsubscribe_out_of_range (Demo.env Demo.web (Demo.always Delivered))
             (Update 7) "2" [] "7" 2%Z {[Demo.url]} Demo.one_reader);
      [reflexivity|reflexivity|reflexivity|reflexivity|].
    right. vm_compute. reflexivity.
Defined.

(** ** /sub *)

Lemma run_ok f w w' : run f w = (inr tt, w') → ∃ d, f (db w) = inr d ∧ w' = with_db w d.
Proof.
  unfold run. destruct (f (db w)) as [e|d] eqn:Hf; [done|].
  intros [= <-]. by exists d.
Qed.

Lemma subscribe_chat_like `{Env} upd rest chat_id :
  subscribe_chat upd rest = inr chat_id → chat_like chat_id = true.
Proof.
  unfold subscribe_chat. destruct rest as [|name rest].
  - intros [= <-]. apply str_chat_like.
  - destruct (get_chat name) as [id|]; [|done].
    case_bool_decide; [|done]. intros [= <-]. apply str_chat_like.
Qed.

Lemma unsubscribe_chat_like `{Env} upd rest chat_id :
  unsubscribe_chat upd rest = inr chat_id → chat_like chat_id = true.
Proof.
  unfold unsubscribe_chat. destruct rest as [|name rest].
  - intros [= <-]. apply str_chat_like.
  - destruct (get_chat name) as [id|]; [|done].
    intros [= <-]. apply str_chat_like.
Qed.

Lemma subscribe_accepted `{Env} upd args chat_id data href w :
  accepted upd args chat_id data href →
  subscribe upd args w =
    store_subscription chat_id data href
      (World (db w) (sent w) (ui w ++ [Typing (u_chat_id upd)]) (logged w)).
Proof.
  intros (feed_url & rest & -> & Hcan & Hurl & Hchat & -> & [l Hl] & Hhref).
  unfold subscribe. rewrite Hcan, Hurl, Hchat. simpl.
  rewrite bind_unfold. simpl. by rewrite Hl, Hhref.
Qed.

(** What [seed_marker] does to the world. *)
Lemma seed_marker_run feed_url entries w :
  seed_marker feed_url entries w =
    match entries with
    | [] => (inr tt, w)
    | e0 :: _ =>
        if bool_decide (is_Some (db w !! last_entry_key feed_url)) then (inr tt, w)
        else match entry_ident e0 with
             | Some i => (inr tt, with_db w (<[last_entry_key feed_url := RStr i]> (db w)))
             | None => (inl (KeyError "link"), w)
             end
    end.
Proof.
  destruct entries as [|e0 rest]; [done|].
  unfold seed_marker, entry_ident. rewrite bind_unfold. simpl.
  case_bool_decide; [done|].
  by destruct (e_id e0), (e_link e0).
Qed.

(** What a /sub request that answers "added" has done. *)
Lemma store_subscription_added chat_id data href w w1 title :
  store_subscription chat_id data href w = (inr tt, w1) →
  ui w1 = ui w ++ [ReplyOk (Added title)] →
  ∃ s w' d2 d3,
    smembers (feed_hash chat_id) (db w) = inr s ∧ (href ∉ s) ∧
    seed_marker href (p_entries data) w = (inr tt, w') ∧
    sadd (subs_key href) chat_id (db w') = inr d2 ∧
    sadd (feed_hash chat_id) href d2 = inr d3 ∧
    db w1 = d3 ∧ sent w1 = sent w' ∧ logged w1 = logged w'.
Proof.
  unfold store_subscription, r_sismember. rewrite !bind_unfold.
  unfold r_smembers, ask at 1.
  destruct (smembers (feed_hash chat_id) (db w)) as [e|s] eqn:Hs; [done|]. simpl.
  case_bool_decide as Hin.
  { intros [= <-]. simpl. intros Heq%app_inj_tail. by destruct Heq as [_ [=]]. }
  rewrite !bind_unfold.
  destruct (seed_marker href (p_entries data) w) as [[e|[]] w'] eqn:Hseed; [done|].
  rewrite bind_unfold. unfold r_sadd.
  destruct (run (sadd (subs_key href) chat_id) w') as [[e|[]] w2] eqn:H2; [done|].
  apply run_ok in H2 as (d2 & Hd2 & ->).
  rewrite bind_unfold.
  destruct (run (sadd (feed_hash chat_id) href) (with_db w' d2)) as [[e|[]] w3] eqn:H3; [done|].
  apply run_ok in H3 as (d3 & Hd3 & ->). simpl in Hd3.
  intros [= <-] _. simpl.
  by exists s, w', d2, d3.
Qed.

Lemma sadd_lookup key member d d' :
  sadd key member d = inr d' →
  ∃ s, d' = <[key := RSet s]> d ∧ member ∈ s ∧ s = {[member]} ∪ members d key.
Proof.
  unfold sadd, members. destruct (d !! key) as [[v|s]|] eqn:Hk; [done| |].
  - intros [= <-]. exists ({[member]} ∪ s). split_and!; [done| |done].
    apply elem_of_union. left. by apply elem_of_singleton.
  - intros [= <-]. exists {[member]}. split_and!; [done| |].
    + by apply elem_of_singleton.
    + by rewrite (right_id_L ∅ (∪)).
Qed.

Lemma sadd_other key member d d' k : sadd key member d = inr d' → k ≠ key → d' !! k = d !! k.
Proof.
  intros (s & -> & _)%sadd_lookup Hk. by rewrite lookup_insert_ne.
Qed.

Lemma reply_texts_differ :
  (∀ t, reply_text (ReplyOk AlreadySubscribed) ≠ reply_text (ReplyOk (Added t)))
  ∧ (∀ p, reply_text (ReplyOk AlreadySubscribed) ≠ reply_text (ReplyErr p)).
Proof. split; [by intros t|by intros []]. Qed.

(** C6.  After a /sub that answered "added", a second /sub of the same chat
    for a feed with the same canonical URL changes nothing in the database,
    and answers "Already subscribed to this feed.", a reply whose text
    differs from the "added" reply and from every error reply.  The chat is
    in the feed's set and the feed in the chat's set, once each since both
    are sets. *)
Theorem subscribe_twice `{Env} upd1 args1 upd2 args2 chat_id data1 data2 href title w w1 :
  accepted upd1 args1 chat_id data1 href →
  subscribe upd1 args1 w = (inr tt, w1) →
  ui w1 = ui w ++ [Typing (u_chat_id upd1); ReplyOk (Added title)] →
  accepted upd2 args2 chat_id data2 href →
  subscribe upd2 args2 w1 =
    (inr tt, World (db w1) (sent w1)
               (ui w1 ++ [Typing (u_chat_id upd2); ReplyOk AlreadySubscribed]) (logged w1))
  ∧ href ∈ feeds_of (db w1) chat_id
  ∧ chat_id ∈ subscribers (db w1) href
  ∧ (∀ t, reply_text (ReplyOk AlreadySubscribed) ≠ reply_text (ReplyOk (Added t)))
  ∧ (∀ p, reply_text (ReplyOk AlreadySubscribed) ≠ reply_text (ReplyErr p)).
Proof.
  intros Hacc1 Hrun Hui Hacc2.
  assert (chat_like chat_id = true) as Hchat.
  { destruct Hacc1 as (? & ? & _ & _ & _ & Hc & _). by eapply subscribe_chat_like. }
  rewrite (subscribe_accepted _ _ _ _ _ _ Hacc1) in Hrun.
  eapply (store_subscription_added _ _ _ _ _ title) in Hrun;
    [|by rewrite Hui; simpl; rewrite <- app_assoc].
  destruct Hrun as (s & w' & d2 & d3 & _ & _ & _ & Hd2 & Hd3 & Hdb & _ & _).
  apply sadd_lookup in Hd2 as (s2 & Hd2 & Hin2 & _).
  pose proof (sadd_other _ _ _ _ (subs_key href) Hd3) as Hkeep.
  apply sadd_lookup in Hd3 as (s3 & Hd3 & Hin3 & _).
  assert (db w1 !! feed_hash chat_id = Some (RSet s3)) as Hfeeds.
  { rewrite Hdb, Hd3. apply lookup_insert_eq. }
  split_and!.
  - rewrite (subscribe_accepted _ _ _ _ _ _ Hacc2).
    unfold store_subscription, r_sismember. rewrite !bind_unfold.
    unfold r_smembers, ask, smembers. simpl. rewrite Hfeeds. simpl.
    rewrite bool_decide_true by done. unfold reply. simpl.
    by rewrite <- app_assoc.
  - unfold feeds_of, members. by rewrite Hfeeds.
  - unfold subscribers, members. rewrite Hdb, Hkeep.
    + rewrite Hd2, lookup_insert_eq. done.
    + intros Heq. symmetry in Heq. by apply chat_key_not_subs in Heq.
  - apply reply_texts_differ.
  - apply reply_texts_differ.
Qed.

Lemma demo_accepted :
  @accepted Demo.calm (Update 7) [Demo.url] "7" (Demo.web Demo.url) Demo.url.
Proof. exists Demo.url, []. split_and!; try reflexivity. by eexists. Qed.

Lemma subscribe_twice_witness :
  @subscribe Demo.calm (Update 7) [Demo.url] Demo.subscribed =
    (inr tt, World (db Demo.subscribed) []
               [Typing 7; ReplyOk (Added "Example"); Typing 7; ReplyOk AlreadySubscribed] [])
  ∧ Demo.url ∈ feeds_of (db Demo.subscribed) "7"
  ∧ "7" ∈ subscribers (db Demo.subscribed) Demo.url.
Proof.
  destruct (@subscribe_twice Demo.calm (Update 7) [Demo.url] (Update 7) [Demo.url] "7"
              (Demo.web Demo.url) (Demo.web Demo.url) Demo.url "Example"
              Demo.fresh Demo.subscribed) as (Hrun & Hfeed & Hchat & _).
  - exact demo_accepted.
  - reflexivity.
  - reflexivity.
  - exact demo_accepted.
  - split_and!; [exact Hrun|exact Hfeed|exact Hchat].
Defined.

(** A feed whose newest entry is the marker has nothing new. *)
Lemma get_new_entries_head e0 older i :
  entry_ident e0 = Some i → get_new_entries (e0 :: older) (Some i) = [].
Proof.
  intros Hi. unfold get_new_entries. simpl.
  unfold entry_matches. by rewrite bool_decide_true.
Qed.

Lemma check_feed_up_to_date `{Env} key feed_url e0 older i w :
  match_subs_key key = Some feed_url →
  db w !! last_entry_key feed_url = Some (RStr i) →
  p_entries (feedparser_parse feed_url) = e0 :: older →
  entry_ident e0 = Some i →
  sent (check_feed key w).2 = sent w.
Proof.
  intros Hkey Hmark Hentries Hi.
  destruct (f_link (p_feed (feedparser_parse feed_url))) as [l|] eqn:Hl;
    [|by eapply check_feed_no_link].
  unfold check_feed. rewrite Hkey, Hl. mrun.
  unfold get. rewrite Hmark. rewrite Hentries, (get_new_entries_head _ _ _ Hi).
  mrun. by case_bool_decide.
Qed.

(** The steps of [store_subscription], one after the other. *)
Lemma store_subscription_run chat_id data href w :
  store_subscription chat_id data href w =
    match smembers (feed_hash chat_id) (db w) with
    | inl e => (inl e, w)
    | inr s =>
        if bool_decide (href ∈ s) then reply (ReplyOk AlreadySubscribed) w
        else
          match seed_marker href (p_entries data) w with
          | (inl e, w1) => (inl e, w1)
          | (inr _, w1) =>
              match sadd (subs_key href) chat_id (db w1) with
              | inl e => (inl e, w1)
              | inr d2 =>
                  match sadd (feed_hash chat_id) href d2 with
                  | inl e => (inl e, with_db w1 d2)
                  | inr d3 =>
                      (inr tt,
                       World d3 (sent w1)
                         (ui w1 ++ [ReplyOk (Added match f_title (p_feed data) with
                                                   | None => href
                                                   | Some t => html_escape t
                                                   end)])
                         (logged w1))
                  end
              end
          end
    end.
Proof.
  unfold store_subscription, r_sismember. rewrite !bind_unfold.
  unfold r_smembers, ask at 1.
  destruct (smembers (feed_hash chat_id) (db w)) as [e|s]; [done|]. simpl.
  case_bool_decide; [done|].
  rewrite !bind_unfold.
  destruct (seed_marker href (p_entries data) w) as [[e|[]] w1]; [done|].
  rewrite bind_unfold. unfold r_sadd, run at 1.
  destruct (sadd (subs_key href) chat_id (db w1)) as [e|d2]; [done|].
  rewrite bind_unfold. unfold run. simpl.
  by destruct (sadd (feed_hash chat_id) href d2) as [e|d3].
Qed.

Lemma seed_marker_sent feed_url entries w :
  sent (seed_marker feed_url entries w).2 = sent w.
Proof.
  rewrite seed_marker_run. destruct entries as [|e0 rest]; [done|].
  case_bool_decide; [done|]. by destruct (entry_ident e0).
Qed.

Lemma smembers_members key d s : smembers key d = inr s → members d key = s.
Proof.
  unfold smembers, members. destruct (d !! key) as [[v|s']|]; [done| |]; by intros [= <-].
Qed.

Lemma smembers_holds key d : holds_set key d → ∃ s, smembers key d = inr s.
Proof.
  unfold smembers. intros Hset. destruct (d !! key) as [[v|s]|] eqn:Hk; eauto.
  by destruct (Hset _ Hk).
Qed.

Lemma sadd_holds key member d : holds_set key d → ∃ d', sadd key member d = inr d'.
Proof.
  unfold sadd. intros Hset. destruct (d !! key) as [[v|s]|] eqn:Hk; eauto.
  by destruct (Hset _ Hk).
Qed.

(** C5, as the code has it.  A /sub that passes the checks, for a feed
    that has no marker and at least one entry, delivers nothing.  If the
    chat does not follow the feed yet and the newest entry has an
    identifier (its id, else its link), that identifier is stored as the
    marker, and the first cycle of the feed, while that entry is still the
    newest at the canonical URL, sends nothing; the request answers "added"
    and the chat and the feed are in each other's sets.  If the newest
    entry has neither id nor link the request ends in KeyError and has
    stored nothing; if the chat follows the feed already it answers
    "already subscribed" and stores nothing, so the feed stays without a
    marker in both cases. *)
Theorem subscribe_cold_start `{Env} upd args chat_id data href e0 older w :
  accepted upd args chat_id data href →
  ¬ has_marker (db w) href →
  p_entries data = e0 :: older →
  sent (subscribe upd args w).2 = sent w
  ∧ (∀ i, entry_ident e0 = Some i →
       href ∉ feeds_of (db w) chat_id →
       holds_set (feed_hash chat_id) (db w) →
       db (subscribe upd args w).2 !! last_entry_key href = Some (RStr i)
       ∧ (∀ later, p_entries (feedparser_parse href) = e0 :: later →
            sent (check_feed (subs_key href) (subscribe upd args w).2).2 = sent w)
       ∧ (holds_set (subs_key href) (db w) →
          (subscribe upd args w).1 = inr tt
          ∧ ui (subscribe upd args w).2 =
              ui w ++ [Typing (u_chat_id upd);
                       ReplyOk (Added match f_title (p_feed data) with
                                      | None => href
                                      | Some t => html_escape t
                                      end)]
          ∧ chat_id ∈ subscribers (db (subscribe upd args w).2) href
          ∧ href ∈ feeds_of (db (subscribe upd args w).2) chat_id))
  ∧ (entry_ident e0 = None →
       href ∉ feeds_of (db w) chat_id →
       holds_set (feed_hash chat_id) (db w) →
       subscribe upd args w =
         (inl (KeyError "link"),
          World (db w) (sent w) (ui w ++ [Typing (u_chat_id upd)]) (logged w)))
  ∧ (href ∈ feeds_of (db w) chat_id →
       subscribe upd args w =
         (inr tt,
          World (db w) (sent w)
            (ui w ++ [Typing (u_chat_id upd); ReplyOk AlreadySubscribed]) (logged w))).
Proof.
  intros Hacc Hnone Hentries.
  assert (chat_like chat_id = true) as Hchat.
  { destruct Hacc as (? & ? & _ & _ & _ & Hc & _). by eapply subscribe_chat_like. }
  assert (feed_hash chat_id ≠ subs_key href) as Hcs by by apply chat_key_not_subs.
  assert (feed_hash chat_id ≠ last_entry_key href) as Hcm by by apply chat_key_not_marker.
  pose proof (subs_key_not_marker href href) as Hsm.
  rewrite (subscribe_accepted _ _ _ _ _ _ Hacc).
  set (w0 := World (db w) (sent w) (ui w ++ [Typing (u_chat_id upd)]) (logged w)).
  rewrite store_subscription_run.
  rewrite seed_marker_run, Hentries.
  rewrite bool_decide_false by done.
  change (db w0) with (db w). unfold feeds_of.
  split_and!.
  - destruct (smembers _ _) as [e|s]; [done|].
    case_bool_decide; [done|].
    destruct (entry_ident e0) as [i|]; [|done]. simpl.
    destruct (sadd (subs_key href) _ _) as [e|d2]; [done|].
    by destruct (sadd (feed_hash chat_id) _ _) as [e|d3].
  - intros i Hi Hnew Hset.
    destruct (smembers_holds _ _ Hset) as [s Hs]. rewrite Hs.
    rewrite (smembers_members _ _ _ Hs) in Hnew.
    rewrite bool_decide_false by done. rewrite Hi. simpl.
    assert (∀ r w1, db w1 !! last_entry_key href = Some (RStr i) → sent w1 = sent w →
              db (r, w1).2 !! last_entry_key href = Some (RStr i)
              ∧ ∀ later, p_entries (feedparser_parse href) = e0 :: later →
                  sent (check_feed (subs_key href) (@pair (exn + unit) world r w1).2).2 = sent w)
      as Hcycle.
    { intros r w1 Hmark Hsent. split; [done|]. intros later Hsame. simpl.
      rewrite <- Hsent.
      destruct (match_subs_key (subs_key href)) as [v|] eqn:Hkey.
      - pose proof (match_subs_key_inv _ _ Hkey) as ->.
        by eapply check_feed_up_to_date.
      - unfold check_feed. by rewrite Hkey. }
    destruct (sadd (subs_key href) chat_id _) as [e|d2] eqn:Hd2.
    { destruct (Hcycle (inl e) (with_db w0 (<[last_entry_key href:=RStr i]> (db w))))
        as [Hm Hc]; [apply lookup_insert_eq|done|].
      split_and!; [done|done|]. intros Hsubs.
      destruct (sadd_holds (subs_key href) chat_id (<[last_entry_key href:=RStr i]> (db w)))
        as [d' Hd'].
      - intros v. rewrite lookup_insert_ne by done. apply Hsubs.
      - simpl in Hd2. rewrite Hd' in Hd2. done. }
    simpl in Hd2.
    pose proof (sadd_other _ _ _ _ (last_entry_key href) Hd2 (λ H, Hsm (eq_sym H))) as Hk2.
    pose proof (sadd_other _ _ _ _ (feed_hash chat_id) Hd2 Hcs) as Hc2.
    apply sadd_lookup in Hd2 as (s2 & Hd2 & Hin2 & _).
    destruct (sadd (feed_hash chat_id) href d2) as [e|d3] eqn:Hd3.
    { destruct (sadd_holds (feed_hash chat_id) href d2) as [d' Hd'].
      - intros v. rewrite Hc2, lookup_insert_ne by done. apply Hset.
      - rewrite Hd' in Hd3. done. }
    pose proof (sadd_other _ _ _ _ (last_entry_key href) Hd3 (λ H, Hcm (eq_sym H))) as Hk3.
    pose proof (sadd_other _ _ _ _ (subs_key href) Hd3 (λ H, Hcs (eq_sym H))) as Hs3.
    apply sadd_lookup in Hd3 as (s3 & Hd3 & Hin3 & _).
    match goal with |- context [(inr tt, ?w1)] =>
      destruct (Hcycle (inr tt) w1) as [Hm Hc] end.
    { simpl. rewrite Hk3, Hk2. apply lookup_insert_eq. }
    { done. }
    split_and!; [done|done|]. intros _. simpl. split_and!; [done| | |].
    + by rewrite <- app_assoc.
    + unfold subscribers, members. rewrite Hs3, Hd2, lookup_insert_eq. done.
    + unfold members. rewrite Hd3, lookup_insert_eq. done.
  - intros Hi Hnew Hset.
    destruct (smembers_holds _ _ Hset) as [s Hs]. rewrite Hs.
    rewrite (smembers_members _ _ _ Hs) in Hnew.
    rewrite bool_decide_false by done. by rewrite Hi.
  - intros Hin.
    destruct (smembers _ _) as [e|s] eqn:Hs.
    + unfold smembers in Hs. unfold members in Hin.
      destruct (db w !! feed_hash chat_id) as [[v|s]|]; try done;
        by apply elem_of_empty in Hin.
    + rewrite (smembers_members _ _ _ Hs) in Hin.
      rewrite bool_decide_true by done. unfold reply. simpl.
      by rewrite <- app_assoc.
Qed.

Lemma subscribe_cold_start_witness :
  db Demo.subscribed !! last_entry_key Demo.url = Some (RStr "e0")
  ∧ sent Demo.subscribed = []
  ∧ sent (@check_feed Demo.calm (subs_key Demo.url) Demo.subscribed).2 = []
  ∧ ui Demo.subscribed = [Typing 7; ReplyOk (Added "Example")]
  ∧ "7" ∈ subscribers (db Demo.subscribed) Demo.url.
Proof.
  destruct (@subscribe_cold_start Demo.calm (Update 7) [Demo.url] "7" (Demo.web Demo.url)
              Demo.url (Demo.item "e0") [Demo.item "e1"; Demo.item "e2"] Demo.fresh)
    as (Hsent & Hseed & _).
  - exact demo_accepted.
  - intros [v Hv]. vm_compute in Hv. discriminate Hv.
  - reflexivity.
  - destruct (Hseed "e0") as (Hmark & Hcycle & Hadded).
    + reflexivity.
    + exact (not_elem_of_empty (C:=gset string) Demo.url).
    + intros v Hv. vm_compute in Hv. discriminate Hv.
    + destruct Hadded as (_ & Hui & Hsub & _).
      { intros v Hv. vm_compute in Hv. discriminate Hv. }
      split_and!; [exact Hmark|exact Hsent| |exact Hui|exact Hsub].
      apply (Hcycle [Demo.item "e1"; Demo.item "e2"]). reflexivity.
Defined.

(** C5, as stated, fails.  The only entry of the feed at [Lab.odd_url] has
    neither id nor link: a /sub for it, with no marker stored, ends in
    KeyError and leaves the feed without a marker.  And a chat that has
    subscribed to a feed while it had no entry is told "already subscribed"
    when it asks again once the feed has entries: no marker is stored then
    either. *)
Lemma subscribe_cold_start_counterexample :
  p_entries (Lab.web Lab.odd_url) = [Lab.anonymous]
  ∧ db Demo.fresh !! last_entry_key Lab.odd_url = None
  ∧ (@subscribe Lab.env (Update 7) [Lab.odd_url] Demo.fresh).1 = inl (KeyError "link")
  ∧ db (@subscribe Lab.env (Update 7) [Lab.odd_url] Demo.fresh).2
      !! last_entry_key Lab.odd_url = None
  ∧ db (Lab.early).2 !! last_entry_key Demo.url = None
  ∧ p_entries (Demo.web Demo.url) = [Demo.item "e0"; Demo.item "e1"; Demo.item "e2"]
  ∧ @subscribe Demo.calm (Update 7) [Demo.url] (Lab.early).2 =
      (inr tt, World (db (Lab.early).2) []
                 [Typing 7; ReplyOk (Added "Example"); Typing 7; ReplyOk AlreadySubscribed] [])
  ∧ db (@subscribe Demo.calm (Update 7) [Demo.url] (Lab.early).2).2
      !! last_entry_key Demo.url = None.
Proof.
  split_and!; by vm_compute.
Qed.

(** ** What a computation sends *)

Lemma quiet_ret {A} (a : A) : quiet (mret a).
Proof. by intros w. Qed.

Lemma quiet_raise {A} e : quiet (@raise A e).
Proof. by intros w. Qed.

Lemma quiet_lift {A} (r : exn + A) : quiet (lift r).
Proof. by intros w. Qed.

Lemma quiet_log e : quiet (log e).
Proof. by intros w. Qed.

Lemma quiet_reply e : quiet (reply e).
Proof. by intros w. Qed.

Lemma quiet_ask {A} (f : gmap string rval → exn + A) : quiet (ask f).
Proof. by intros w. Qed.

Lemma quiet_run f : quiet (run f).
Proof. intros w. unfold run. by destruct (f (db w)). Qed.

Lemma quiet_bind {A B} (m : M A) (k : A → M B) :
  quiet m → (∀ a, quiet (k a)) → quiet (m ≫= k).
Proof.
  intros Hm Hk w. rewrite bind_unfold. specialize (Hm w).
  destruct (m w) as [[e|a] w1]; [done|].
  simpl in Hm. by rewrite Hk.
Qed.

Create HintDb quiet.
#[export] Hint Resolve quiet_ret quiet_raise quiet_lift quiet_log quiet_reply
  quiet_ask quiet_run quiet_bind : quiet.

Ltac solve_quiet :=
  unfold r_get, r_exists, r_set, r_delete, r_smembers, r_sadd, r_srem, r_rename;
  solve [eauto 20 with quiet].

Lemma emits_quiet {A} P (m : M A) : quiet m → emits P m.
Proof. intros Hm w. exists []. by rewrite Hm, app_nil_r. Qed.

Lemma emits_bind {A B} P (m : M A) (k : A → M B) :
  emits P m → (∀ a, emits P (k a)) → emits P (m ≫= k).
Proof.
  intros Hm Hk w. rewrite bind_unfold. destruct (Hm w) as (g1 & Hg1 & HP1).
  destruct (m w) as [[e|a] w1]; [by exists g1|].
  destruct (Hk a w1) as (g2 & Hg2 & HP2). simpl in Hg1.
  exists (g1 ++ g2). split; [|by apply Forall_app].
  by rewrite Hg2, Hg1, app_assoc.
Qed.

Lemma emits_for_each {A} P (xs : list A) (body : A → M unit) :
  (∀ x, emits P (body x)) → emits P (for_each xs body).
Proof.
  intros Hbody. induction xs as [|x xs IH]; simpl.
  - apply emits_quiet, quiet_ret.
  - apply emits_bind; [apply Hbody|by intros []].
Qed.

Lemma emits_send `{Env} (P : delivery → Prop) chat text :
  (∀ o, P (Delivery chat text o)) → emits P (send chat text).
Proof.
  intros HP w. unfold send. simpl. eexists. split; [done|].
  apply Forall_cons_2; [apply HP|apply Forall_nil_2].
Qed.

(** ** One delivery *)

Lemma deliver_run `{Env} key text member w :
  deliver key text member w =
    react key text member (send_message (sent w) member text)
      (World (db w) (sent w ++ [Delivery member text (send_message (sent w) member text)])
         (ui w) (logged w)).
Proof. reflexivity. Qed.

Lemma emits_impl {A} (P Q : delivery → Prop) (m : M A) :
  (∀ d, P d → Q d) → emits P m → emits Q m.
Proof.
  intros HPQ Hm w. destruct (Hm w) as (g & Hg & HP).
  exists g. split; [done|]. by eapply Forall_impl.
Qed.

(** Every attempt [react] makes for [member] carries the text it was given
    and is addressed to [member]: the retry after a migration too. *)
Lemma react_emits `{Env} key text member o :
  emits (λ d, d_text d = text ∧ d_chat d = member) (react key text member o).
Proof.
  destruct o; simpl; try (apply emits_quiet; solve_quiet).
  repeat (apply emits_bind; [apply emits_quiet; solve_quiet|intros []]).
  apply emits_bind; [by apply emits_send|].
  intros []; apply emits_quiet; solve_quiet.
Qed.

Lemma deliver_emits `{Env} key text member :
  emits (λ d, d_text d = text ∧ d_chat d = member) (deliver key text member).
Proof.
  unfold deliver. apply emits_bind; [by apply emits_send|]. apply react_emits.
Qed.

Lemma deliver_emits_text `{Env} key text member :
  emits (λ d, d_text d = text) (deliver key text member).
Proof. eapply emits_impl; [|apply deliver_emits]. by intros d [? _]. Qed.

(** [deliver] makes at least one attempt. *)
Lemma deliver_sends `{Env} key text member w :
  ∃ g, sent (deliver key text member w).2 = sent w ++ g ∧ g ≠ [].
Proof.
  rewrite deliver_run.
  destruct (react_emits key text member (send_message (sent w) member text)
              (World (db w)
                 (sent w ++ [Delivery member text (send_message (sent w) member text)])
                 (ui w) (logged w))) as (g & Hg & _).
  eexists (_ :: g). split; [|done].
  rewrite Hg. simpl. by rewrite <- app_assoc.
Qed.

(** C2: the code against the claim.  Chat 7, the only subscriber of the
    feed, has migrated to chat 8, and the feed has one new entry.  The
    subscriber set and the chat's own key are moved from 7 to 8, but the
    second attempt is addressed to 7 again: it is refused like the first,
    the error ends the cycle, nothing was sent to 8 and the marker stays
    at e1. *)
Theorem migration_retry_goes_to_old_id :
  (@check_feed Demo.moved (subs_key Demo.url) Demo.one_behind).1
    = inl (TelegramError (ChatMigrated 8))
  ∧ map (λ d, (d_chat d, d_outcome d))
        (sent (@check_feed Demo.moved (subs_key Demo.url) Demo.one_behind).2)
    = [("7", ChatMigrated 8); ("7", ChatMigrated 8)]
  ∧ subscribers (db (@check_feed Demo.moved (subs_key Demo.url) Demo.one_behind).2) Demo.url
    = {["8"]}
  ∧ db (@check_feed Demo.moved (subs_key Demo.url) Demo.one_behind).2 !! feed_hash "8"
    = Some (RSet {[Demo.url]})
  ∧ db (@check_feed Demo.moved (subs_key Demo.url) Demo.one_behind).2 !! feed_hash "7" = None
  ∧ db (@check_feed Demo.moved (subs_key Demo.url) Demo.one_behind).2 !! last_entry_key Demo.url
    = Some (RStr "e1").
Proof. split_and!; by vm_compute. Qed.

(** ** The entries of one cycle *)

Lemma entries_before_app marker pre e post :
  Forall (λ x, entry_matches marker x = false) pre →
  entry_matches marker e = true →
  entries_before marker (pre ++ e :: post) = Some pre.
Proof.
  intros Hpre He. induction Hpre as [|x pre Hx _ IH]; simpl.
  - by rewrite He.
  - by rewrite Hx, IH.
Qed.

Lemma set_order_empty `{Env} : set_order ∅ = [].
Proof.
  apply Permutation_nil_r. rewrite set_order_perm. by rewrite elements_empty.
Qed.

Lemma set_order_nonempty `{Env} s : s ≠ ∅ → set_order s ≠ [].
Proof.
  intros Hs Hnil. apply Hs. apply leibniz_equiv, elements_empty_inv.
  apply Permutation_nil_r. by rewrite <- (set_order_perm s), Hnil.
Qed.

Lemma for_each_deliver_nonempty `{Env} key text ms w :
  ms ≠ [] → ∃ g, sent (for_each ms (deliver key text) w).2 = sent w ++ g ∧ g ≠ [].
Proof.
  destruct ms as [|m ms]; [done|]. intros _. simpl. rewrite bind_unfold.
  destruct (deliver_sends key text m w) as (g1 & Hg1 & Hne).
  destruct (deliver key text m w) as [[e|[]] w2]; [by exists g1|].
  destruct (emits_for_each _ ms (deliver key text) (deliver_emits_text key text) w2)
    as (g2 & Hg2 & _).
  exists (g1 ++ g2). split; [|by destruct g1].
  simpl in Hg1. by rewrite Hg2, Hg1, app_assoc.
Qed.

(** A run over the subscribers that ends without an error has attempted
    each of them, and nobody else. *)
Lemma for_each_deliver_recipients `{Env} key text ms w w1 :
  for_each ms (deliver key text) w = (inr tt, w1) →
  ∃ g, sent w1 = sent w ++ g ∧ ∀ m, m ∈ ms ↔ ∃ d, d ∈ g ∧ d_chat d = m.
Proof.
  revert w. induction ms as [|a ms IH]; intros w; simpl.
  - intros [= <-]. exists []. split; [by rewrite app_nil_r|].
    intros m. split; [by intros ?%elem_of_nil|by intros (d & ?%elem_of_nil & _)].
  - intros [(u & w2 & Ha & Hrest)|(x & _ & [=])]%bind_inv. destruct u.
    destruct (IH _ Hrest) as (g2 & Hg2 & Hms).
    destruct (deliver_emits key text a w) as (g1 & Hg1 & Hall).
    destruct (deliver_sends key text a w) as (g1' & Hg1' & Hne).
    rewrite Hg1 in Hg1'. apply app_inv_head in Hg1'. subst g1'.
    rewrite Ha in Hg1. simpl in Hg1. rewrite Forall_forall in Hall.
    exists (g1 ++ g2). split; [by rewrite Hg2, Hg1, app_assoc|].
    intros m. rewrite elem_of_cons, Hms. split.
    + intros [->|(d & Hd & Hm)].
      * destruct g1 as [|d g1]; [done|]. exists d. split; [set_solver|].
        apply Hall. by left.
      * exists d. split; [|done]. apply elem_of_app. by right.
    + intros (d & [Hd|Hd]%elem_of_app & Hm).
      * left. rewrite <- Hm. by apply Hall.
      * right. by exists d.
Qed.

(** The deliveries of one entry, when its turn ends without an error. *)
Lemma deliver_entry_group `{Env} key data title e w w1 :
  deliver_entry key data title e w = (inr tt, w1) →
  ∃ g, sent w1 = sent w ++ g ∧ group_of data title e g
       ∧ recipients_are (members (db w) key) g
       ∧ (members (db w) key ≠ ∅ → g ≠ [])
       ∧ (members (db w) key = ∅ → w1 = w).
Proof.
  unfold deliver_entry. rewrite bind_unfold. unfold lift.
  destruct (render data title e) as [x|text] eqn:Hr; [done|].
  rewrite bind_unfold. unfold r_smembers, ask.
  destruct (smembers key (db w)) as [x|s] eqn:Hs; [done|].
  apply smembers_members in Hs. rewrite Hs. intros Hrun.
  destruct (emits_for_each _ (set_order s) (deliver key text)
              (deliver_emits_text key text) w) as (g & Hg & Hall).
  rewrite Hrun in Hg. simpl in Hg.
  exists g. split_and!; [done| | | |].
  - by exists text.
  - destruct (for_each_deliver_recipients _ _ _ _ _ Hrun) as (g' & Hg' & Hrec).
    rewrite Hg in Hg'. apply app_inv_head in Hg'. subst g'.
    intros m. rewrite <- Hrec, <- (elem_of_elements s).
    by rewrite <- (set_order_perm s).
  - intros Hne. destruct (for_each_deliver_nonempty key text (set_order s) w)
      as (g' & Hg' & Hne'); [by apply set_order_nonempty|].
    rewrite Hrun in Hg'. simpl in Hg'. rewrite Hg in Hg'.
    apply app_inv_head in Hg'. by subst.
  - intros ->. rewrite set_order_empty in Hrun. by injection Hrun.
Qed.

Lemma deliver_entries_idle `{Env} key data title es w w1 :
  members (db w) key = ∅ →
  for_each es (deliver_entry key data title) w = (inr tt, w1) → w1 = w.
Proof.
  intros Hempty. induction es as [|e es IH]; simpl.
  - by intros [= <-].
  - intros [(a & w2 & He & Hrest)|(x & _ & [=])]%bind_inv. destruct a.
    apply deliver_entry_group in He as (_ & _ & _ & _ & _ & Hidle).
    rewrite (Hidle Hempty) in Hrest. by apply IH.
Qed.

(** The deliveries of a run over the new entries: one group per entry, in
    the order of the run, addressed to the subscribers the feed has when
    the turn of the entry starts; no group is empty if the feed has a
    subscriber at the end. *)
Lemma deliver_entries_groups `{Env} key data title es w w1 :
  for_each es (deliver_entry key data title) w = (inr tt, w1) →
  ∃ groups, sent w1 = sent w ++ concat groups
            ∧ Forall2 (group_of data title) es groups
            ∧ (∀ i g, groups !! i = Some g →
                 recipients_are (members (db (world_before key data title es i w)) key) g)
            ∧ (members (db w1) key ≠ ∅ → Forall (λ g, g ≠ []) groups).
Proof.
  revert w. induction es as [|e es IH]; intros w; simpl.
  - intros [= <-]. exists [].
    split_and!; [by rewrite app_nil_r|constructor|by intros i g|constructor].
  - intros [(a & w2 & He & Hrest)|(x & _ & [=])]%bind_inv. destruct a.
    destruct (IH _ Hrest) as (groups & Hsent & Hgroups & Hrec & Hfull).
    destruct (deliver_entry_group _ _ _ _ _ _ He)
      as (g & Hg & Hgroup & Hto & Hne & Hidle).
    exists (g :: groups). split_and!.
    + simpl. by rewrite Hsent, Hg, app_assoc.
    + by constructor.
    + intros [|i] g0 Hi; simpl in Hi.
      * by injection Hi as <-.
      * unfold world_before. simpl. rewrite bind_unfold, He. by apply Hrec.
    + intros Hend. constructor; [|by apply Hfull].
      apply Hne. intros Hempty.
      rewrite (Hidle Hempty) in Hrest.
      apply deliver_entries_idle in Hrest; [|done].
      by rewrite Hrest in Hend.
Qed.

Lemma advance_marker_run last_entry_hash e0 rest w :
  advance_marker last_entry_hash (e0 :: rest) w =
    match entry_ident e0 with
    | Some i => (inr tt, with_db w (<[last_entry_hash := RStr i]> (db w)))
    | None => (inl (AttributeError "link"), w)
    end.
Proof.
  unfold advance_marker, entry_ident. rewrite bind_unfold.
  by destruct (e_id e0), (e_link e0).
Qed.

(** C1, as the code has it.  The marker is the identifier of an entry [e]
    of the feed, the first such entry, and [pre], not empty, are the
    entries before it.  A cycle that ends without an error takes exactly
    [pre] as the new entries and attempts them oldest first: what it sends
    is one group of deliveries per entry of [rev pre], in that order, each
    with the text of its entry and addressed to the chats that are
    subscribers when the turn of the entry starts; no group is empty if the
    feed has a subscriber at the end.  Afterwards, if the subscriber key
    still exists the marker is the identifier (id, else link) of the newest
    entry, the head of [pre]; if it does not, the marker is deleted. *)
Theorem check_feed_new_entries `{Env} key feed_url feed_link marker pre e post w w' :
  match_subs_key key = Some feed_url →
  f_link (p_feed (feedparser_parse feed_url)) = Some feed_link →
  p_entries (feedparser_parse feed_url) = pre ++ e :: post →
  Forall (λ x, entry_matches marker x = false) pre →
  entry_matches marker e = true →
  pre ≠ [] →
  db w !! last_entry_key feed_url = Some (RStr marker) →
  check_feed key w = (inr tt, w') →
  let data := feedparser_parse feed_url in
  let title := default feed_link (f_title (p_feed data)) in
  let w0 := World (db w) (sent w) (ui w) (logged w ++ [LogInfo feed_url]) in
  get_new_entries (p_entries data) (Some marker) = pre
  ∧ (∃ groups, sent w' = sent w ++ concat groups
       ∧ Forall2 (group_of data title) (rev pre) groups
       ∧ (∀ i g, groups !! i = Some g →
            recipients_are
              (members (db (world_before key data title (rev pre) i w0)) key) g)
       ∧ (members (db w') key ≠ ∅ → Forall (λ g, g ≠ []) groups))
  ∧ (is_Some (db w' !! key) →
       ∃ i, (head pre ≫= entry_ident) = Some i
            ∧ db w' !! last_entry_key feed_url = Some (RStr i))
  ∧ (db w' !! key = None → db w' !! last_entry_key feed_url = None).
Proof.
  intros Hkey Hlink Hentries Hpre He Hne Hmark Hrun data title w0.
  assert (get_new_entries (p_entries data) (Some marker) = pre) as Hnew.
  { unfold get_new_entries, data. by rewrite Hentries, entries_before_app. }
  split; [done|].
  unfold check_feed in Hrun. rewrite Hkey, Hlink in Hrun.
  rewrite bind_unfold in Hrun. simpl in Hrun.
  rewrite bind_unfold in Hrun. unfold r_get, ask, get in Hrun. simpl in Hrun.
  rewrite Hmark in Hrun. fold data in Hrun. rewrite Hnew in Hrun.
  rewrite bind_unfold in Hrun. fold title in Hrun.
  destruct (for_each (rev pre) (deliver_entry key data title) _)
    as [[x|[]] w1] eqn:Hloop; [done|].
  apply deliver_entries_groups in Hloop as (groups & Hsent & Hgroups & Hto & Hfull).
  simpl in Hsent.
  pose proof (match_subs_key_not_marker _ _ feed_url Hkey) as Hdiff.
  rewrite bind_unfold in Hrun. unfold r_exists, ask in Hrun. simpl in Hrun.
  case_bool_decide as Hstill; simpl in Hrun.
  - destruct pre as [|e0 pre']; [done|].
    rewrite advance_marker_run in Hrun.
    destruct (entry_ident e0) as [i|] eqn:Hi; [|done].
    injection Hrun as <-. simpl. split_and!.
    + exists groups. split_and!; [done|done|done|].
      unfold members. rewrite lookup_insert_ne by done. apply Hfull.
    + intros _. exists i. by rewrite lookup_insert_eq.
    + rewrite lookup_insert_ne by done. intros Hnone.
      rewrite Hnone in Hstill. by destruct Hstill.
  - unfold r_delete, run in Hrun. injection Hrun as <-. simpl. split_and!.
    + exists groups. split_and!; [done|done|done|].
      unfold members. rewrite lookup_delete_ne by done. apply Hfull.
    + rewrite lookup_delete_ne by done. done.
    + intros _. apply lookup_delete_eq.
Qed.

Lemma check_feed_new_entries_witness :
  db (@check_feed Demo.calm (subs_key Demo.url) Demo.one_reader).2 !! last_entry_key Demo.url
    = Some (RStr "e0")
  ∧ ∃ groups,
      sent (@check_feed Demo.calm (subs_key Demo.url) Demo.one_reader).2 = concat groups
      ∧ Forall2 (@group_of Demo.calm (Demo.web Demo.url) "Example")
          [Demo.item "e1"; Demo.item "e0"] groups
      ∧ (∀ g, groups !! 0%nat = Some g → recipients_are {["7"]} g)
      ∧ Forall (λ g, g ≠ []) groups.
Proof.
  destruct (@check_feed_new_entries Demo.calm (subs_key Demo.url) Demo.url
              "http://example.com" "e2" [Demo.item "e0"; Demo.item "e1"] (Demo.item "e2") []
              Demo.one_reader (@check_feed Demo.calm (subs_key Demo.url) Demo.one_reader).2)
    as (_ & (groups & Hsent & Hgroups & Hto & Hfull) & Hmark & _).
  - reflexivity.
  - reflexivity.
  - reflexivity.
  - repeat (apply Forall_cons_2; [reflexivity|]). apply Forall_nil_2.
  - reflexivity.
  - discriminate.
  - reflexivity.
  - reflexivity.
  - split.
    + destruct Hmark as (i & Hi & Hmark).
      * vm_compute. eexists. reflexivity.
      * simpl in Hi. injection Hi as <-. exact Hmark.
    + exists groups. split_and!; [exact Hsent|exact Hgroups| |].
      * intros g Hg. exact (Hto 0%nat g Hg).
      * apply Hfull. vm_compute. discriminate.
Defined.

(** C1, as stated, fails.  Chat 7 is the only subscriber, the marker is the
    id of e2 and e0, e1 come before it; the transport answers that the bot
    was blocked.  The cycle ends without an error, e1 is attempted once, e0
    is never attempted, and the marker is deleted instead of becoming the
    id of e0. *)
Lemma check_feed_new_entries_counterexample :
  (@check_feed Demo.blocked (subs_key Demo.url) Demo.one_reader).1 = inr tt
  ∧ get_new_entries (p_entries (Demo.web Demo.url)) (Some "e2")
    = [Demo.item "e0"; Demo.item "e1"]
  ∧ db Demo.one_reader !! last_entry_key Demo.url = Some (RStr "e2")
  ∧ map (λ d, Some (d_text d))
      (sent (@check_feed Demo.blocked (subs_key Demo.url) Demo.one_reader).2)
    = [match @render Demo.blocked (Demo.web Demo.url) "Example" (Demo.item "e1") with
       | inr text => Some text
       | inl _ => None
       end]
  ∧ db (@check_feed Demo.blocked (subs_key Demo.url) Demo.one_reader).2
      !! last_entry_key Demo.url = None
  ∧ db (@check_feed Demo.blocked (subs_key Demo.url) Demo.one_reader).2
      !! last_entry_key Demo.url ≠ Some (RStr "e0").
Proof. split_and!; by vm_compute. Qed.

(** ** A chat the transport reports as unauthorized *)

Lemma members_insert_ne key k v d : k ≠ key → members (<[k := v]> d) key = members d key.
Proof. intros Hk. unfold members. by rewrite lookup_insert_ne. Qed.

Lemma members_delete_ne key k d : k ≠ key → members (delete k d) key = members d key.
Proof. intros Hk. unfold members. by rewrite lookup_delete_ne. Qed.

Lemma members_delete_sub key k d x : x ∈ members (delete k d) key → x ∈ members d key.
Proof.
  destruct (decide (k = key)) as [->|Hk].
  - unfold members at 1. rewrite lookup_delete_eq. set_solver.
  - by rewrite members_delete_ne.
Qed.

Lemma srem_members key m d d' :
  srem key m d = inr d' →
  members d' key = members d key ∖ {[m]} ∧ ∀ k, k ≠ key → d' !! k = d !! k.
Proof.
  unfold srem, members. destruct (d !! key) as [[v|s]|] eqn:Hk; [done| |].
  - case_bool_decide as Hempty; intros [= <-].
    + rewrite lookup_delete_eq. split; [done|]. intros k Hne. by rewrite lookup_delete_ne.
    + rewrite lookup_insert_eq. split; [done|]. intros k Hne. by rewrite lookup_insert_ne.
  - intros [= <-]. rewrite Hk. split; [set_solver|done].
Qed.

Lemma sadd_members key x d d' :
  sadd key x d = inr d' →
  members d' key = {[x]} ∪ members d key ∧ ∀ k, k ≠ key → d' !! k = d !! k.
Proof.
  intros Hadd. destruct (sadd_lookup _ _ _ _ Hadd) as (s & -> & _ & ->).
  unfold members at 1. rewrite lookup_insert_eq. split; [done|].
  intros k Hne. by rewrite lookup_insert_ne.
Qed.

Lemma rename_lookup a b d d' :
  rename a b d = inr d' → ∃ v, d !! a = Some v ∧ d' = <[b := v]> (delete a d).
Proof.
  unfold rename. destruct (d !! a) as [v|]; [|done]. intros [= <-]. by exists v.
Qed.

Section purge.
Context `{Env} (c key : string).
Hypothesis key_not_chat : ∀ n, key ≠ feed_hash (str n).
Hypothesis chat_not_key : feed_hash c ≠ key.
Hypothesis never_to_c :
  ∀ seen chat text n, send_message seen chat text = ChatMigrated n → str n ≠ c.

Lemma gone_delete k d : gone c key d → gone c key (delete k d).
Proof.
  intros [Hc Hm]. split.
  - destruct (decide (k = feed_hash c)) as [->|Hk].
    + apply lookup_delete_eq.
    + by rewrite lookup_delete_ne.
  - intros Hin. by apply members_delete_sub in Hin.
Qed.

Lemma gone_srem m d d' : gone c key d → srem key m d = inr d' → gone c key d'.
Proof.
  intros [Hc Hm] [Hmem Hother]%srem_members. split.
  - by rewrite Hother.
  - rewrite Hmem. set_solver.
Qed.

Lemma gone_sadd x d d' : x ≠ c → gone c key d → sadd key x d = inr d' → gone c key d'.
Proof.
  intros Hx [Hc Hm] [Hmem Hother]%sadd_members. split.
  - by rewrite Hother.
  - rewrite Hmem. set_solver.
Qed.

Lemma gone_rename a n d d' :
  str n ≠ c → gone c key d → rename a (feed_hash (str n)) d = inr d' → gone c key d'.
Proof.
  intros Hn Hgone (v & _ & ->)%rename_lookup.
  apply (gone_delete a) in Hgone as [Hc Hm]. split.
  - rewrite lookup_insert_ne; [done|]. by intros ?%feed_hash_inj.
  - rewrite members_insert_ne; [done|]. intros Heq. by apply (key_not_chat n).
Qed.

Lemma gone_set k v d : k ≠ feed_hash c → gone c key d → gone c key (<[k := RStr v]> d).
Proof.
  intros Hk [Hc Hm]. split.
  - by rewrite lookup_insert_ne.
  - destruct (decide (k = key)) as [->|Hne].
    + unfold members. rewrite lookup_insert_eq. set_solver.
    + by rewrite members_insert_ne.
Qed.

Lemma holds_set_delete k d : holds_set key d → holds_set key (delete k d).
Proof.
  intros Hd v Hv. apply Hd. apply lookup_delete_Some in Hv. by destruct Hv.
Qed.

Lemma holds_set_srem m d d' : holds_set key d → srem key m d = inr d' → holds_set key d'.
Proof.
  unfold srem. intros Hd. destruct (d !! key) as [[v|s]|] eqn:Hk; [done| |].
  - case_bool_decide; intros [= <-].
    + by apply holds_set_delete.
    + intros v. rewrite lookup_insert_eq. intros [= <-]. by eexists.
  - by intros [= <-].
Qed.

Lemma holds_set_sadd x d d' : sadd key x d = inr d' → holds_set key d'.
Proof.
  intros (s & -> & _)%sadd_lookup v. rewrite lookup_insert_eq. intros [= <-]. by eexists.
Qed.

Lemma holds_set_rename a n d d' :
  holds_set key d → rename a (feed_hash (str n)) d = inr d' → holds_set key d'.
Proof.
  intros Hd (v & _ & ->)%rename_lookup u.
  rewrite lookup_insert_ne by (intros Heq; by apply (key_not_chat n)).
  by apply holds_set_delete.
Qed.

Lemma holds_set_smembers d s : smembers key d = inr s → holds_set key d.
Proof.
  unfold smembers. intros Hs v Hv. rewrite Hv in Hs. destruct v; [done|by eexists].
Qed.

(** *** Composition *)

Lemma purging_bind (P : gmap string rval → Prop) {A B} (m : M A) (k : A → M B) :
  purging c key P m → (∀ a, purging c key P (k a)) → purging c key P (m ≫= k).
Proof.
  intros Hm Hk w HP. rewrite bind_unfold.
  destruct (Hm w HP) as (g1 & Hg1 & HP1 & Hgone1).
  destruct (m w) as [[e|a] w1]; [by exists g1|]. simpl in *.
  destruct (Hk a w1 HP1) as (g2 & Hg2 & HP2 & Hgone2).
  exists (g1 ++ g2). split_and!; [by rewrite Hg2, Hg1, app_assoc|done|].
  intros [(text & [Hin|Hin]%elem_of_app)|Hbefore].
  - apply Hgone2. right. apply Hgone1. left. by exists text.
  - apply Hgone2. left. by exists text.
  - apply Hgone2. right. apply Hgone1. by right.
Qed.

Lemma purging_for_each (P : gmap string rval → Prop) {A} (xs : list A) (body : A → M unit) :
  (∀ x, purging c key P (body x)) → purging c key P (for_each xs body).
Proof.
  intros Hbody. induction xs as [|x xs IH]; simpl.
  - intros w HP. exists []. split_and!; [by rewrite app_nil_r|done|].
    intros [(text & Hin)|Hgone]; [by apply elem_of_nil in Hin|done].
  - apply purging_bind; [apply Hbody|by intros []].
Qed.

(** A computation that sends nothing and whose effect on the database
    keeps [P] and keeps [c] gone. *)
Lemma purging_quiet (P : gmap string rval → Prop) {A} (m : M A) :
  quiet m →
  (∀ w, P (db w) → P (db (m w).2)) →
  (∀ w, P (db w) → gone c key (db w) → gone c key (db (m w).2)) →
  purging c key P m.
Proof.
  intros Hq HP Hgone w Hw. exists []. split_and!; [by rewrite Hq, app_nil_r|by apply HP|].
  intros [(text & Hin)|Hbefore]; [by apply elem_of_nil in Hin|by apply Hgone].
Qed.

Lemma purging_run (P : gmap string rval → Prop) f :
  (∀ d d', P d → f d = inr d' → P d') →
  (∀ d d', P d → gone c key d → f d = inr d' → gone c key d') →
  purging c key P (run f).
Proof.
  intros HP Hgone. apply purging_quiet; [apply quiet_run| |];
    intros w Hw; unfold run; destruct (f (db w)) as [e|d'] eqn:Hf; simpl; eauto.
Qed.

Lemma purging_same (P : gmap string rval → Prop) {A} (m : M A) :
  quiet m → (∀ w, db (m w).2 = db w) → purging c key P m.
Proof.
  intros Hq Hdb. apply purging_quiet; [done| |]; intros w; by rewrite Hdb.
Qed.


(** *** The handlers of [deliver] *)

Lemma carrying_bind (P : gmap string rval → Prop) {A B} (m : M A) (k : A → M B) :
  carrying c key P m → (∀ a, carrying c key P (k a)) → carrying c key P (m ≫= k).
Proof.
  intros Hm Hk w HP. rewrite bind_unfold. destruct (Hm w HP) as [HP1 Hg1].
  destruct (m w) as [[e|a] w1]; [done|]. simpl in *.
  destruct (Hk a w1 HP1) as [HP2 Hg2]. auto.
Qed.

Lemma carrying_same (P : gmap string rval → Prop) {A} (m : M A) :
  (∀ w, db (m w).2 = db w) → carrying c key P m.
Proof. intros Hdb w HP. by rewrite Hdb. Qed.

Lemma carrying_run (P : gmap string rval → Prop) f :
  (∀ d d', P d → f d = inr d' → P d') →
  (∀ d d', P d → gone c key d → f d = inr d' → gone c key d') →
  carrying c key P (run f).
Proof.
  intros HP Hgone w Hw. unfold run.
  destruct (f (db w)) as [e|d'] eqn:Hf; simpl; eauto.
Qed.

Lemma carrying_srem m : carrying c key (holds_set key) (r_srem key m).
Proof.
  apply carrying_run; intros d d' Hd.
  - by apply holds_set_srem.
  - intros Hg. by apply gone_srem.
Qed.

Lemma carrying_delete k : carrying c key (holds_set key) (r_delete k).
Proof.
  apply carrying_run; intros d d' Hd.
  - intros [= <-]. by apply holds_set_delete.
  - intros Hg [= <-]. by apply gone_delete.
Qed.

Lemma carrying_sadd n : str n ≠ c → carrying c key (holds_set key) (r_sadd key (str n)).
Proof.
  intros Hn. apply carrying_run; intros d d' Hd.
  - by apply holds_set_sadd.
  - intros Hg. by apply gone_sadd.
Qed.

Lemma carrying_rename a n :
  str n ≠ c → carrying c key (holds_set key) (r_rename a (feed_hash (str n))).
Proof.
  intros Hn. apply carrying_run; intros d d' Hd.
  - by apply holds_set_rename.
  - intros Hg. by apply gone_rename.
Qed.

Lemma react_carrying text m o :
  (∀ n, o = ChatMigrated n → str n ≠ c) →
  carrying c key (holds_set key) (react key text m o).
Proof.
  intros Hn. destruct o as [| |n| |why|why]; simpl; try (by apply carrying_same).
  - apply carrying_bind; [by apply carrying_same|intros []].
    apply carrying_bind; [apply carrying_srem|intros []].
    apply carrying_delete.
  - specialize (Hn n eq_refl).
    apply carrying_bind; [by apply carrying_same|intros []].
    apply carrying_bind; [apply carrying_srem|intros []].
    apply carrying_bind; [by apply carrying_sadd|intros []].
    apply carrying_bind; [by apply carrying_rename|intros []].
    apply carrying_bind; [by apply carrying_same|].
    intros []; by apply carrying_same.
Qed.

Lemma deliver_carrying text m : carrying c key (holds_set key) (deliver key text m).
Proof.
  intros w Hset. rewrite deliver_run.
  exact (react_carrying text m _ (λ n Hn, never_to_c _ _ _ _ Hn)
           (World (db w) (sent w ++ [Delivery m text (send_message (sent w) m text)])
              (ui w) (logged w)) Hset).
Qed.

Lemma srem_total m d : holds_set key d → ∃ d', srem key m d = inr d'.
Proof.
  intros Hd. unfold srem. destruct (d !! key) as [[v|s]|] eqn:Hk.
  - by destruct (Hd _ Hk).
  - case_bool_decide; by eexists.
  - by eexists.
Qed.

Lemma srem_gone d d1 : srem key c d = inr d1 → gone c key (delete (feed_hash c) d1).
Proof.
  intros [Hmem _]%srem_members. split; [apply lookup_delete_eq|].
  rewrite members_delete_ne by done. rewrite Hmem. set_solver.
Qed.

Lemma migrate_gone n d d1 d2 d3 :
  str n ≠ c →
  srem key c d = inr d1 →
  sadd key (str n) d1 = inr d2 →
  rename (feed_hash c) (feed_hash (str n)) d2 = inr d3 →
  gone c key d3.
Proof.
  intros Hn [Hm1 _]%srem_members [Hm2 _]%sadd_members (v & _ & ->)%rename_lookup.
  split.
  - rewrite lookup_insert_ne by (by intros ?%feed_hash_inj). apply lookup_delete_eq.
  - rewrite members_insert_ne by (intros Heq; by apply (key_not_chat n)).
    rewrite members_delete_ne by done. rewrite Hm2, Hm1. set_solver.
Qed.

(** When [deliver] is told that [c] is unauthorized, at the first attempt
    or at the retry, [c] is gone afterwards. *)
Lemma deliver_unauthorized text m w g text' :
  holds_set key (db w) →
  sent (deliver key text m w).2 = sent w ++ g →
  Delivery c text' Unauthorized ∈ g →
  gone c key (db (deliver key text m w).2).
Proof.
  intros Hset Hg Hin.
  destruct (deliver_emits key text m w) as (g' & Hg' & Hall).
  rewrite Hg in Hg'. apply app_inv_head in Hg'. subst g'.
  rewrite Forall_forall in Hall. destruct (Hall _ Hin) as [_ Hchat]. simpl in Hchat.
  subst m. revert Hg. rewrite deliver_run.
  destruct (send_message (sent w) c text) as [| |n| |why|why] eqn:Ho; simpl; mrun.
  - intros <-%app_inv_head. by apply list_elem_of_singleton in Hin.
  - intros _. destruct (srem_total c _ Hset) as [d1 Hd1]. rewrite Hd1. simpl.
    by eapply srem_gone.
  - pose proof (never_to_c _ _ _ _ Ho) as Hn.
    destruct (srem key c (db w)) as [e|d1] eqn:H1; simpl.
    { intros <-%app_inv_head. by apply list_elem_of_singleton in Hin. }
    mrun. destruct (sadd key (str n) d1) as [e|d2] eqn:H2; simpl.
    { intros <-%app_inv_head. by apply list_elem_of_singleton in Hin. }
    mrun. destruct (rename (feed_hash c) (feed_hash (str n)) d2) as [e|d3] eqn:H3; simpl.
    { intros <-%app_inv_head. by apply list_elem_of_singleton in Hin. }
    mrun. unfold send. mrun. intros _.
    assert (gone c key d3) as Hgone by (by eapply migrate_gone).
    by repeat case_match.
  - intros <-%app_inv_head. by apply list_elem_of_singleton in Hin.
  - intros <-%app_inv_head. by apply list_elem_of_singleton in Hin.
  - intros <-%app_inv_head. by apply list_elem_of_singleton in Hin.
Qed.

Lemma deliver_purging text m : purging c key (holds_set key) (deliver key text m).
Proof.
  intros w Hset.
  destruct (deliver_emits key text m w) as (g & Hg & _).
  destruct (deliver_carrying text m w Hset) as [Hset' Hkeep].
  exists g. split_and!; [done|done|].
  intros [(text' & Hin)|Hbefore]; [|by apply Hkeep].
  by eapply deliver_unauthorized.
Qed.

(** *** The cycle *)

Lemma deliver_entry_purging data title e :
  purging c key (λ _, True) (deliver_entry key data title e).
Proof.
  assert (∀ w : world, ∃ g, sent w = sent w ++ g ∧ True ∧
            ((∃ text, Delivery c text Unauthorized ∈ g) ∨ gone c key (db w) →
             gone c key (db w))) as Hstop.
  { intros w. exists []. split_and!; [by rewrite app_nil_r|done|].
    intros [(text & Hin)|Hgone]; [by apply elem_of_nil in Hin|done]. }
  intros w _. unfold deliver_entry. rewrite bind_unfold. unfold lift.
  destruct (render data title e) as [x|text]; [apply Hstop|].
  rewrite bind_unfold. unfold r_smembers, ask.
  destruct (smembers key (db w)) as [x|s] eqn:Hs; [apply Hstop|].
  apply holds_set_smembers in Hs.
  destruct (purging_for_each (holds_set key) (set_order s) (deliver key text)
              (deliver_purging text) w Hs) as (g & Hg & _ & Hgone).
  by exists g.
Qed.

Lemma advance_marker_purging u new_entries :
  last_entry_key u ≠ feed_hash c →
  purging c key (λ _, True) (advance_marker (last_entry_key u) new_entries).
Proof.
  intros Hu. destruct new_entries as [|e0 rest]; simpl.
  { by apply purging_same. }
  apply purging_bind.
  - destruct (e_id e0), (e_link e0); by apply purging_same.
  - intros i. apply purging_run; [done|].
    intros d d' _ Hgone [= <-]. by apply gone_set.
Qed.

Lemma check_feed_purging :
  (∀ u, last_entry_key u ≠ feed_hash c) →
  purging c key (λ _, True) (check_feed key).
Proof.
  intros Hu. unfold check_feed.
  destruct (match_subs_key key) as [u|]; [|by apply purging_same].
  apply purging_bind; [by apply purging_same|intros []].
  destruct (f_link _) as [l|].
  - apply purging_bind; [by apply purging_same|intros last].
    apply purging_bind; [apply purging_for_each, deliver_entry_purging|intros []].
    apply purging_bind; [by apply purging_same|intros still].
    destruct (negb still).
    + apply purging_run; [done|]. intros d d' _ Hgone [= <-]. by apply gone_delete.
    + by apply advance_marker_purging.
  - destruct (p_status _) as [st|], (p_bozo_exception _) as [b|];
      try case_bool_decide; by apply purging_same.
Qed.

End purge.

(** ** The marker invariant *)

Lemma keeps_bind (K : gmap string rval → Prop) {A B} (m : M A) (k : A → M B) :
  keeps K m → (∀ a, keeps K (k a)) → keeps K (m ≫= k).
Proof.
  intros Hm Hk w HK. rewrite bind_unfold. specialize (Hm w HK).
  destruct (m w) as [[e|a] w1]; [done|]. by apply Hk.
Qed.

Lemma keeps_same (K : gmap string rval → Prop) {A} (m : M A) :
  (∀ w, db (m w).2 = db w) → keeps K m.
Proof. intros Hdb w HK. by rewrite Hdb. Qed.

Lemma keeps_run (K : gmap string rval → Prop) f :
  (∀ d d', K d → f d = inr d' → K d') → keeps K (run f).
Proof.
  intros Hf w HK. unfold run. destruct (f (db w)) as [e|d'] eqn:Hd; simpl; eauto.
Qed.

Lemma keeps_for_each (K : gmap string rval → Prop) {A} (xs : list A) (body : A → M unit) :
  (∀ x, x ∈ xs → keeps K (body x)) → keeps K (for_each xs body).
Proof.
  induction xs as [|x xs IH]; intros Hbody; simpl.
  - by apply keeps_same.
  - apply keeps_bind.
    + apply Hbody. by left.
    + intros []. apply IH. intros y Hy. apply Hbody. by right.
Qed.

(** *** One key changes *)

Lemma base_ok_insert k v d :
  base_ok d →
  (∀ s, v = RSet s → s ≠ ∅) →
  (∀ u, k = subs_key u → ∃ s, v = RSet s ∧ ∀ c, c ∈ s → chat_like c = true) →
  base_ok (<[k := v]> d).
Proof.
  intros [Hne Hty Hch] Hv Hk. split.
  - intros k' s. destruct (decide (k = k')) as [<-|Hkk].
    + rewrite lookup_insert_eq. intros [= ->]. by apply Hv.
    + rewrite lookup_insert_ne by done. apply Hne.
  - intros u v'. destruct (decide (k = subs_key u)) as [->|Hku].
    + rewrite lookup_insert_eq. intros [= <-].
      destruct (Hk u eq_refl) as (s & -> & _). by eexists.
    + rewrite lookup_insert_ne by done. apply Hty.
  - intros u c. unfold subscribers, members.
    destruct (decide (k = subs_key u)) as [->|Hku].
    + rewrite lookup_insert_eq. destruct (Hk u eq_refl) as (s & -> & Hs). apply Hs.
    + rewrite lookup_insert_ne by done. apply Hch.
Qed.

Lemma base_ok_delete k d : base_ok d → base_ok (delete k d).
Proof.
  intros [Hne Hty Hch]. split.
  - intros k' s [_ Hs]%lookup_delete_Some. by eapply Hne.
  - intros u v [_ Hv]%lookup_delete_Some. by eapply Hty.
  - intros u c. unfold subscribers, members.
    destruct (decide (k = subs_key u)) as [->|Hku].
    + rewrite lookup_delete_eq. set_solver.
    + rewrite lookup_delete_ne by done. apply Hch.
Qed.

Lemma marker_ok_agree d d' u :
  d' !! subs_key u = d !! subs_key u →
  d' !! last_entry_key u = d !! last_entry_key u →
  marker_ok d u → marker_ok d' u.
Proof.
  unfold marker_ok, has_marker, subscribers, members. by intros -> ->.
Qed.

Lemma base_ok_srem key x d d' : base_ok d → srem key x d = inr d' → base_ok d'.
Proof.
  intros Hd. unfold srem. destruct (d !! key) as [[v|s]|] eqn:Hk; [done| |].
  - case_bool_decide as Hempty; intros [= <-].
    + by apply base_ok_delete.
    + apply base_ok_insert; [done|by intros ? [= <-]|].
      intros u ->. eexists. split; [done|].
      intros c Hc. apply (ok_chats _ Hd u). unfold subscribers, members.
      rewrite Hk. set_solver.
  - by intros [= <-].
Qed.

Lemma base_ok_sadd key x d d' :
  base_ok d → (∀ u, key = subs_key u → chat_like x = true) →
  sadd key x d = inr d' → base_ok d'.
Proof.
  intros Hd Hx (s & -> & _ & ->)%sadd_lookup.
  apply base_ok_insert; [done| |].
  - intros ? [= <-]. set_solver.
  - intros u ->. eexists. split; [done|].
    intros c [->%elem_of_singleton|Hc]%elem_of_union; [by eapply Hx|].
    by apply (ok_chats _ Hd u).
Qed.

Lemma base_ok_rename a b d d' :
  base_ok d → (∀ u, b ≠ subs_key u) → rename a b d = inr d' → base_ok d'.
Proof.
  intros Hd Hb (v & Hv & ->)%rename_lookup.
  apply base_ok_insert; [by apply base_ok_delete| |].
  - intros s ->. by eapply (ok_no_empty _ Hd).
  - intros u ->. by destruct (Hb u).
Qed.

Lemma srem_other key x d d' k : srem key x d = inr d' → k ≠ key → d' !! k = d !! k.
Proof. intros [_ Hother]%srem_members. apply Hother. Qed.

Lemma rename_other a b d d' k :
  rename a b d = inr d' → k ≠ a → k ≠ b → d' !! k = d !! k.
Proof.
  intros (v & _ & ->)%rename_lookup Ha Hb.
  by rewrite lookup_insert_ne, lookup_delete_ne.
Qed.

(** *** One cycle *)

Lemma cycle_ok_step u d0 d d' :
  cycle_ok u d0 d → base_ok d' →
  (∀ u', u' ≠ u → d' !! subs_key u' = d !! subs_key u'
                  ∧ d' !! last_entry_key u' = d !! last_entry_key u') →
  cycle_ok u d0 d'.
Proof.
  intros [_ Hsame] Hb Hstep. split; [done|].
  intros u' Hu'. destruct (Hsame u' Hu') as [Hs Hm], (Hstep u' Hu') as [Hs' Hm'].
  split; congruence.
Qed.

Lemma cycle_ok_srem u x d0 d d' :
  cycle_ok u d0 d → srem (subs_key u) x d = inr d' → cycle_ok u d0 d'.
Proof.
  intros Hd Hs. eapply cycle_ok_step; [done|by eapply base_ok_srem, Hs; apply Hd|].
  intros u' Hu'. split; (eapply srem_other; [done|]).
  - by intros ?%subs_key_inj.
  - apply not_eq_sym, subs_key_not_marker.
Qed.

Lemma cycle_ok_sadd u x d0 d d' :
  chat_like x = true →
  cycle_ok u d0 d → sadd (subs_key u) x d = inr d' → cycle_ok u d0 d'.
Proof.
  intros Hx Hd Hs. eapply cycle_ok_step; [done| |].
  - eapply base_ok_sadd; [apply Hd|by intros|done].
  - intros u' Hu'. split; (eapply sadd_other; [done|]).
    + by intros ?%subs_key_inj.
    + apply not_eq_sym, subs_key_not_marker.
Qed.

Lemma cycle_ok_delete_chat u m d0 d :
  chat_like m = true → cycle_ok u d0 d → cycle_ok u d0 (delete (feed_hash m) d).
Proof.
  intros Hchat Hd. eapply cycle_ok_step; [done|by apply base_ok_delete, Hd|].
  intros u' Hu'. split; apply lookup_delete_ne.
  - by apply chat_key_not_subs.
  - by apply chat_key_not_marker.
Qed.

Lemma cycle_ok_rename u m n d0 d d' :
  chat_like m = true →
  cycle_ok u d0 d → rename (feed_hash m) (feed_hash (str n)) d = inr d' →
  cycle_ok u d0 d'.
Proof.
  intros Hchat Hd Hr. pose proof (str_chat_like n) as Hn.
  eapply cycle_ok_step; [done| |].
  - eapply base_ok_rename; [apply Hd| |done]. intros u'. by apply chat_key_not_subs.
  - intros u' Hu'. split; (eapply rename_other; [done| |]); apply not_eq_sym.
    + by apply chat_key_not_subs.
    + by apply chat_key_not_subs.
    + by apply chat_key_not_marker.
    + by apply chat_key_not_marker.
Qed.

Lemma cycle_ok_set_marker u i d0 d :
  cycle_ok u d0 d → cycle_ok u d0 (<[last_entry_key u := RStr i]> d).
Proof.
  intros Hd. eapply cycle_ok_step; [done| |].
  - apply base_ok_insert; [apply Hd|done|].
    intros u' Heq. symmetry in Heq. by apply subs_key_not_marker in Heq.
  - intros u' Hu'. split; apply lookup_insert_ne.
    + apply not_eq_sym, subs_key_not_marker.
    + by intros ?%last_entry_key_inj.
Qed.

Lemma cycle_ok_delete_marker u d0 d :
  cycle_ok u d0 d → cycle_ok u d0 (delete (last_entry_key u) d).
Proof.
  intros Hd. eapply cycle_ok_step; [done|by apply base_ok_delete, Hd|].
  intros u' Hu'. split; apply lookup_delete_ne.
  - apply not_eq_sym, subs_key_not_marker.
  - by intros ?%last_entry_key_inj.
Qed.

Lemma react_keeps `{Env} u d0 text m o :
  chat_like m = true → keeps (cycle_ok u d0) (react (subs_key u) text m o).
Proof.
  intros Hchat. destruct o as [| |n| |why|why]; simpl; try (by apply keeps_same).
  - apply keeps_bind; [by apply keeps_same|intros []].
    apply keeps_bind; [|intros []].
    + apply keeps_run. intros d d'. apply cycle_ok_srem.
    + apply keeps_run. intros d d' Hd [= <-]. by apply cycle_ok_delete_chat.
  - apply keeps_bind; [by apply keeps_same|intros []].
    apply keeps_bind; [apply keeps_run; intros d d'; apply cycle_ok_srem|intros []].
    apply keeps_bind; [|intros []].
    { apply keeps_run. intros d d'. apply cycle_ok_sadd, str_chat_like. }
    apply keeps_bind; [|intros []].
    { apply keeps_run. intros d d'. by apply cycle_ok_rename. }
    apply keeps_bind; [by apply keeps_same|].
    intros []; by apply keeps_same.
Qed.

Lemma deliver_keeps `{Env} u d0 text m :
  chat_like m = true → keeps (cycle_ok u d0) (deliver (subs_key u) text m).
Proof.
  intros Hchat. unfold deliver. apply keeps_bind; [by apply keeps_same|].
  intros o. by apply react_keeps.
Qed.

Lemma deliver_entry_keeps `{Env} u d0 data title e :
  keeps (cycle_ok u d0) (deliver_entry (subs_key u) data title e).
Proof.
  intros w HK. unfold deliver_entry. rewrite bind_unfold. unfold lift.
  destruct (render data title e) as [x|text]; [done|].
  rewrite bind_unfold. unfold r_smembers, ask.
  destruct (smembers (subs_key u) (db w)) as [x|s] eqn:Hs; [done|].
  apply smembers_members in Hs.
  apply keeps_for_each; [|done].
  intros m Hm. apply deliver_keeps.
  destruct HK as [Hb _]. apply (ok_chats _ Hb u). unfold subscribers. rewrite Hs.
  apply elem_of_elements. by rewrite <- (set_order_perm s).
Qed.

(** A cycle, however it ends, leaves the keys of the other feeds alone. *)
Lemma check_feed_keeps `{Env} u d0 : keeps (cycle_ok u d0) (check_feed (subs_key u)).
Proof.
  unfold check_feed.
  destruct (match_subs_key (subs_key u)) as [v|] eqn:Hmatch; [|by apply keeps_same].
  pose proof (match_subs_key_inv _ _ Hmatch) as ->.
  apply keeps_bind; [by apply keeps_same|intros []].
  destruct (f_link _) as [l|].
  - apply keeps_bind; [by apply keeps_same|intros last].
    apply keeps_bind; [|intros []].
    { apply keeps_for_each. intros e _. apply deliver_entry_keeps. }
    apply keeps_bind; [by apply keeps_same|intros still].
    destruct (negb still).
    + apply keeps_run. intros d d' Hd [= <-]. by apply cycle_ok_delete_marker.
    + destruct (get_new_entries _ last) as [|e0 rest]; [by apply keeps_same|].
      simpl. apply keeps_bind.
      * destruct (e_id e0), (e_link e0); by apply keeps_same.
      * intros i. apply keeps_run. intros d d' Hd [= <-]. by apply cycle_ok_set_marker.
  - destruct (p_status _) as [st|], (p_bozo_exception _) as [b|];
      try case_bool_decide; by apply keeps_same.
Qed.

Lemma cycle_ok_start u d : base_ok d → cycle_ok u d d.
Proof. by intros Hb. Qed.

Lemma cycle_ok_markers u d0 d u' :
  cycle_ok u d0 d → u' ≠ u → marker_ok d0 u' → marker_ok d u'.
Proof.
  intros [_ Hsame] Hu' Hm. destruct (Hsame u' Hu') as [Hs Hk].
  by eapply marker_ok_agree.
Qed.

Lemma store_ok_set_marker u i d :
  base_ok d → (∀ u', u' ≠ u → marker_ok d u') → is_Some (d !! subs_key u) →
  store_ok (<[last_entry_key u := RStr i]> d).
Proof.
  intros Hb Hm [v Hv]. split.
  - apply base_ok_insert; [done|done|].
    intros u' Heq. symmetry in Heq. by apply subs_key_not_marker in Heq.
  - intros u'. destruct (decide (u' = u)) as [->|Hu'].
    + unfold marker_ok, has_marker, subscribers, members.
      rewrite lookup_insert_eq, lookup_insert_ne by (apply not_eq_sym, subs_key_not_marker).
      rewrite Hv. destruct (ok_typed _ Hb _ _ Hv) as [s ->].
      pose proof (ok_no_empty _ Hb _ _ Hv). split; [done|by eexists].
    + eapply marker_ok_agree; [| |by apply Hm].
      * apply lookup_insert_ne, not_eq_sym, subs_key_not_marker.
      * apply lookup_insert_ne. by intros ?%last_entry_key_inj.
Qed.

Lemma store_ok_delete_marker u d :
  base_ok d → (∀ u', u' ≠ u → marker_ok d u') → d !! subs_key u = None →
  store_ok (delete (last_entry_key u) d).
Proof.
  intros Hb Hm Hnone. split; [by apply base_ok_delete|].
  intros u'. destruct (decide (u' = u)) as [->|Hu'].
  - unfold marker_ok, has_marker, subscribers, members.
    rewrite lookup_delete_eq, lookup_delete_ne by (apply not_eq_sym, subs_key_not_marker).
    rewrite Hnone. split; [by intros [? ?]|done].
  - eapply marker_ok_agree; [| |by apply Hm].
    + apply lookup_delete_ne, not_eq_sym, subs_key_not_marker.
    + apply lookup_delete_ne. by intros ?%last_entry_key_inj.
Qed.

(** A cycle that ends without an error restores the invariant. *)
Lemma check_feed_keeps_store `{Env} key w w' :
  store_ok (db w) → is_subs_key key = true →
  check_feed key w = (inr tt, w') → store_ok (db w').
Proof.
  intros Hok [u ->]%is_subs_key_inv Hrun.
  destruct (match_subs_key (subs_key u)) as [v|] eqn:Hmatch;
    [|by unfold check_feed in Hrun; rewrite Hmatch in Hrun].
  pose proof (match_subs_key_inv _ _ Hmatch) as ->.
  destruct (f_link (p_feed (feedparser_parse u))) as [l|] eqn:Hl.
  2:{ destruct (check_feed_no_link _ _ w Hmatch Hl) as [Hdb _].
      rewrite Hrun in Hdb. simpl in Hdb. by rewrite Hdb. }
  unfold check_feed in Hrun. rewrite Hmatch, Hl in Hrun.
  rewrite bind_unfold in Hrun. simpl in Hrun.
  rewrite bind_unfold in Hrun. unfold r_get, ask in Hrun. simpl in Hrun.
  destruct (get (last_entry_key u) (db w)) as [x|last]; [done|].
  rewrite bind_unfold in Hrun.
  match type of Hrun with
  | context [for_each ?es ?body ?w0] =>
      pose proof (keeps_for_each (cycle_ok u (db w)) es body
                    (λ e _, deliver_entry_keeps u (db w) _ _ e) w0) as Hkeep;
      destruct (for_each es body w0) as [[x|[]] w1] eqn:Hloop; [done|]
  end.
  destruct Hok as [Hb0 Hm0].
  specialize (Hkeep (cycle_ok_start u _ Hb0)). simpl in Hkeep.
  assert (∀ u', u' ≠ u → marker_ok (db w1) u') as Hm.
  { intros u' Hu'. by eapply cycle_ok_markers. }
  destruct Hkeep as [Hb _].
  rewrite bind_unfold in Hrun. unfold r_exists, ask in Hrun. simpl in Hrun.
  case_bool_decide as Hstill; simpl in Hrun.
  - destruct (get_new_entries _ last) as [|e0 rest].
    + simpl in Hloop. injection Hloop as <-. by injection Hrun as <-.
    + rewrite advance_marker_run in Hrun.
      destruct (entry_ident e0) as [i|]; [|done].
      injection Hrun as <-. by apply store_ok_set_marker.
  - unfold r_delete, run in Hrun. injection Hrun as <-. simpl.
    apply store_ok_delete_marker; [done|done|].
    by apply eq_None_not_Some.
Qed.

(** *** /sub and /del *)

Lemma store_subscription_cases chat_id data href w w1 :
  store_subscription chat_id data href w = (inr tt, w1) →
  db w1 = db w ∨
  ∃ w' d2 d3,
    seed_marker href (p_entries data) w = (inr tt, w') ∧
    sadd (subs_key href) chat_id (db w') = inr d2 ∧
    sadd (feed_hash chat_id) href d2 = inr d3 ∧
    db w1 = d3.
Proof.
  unfold store_subscription, r_sismember. rewrite !bind_unfold.
  unfold r_smembers, ask at 1.
  destruct (smembers (feed_hash chat_id) (db w)) as [e|s] eqn:Hs; [done|]. simpl.
  case_bool_decide as Hin.
  { intros [= <-]. by left. }
  rewrite !bind_unfold.
  destruct (seed_marker href (p_entries data) w) as [[e|[]] w'] eqn:Hseed; [done|].
  rewrite bind_unfold. unfold r_sadd.
  destruct (run (sadd (subs_key href) chat_id) w') as [[e|[]] w2] eqn:H2; [done|].
  apply run_ok in H2 as (d2 & Hd2 & ->).
  rewrite bind_unfold.
  destruct (run (sadd (feed_hash chat_id) href) (with_db w' d2)) as [[e|[]] w3] eqn:H3; [done|].
  apply run_ok in H3 as (d3 & Hd3 & ->). simpl in Hd3.
  intros [= <-]. right. by exists w', d2, d3.
Qed.

Lemma subscribe_cases `{Env} upd args w w1 :
  subscribe upd args w = (inr tt, w1) →
  db w1 = db w ∨
  ∃ chat_id data href,
    accepted upd args chat_id data href ∧
    store_subscription chat_id data href
      (World (db w) (sent w) (ui w ++ [Typing (u_chat_id upd)]) (logged w)) = (inr tt, w1).
Proof.
  unfold subscribe. destruct (can_use_bot upd) eqn:Hcan; simpl; [|intros [= <-]; by left].
  destruct args as [|feed_url rest]; [intros [= <-]; by left|].
  destruct (looks_like_url feed_url) eqn:Hurl; simpl; [|intros [= <-]; by left].
  destruct (subscribe_chat upd rest) as [p|chat_id] eqn:Hchat; [intros [= <-]; by left|].
  rewrite bind_unfold. simpl.
  destruct (f_link (p_feed (feedparser_parse feed_url))) as [l|] eqn:Hl;
    [|intros [= <-]; by left].
  destruct (p_href (feedparser_parse feed_url)) as [href|] eqn:Hhref; [|done].
  intros Hrun. right. exists chat_id, (feedparser_parse feed_url), href.
  split; [|done]. exists feed_url, rest. split_and!; first [done|by eexists].
Qed.

Lemma store_ok_subscribe href chat_id d1 d2 d3 :
  chat_like chat_id = true →
  base_ok d1 → (∀ u, u ≠ href → marker_ok d1 u) → has_marker d1 href →
  sadd (subs_key href) chat_id d1 = inr d2 →
  sadd (feed_hash chat_id) href d2 = inr d3 →
  store_ok d3.
Proof.
  intros Hchat Hb Hm Hmark H2 H3.
  assert (∀ u, d3 !! subs_key u = d2 !! subs_key u) as Hs3.
  { intros u. eapply sadd_other; [done|]. apply not_eq_sym. by apply chat_key_not_subs. }
  assert (∀ u, d3 !! last_entry_key u = d1 !! last_entry_key u) as Hm3.
  { intros u. rewrite (sadd_other _ _ _ _ _ H3), (sadd_other _ _ _ _ _ H2); [done| |].
    - apply not_eq_sym, subs_key_not_marker.
    - apply not_eq_sym. by apply chat_key_not_marker. }
  split.
  - apply (base_ok_sadd (feed_hash chat_id) href d2 d3); [| |done].
    + by apply (base_ok_sadd (subs_key href) chat_id d1 d2).
    + intros u Heq. by apply chat_key_not_subs in Heq.
  - intros u. destruct (decide (u = href)) as [->|Hu].
    + unfold marker_ok, has_marker, subscribers, members. rewrite Hs3, Hm3.
      apply sadd_lookup in H2 as (s2 & -> & Hin & _). rewrite lookup_insert_eq.
      split; [intros _; set_solver|by intros _].
    + eapply marker_ok_agree; [| |by apply Hm].
      * rewrite Hs3. eapply sadd_other; [done|]. by intros ?%subs_key_inj.
      * apply Hm3.
Qed.

Lemma subscribe_keeps_store `{Env} upd args w w1 :
  store_ok (db w) →
  ¬ first_sub_of_empty_feed (Sub upd args) (db w) →
  subscribe upd args w = (inr tt, w1) → store_ok (db w1).
Proof.
  intros Hok Hfirst [->|(chat_id & data & href & Hacc & Hrun)]%subscribe_cases; [done|].
  apply store_subscription_cases in Hrun as [->|(w' & d2 & d3 & Hseed & H2 & H3 & ->)];
    [done|].
  destruct Hacc as (feed_url & rest & -> & _ & _ & Hchat & -> & _ & Hhref).
  apply subscribe_chat_like in Hchat. destruct Hok as [Hb Hm].
  rewrite seed_marker_run in Hseed. simpl in Hfirst, Hseed.
  destruct (p_entries (feedparser_parse feed_url)) as [|e0 older] eqn:Hentries.
  - injection Hseed as <-. simpl in *.
    eapply store_ok_subscribe; [done|done|by intros|..|done|done].
    apply Hm. intros Hempty. apply Hfirst. split; [done|]. by exists href.
  - case_bool_decide as Hmark.
    + injection Hseed as <-. simpl in *.
      by eapply store_ok_subscribe.
    + destruct (entry_ident e0) as [i|]; [|done]. injection Hseed as <-. simpl in *.
      eapply store_ok_subscribe; [done| | | |done|done].
      * apply base_ok_insert; [done|done|].
        intros u Heq. symmetry in Heq. by apply subs_key_not_marker in Heq.
      * intros u Hu. eapply marker_ok_agree; [| |by apply Hm].
        -- apply lookup_insert_ne, not_eq_sym, subs_key_not_marker.
        -- apply lookup_insert_ne. by intros ?%last_entry_key_inj.
      * unfold has_marker. by rewrite lookup_insert_eq.
Qed.

Lemma store_ok_unsubscribe feed_url chat_id d d1 d2 remaining :
  chat_like chat_id = true →
  store_ok d →
  srem (feed_hash chat_id) feed_url d = inr d1 →
  srem (subs_key feed_url) chat_id d1 = inr d2 →
  smembers (subs_key feed_url) d2 = inr remaining →
  store_ok (if bool_decide (remaining = ∅) then delete (last_entry_key feed_url) d2 else d2).
Proof.
  intros Hchat [Hb Hm] H1 H2 Hrem.
  assert (base_ok d2) as Hb2.
  { apply (base_ok_srem _ _ _ _ (base_ok_srem _ _ _ _ Hb H1) H2). }
  assert (∀ u, d2 !! last_entry_key u = d !! last_entry_key u) as Hm2.
  { intros u. rewrite (srem_other _ _ _ _ _ H2), (srem_other _ _ _ _ _ H1); [done| |].
    - apply not_eq_sym. by apply chat_key_not_marker.
    - apply not_eq_sym, subs_key_not_marker. }
  assert (∀ u, d1 !! subs_key u = d !! subs_key u) as Hs1.
  { intros u. eapply srem_other; [done|]. apply not_eq_sym. by apply chat_key_not_subs. }
  assert (∀ u, u ≠ feed_url → marker_ok d2 u) as Hother.
  { intros u Hu. eapply marker_ok_agree; [| |by apply Hm].
    - rewrite <- Hs1. eapply srem_other; [done|]. by intros ?%subs_key_inj.
    - apply Hm2. }
  pose proof (smembers_members _ _ _ Hrem) as Hmem.
  case_bool_decide as Hempty.
  - apply store_ok_delete_marker; [done|done|].
    subst remaining. unfold members in Hempty. unfold smembers in Hrem.
    destruct (d2 !! subs_key feed_url) as [[v|s]|] eqn:Hk; [done| |done].
    subst s. by destruct (ok_no_empty _ Hb2 _ _ Hk).
  - split; [done|]. intros u. destruct (decide (u = feed_url)) as [->|Hu]; [|by apply Hother].
    assert (subscribers d2 feed_url ≠ ∅) as Hne by (by unfold subscribers; rewrite Hmem).
    unfold marker_ok, has_marker. rewrite Hm2. split; [done|]. intros _.
    apply Hm. apply srem_members in H2 as [Heq _].
    unfold subscribers, members in *. rewrite Heq, Hs1 in Hne. set_solver.
Qed.

Lemma unsubscribe_keeps_store `{Env} upd args w w1 :
  store_ok (db w) → unsubscribe upd args w = (inr tt, w1) → store_ok (db w1).
Proof.
  intros Hok. unfold unsubscribe.
  destruct (can_use_bot upd); simpl; [|by intros [= <-]].
  destruct args as [|arg rest]; [by intros [= <-]|].
  destruct (unsubscribe_chat upd rest) as [p|chat_id] eqn:Hchat; [by intros [= <-]|].
  apply unsubscribe_chat_like in Hchat.
  destruct (py_int arg) as [n|]; [|by intros [= <-]].
  rewrite bind_unfold. unfold r_smembers, ask at 1.
  destruct (smembers (feed_hash chat_id) (db w)) as [x|subs]; [done|]. simpl.
  case_bool_decide; [by intros [= <-]|].
  case_bool_decide; [by intros [= <-]|].
  destruct (set_order subs !! Z.to_nat (n - 1)) as [feed_url|]; [|done].
  rewrite bind_unfold. unfold r_srem.
  destruct (run (srem (feed_hash chat_id) feed_url) w) as [[x|[]] w2] eqn:Hrem1; [done|].
  apply run_ok in Hrem1 as (d1 & Hrem1 & ->).
  rewrite bind_unfold.
  destruct (run (srem (subs_key feed_url) chat_id) (with_db w d1)) as [[x|[]] w3] eqn:Hrem2;
    [done|].
  apply run_ok in Hrem2 as (d2 & Hrem2 & ->). simpl in Hrem2.
  rewrite bind_unfold. unfold ask at 1. simpl.
  destruct (smembers (subs_key feed_url) d2) as [x|remaining] eqn:Hrem; [done|].
  pose proof (store_ok_unsubscribe _ _ _ _ _ _ Hchat Hok Hrem1 Hrem2 Hrem) as Hend.
  rewrite bind_unfold.
  case_bool_decide; unfold r_delete, run, reply; simpl; by intros [= <-].
Qed.

Lemma store_ok_empty : store_ok ∅.
Proof.
  split; [split|].
  - intros k s. by rewrite lookup_empty.
  - intros u v. by rewrite lookup_empty.
  - intros u c. unfold subscribers, members. rewrite lookup_empty. set_solver.
  - intros u. unfold marker_ok, has_marker, subscribers, members.
    rewrite !lookup_empty. split; [by intros [? ?]|done].
Qed.

(** C4, as the code has it.  Every request that ends without an error
    keeps the invariant of the store, of which "a feed has a marker exactly
    when it has a subscriber" is a part: /sub, /del and the cycle of a feed
    whose subscriber key the tick has listed, with its handling of
    unauthorized and migrated chats.  The one exception is the /sub that
    creates the first subscription of a feed without entries. *)
Theorem marker_invariant_preserved `{Env} r w w' :
  store_ok (db w) →
  polls_a_feed r →
  ¬ first_sub_of_empty_feed r (db w) →
  handle r w = (inr tt, w') →
  store_ok (db w') ∧ ∀ u, has_marker (db w') u ↔ subscribers (db w') u ≠ ∅.
Proof.
  intros Hok Hpoll Hfirst Hrun.
  assert (store_ok (db w')) as Hok'.
  { destruct r as [upd args|upd args|key]; simpl in *.
    - by eapply subscribe_keeps_store.
    - by eapply unsubscribe_keeps_store.
    - by eapply check_feed_keeps_store. }
  split; [done|]. by destruct Hok'.
Qed.

Lemma marker_invariant_preserved_witness :
  store_ok (db Demo.subscribed)
  ∧ ∀ u, has_marker (db Demo.subscribed) u ↔ subscribers (db Demo.subscribed) u ≠ ∅.
Proof.
  apply (@marker_invariant_preserved Demo.calm (Sub (Update 7) [Demo.url])
           Demo.fresh Demo.subscribed).
  - exact store_ok_empty.
  - exact I.
  - intros [Hnil _]. vm_compute in Hnil. discriminate Hnil.
  - reflexivity.
Defined.

Lemma demo_bare_reader_ok : store_ok (db Demo.bare_reader).
Proof.
  destruct store_ok_empty as [Hb Hm].
  apply (store_ok_subscribe Demo.bare_url "7"
           (<[last_entry_key Demo.bare_url := RStr "h2"]> ∅)
           (<[subs_key Demo.bare_url := RSet {["7"]}]>
              (<[last_entry_key Demo.bare_url := RStr "h2"]> ∅))).
  - reflexivity.
  - apply base_ok_insert; [done|done|].
    intros u Heq. symmetry in Heq. by apply subs_key_not_marker in Heq.
  - intros u Hu. eapply marker_ok_agree; [| |by apply Hm].
    + apply lookup_insert_ne, not_eq_sym, subs_key_not_marker.
    + apply lookup_insert_ne. by intros ?%last_entry_key_inj.
  - unfold has_marker. by rewrite lookup_insert_eq.
  - by vm_compute.
  - by vm_compute.
Qed.

(** C4, as stated, fails.  Chat 7 sends /sub for a feed that has no entry
    yet, to a bot whose store is empty.  The request is answered "added",
    the feed has chat 7 as its subscriber, and it has no marker.

    A cycle that an error cuts short can leave the converse.  Chat 7, the
    only subscriber of a feed with two new entries, has blocked the bot:
    the older entry purges the chat, the newer one has no link and the
    parsed result has no link attribute, so rendering it raises; the feed
    is left with its marker and without subscribers. *)
Lemma marker_invariant_counterexample :
  store_ok (db Demo.fresh)
  ∧ p_entries (Demo.web Demo.empty_url) = []
  ∧ @subscribe Demo.calm (Update 7) [Demo.empty_url] Demo.fresh
    = (inr tt,
       World (<[feed_hash "7" := RSet {[Demo.empty_url]}]>
                (<[subs_key Demo.empty_url := RSet {["7"]}]> ∅))
         [] [Typing 7; ReplyOk (Added "Example")] [])
  ∧ subscribers (db (@subscribe Demo.calm (Update 7) [Demo.empty_url] Demo.fresh).2)
      Demo.empty_url = {["7"]}
  ∧ ¬ has_marker (db (@subscribe Demo.calm (Update 7) [Demo.empty_url] Demo.fresh).2)
        Demo.empty_url
  ∧ store_ok (db Demo.bare_reader)
  ∧ (@check_feed Demo.blocked (subs_key Demo.bare_url) Demo.bare_reader).1
    = inl (AttributeError "link")
  ∧ subscribers (db (@check_feed Demo.blocked (subs_key Demo.bare_url) Demo.bare_reader).2)
      Demo.bare_url = ∅
  ∧ has_marker (db (@check_feed Demo.blocked (subs_key Demo.bare_url) Demo.bare_reader).2)
      Demo.bare_url.
Proof.
  split_and!.
  - exact store_ok_empty.
  - reflexivity.
  - by vm_compute.
  - by vm_compute.
  - intros [v Hv]. vm_compute in Hv. discriminate Hv.
  - exact demo_bare_reader_ok.
  - by vm_compute.
  - by vm_compute.
  - exists (RStr "h2"). by vm_compute.
Qed.
(** ** The chats a cycle leaves alone *)

Section spare.
Context `{Env} (c u : string).
Hypothesis c_chat : chat_like c = true.

Lemma spared_srem m d0 d d' :
  m ≠ c → spared c u d0 d → srem (subs_key u) m d = inr d' → spared c u d0 d'.
Proof.
  intros Hm [Hin Hset] [Hmem Hother]%srem_members. split.
  - intros Hc. unfold subscribers. rewrite Hmem. specialize (Hin Hc).
    unfold subscribers in Hin. set_solver.
  - rewrite Hother; [done|]. by apply chat_key_not_subs.
Qed.

Lemma spared_sadd x d0 d d' :
  spared c u d0 d → sadd (subs_key u) x d = inr d' → spared c u d0 d'.
Proof.
  intros [Hin Hset] [Hmem Hother]%sadd_members. split.
  - intros Hc. unfold subscribers. rewrite Hmem. specialize (Hin Hc).
    unfold subscribers in Hin. set_solver.
  - rewrite Hother; [done|]. by apply chat_key_not_subs.
Qed.

Lemma spared_delete_chat m d0 d :
  chat_like m = true → m ≠ c → spared c u d0 d → spared c u d0 (delete (feed_hash m) d).
Proof.
  intros Hchat Hm [Hin Hset]. split.
  - intros Hc. unfold subscribers. rewrite members_delete_ne; [by apply Hin|].
    by apply chat_key_not_subs.
  - rewrite lookup_delete_ne; [done|]. by intros ?%feed_hash_inj.
Qed.

Lemma spared_rename m n d0 d d' :
  chat_like m = true → m ≠ c → str n ≠ c →
  spared c u d0 d → rename (feed_hash m) (feed_hash (str n)) d = inr d' →
  spared c u d0 d'.
Proof.
  intros Hchat Hm Hn Hd (v & _ & ->)%rename_lookup.
  apply (spared_delete_chat m) in Hd as [Hin Hset]; [|done..]. split.
  - intros Hc. unfold subscribers. rewrite members_insert_ne; [by apply Hin|].
    apply chat_key_not_subs, str_chat_like.
  - rewrite lookup_insert_ne; [done|]. by intros ?%feed_hash_inj.
Qed.

Lemma spared_set_marker v d0 d :
  spared c u d0 d → spared c u d0 (<[last_entry_key u := v]> d).
Proof.
  intros [Hin Hset]. split.
  - intros Hc. unfold subscribers. rewrite members_insert_ne; [by apply Hin|].
    apply not_eq_sym, subs_key_not_marker.
  - rewrite lookup_insert_ne; [done|]. apply not_eq_sym. by apply chat_key_not_marker.
Qed.

Lemma spared_delete_marker d0 d :
  spared c u d0 d → spared c u d0 (delete (last_entry_key u) d).
Proof.
  intros [Hin Hset]. split.
  - intros Hc. unfold subscribers. rewrite members_delete_ne; [by apply Hin|].
    apply not_eq_sym, subs_key_not_marker.
  - rewrite lookup_delete_ne; [done|]. apply not_eq_sym. by apply chat_key_not_marker.
Qed.

(** What [react] does to the store after a delivery that spares [c]. *)
Lemma react_spares d0 text m o :
  chat_like m = true → spares c (Delivery m text o) →
  keeps (spared c u d0) (react (subs_key u) text m o).
Proof.
  intros Hchat Hspare. destruct o as [| |n| |why|why]; simpl in *;
    try (by apply keeps_same).
  - apply keeps_bind; [by apply keeps_same|intros []].
    apply keeps_bind; [|intros []].
    + apply keeps_run. intros d d'. by apply spared_srem.
    + apply keeps_run. intros d d' Hd [= <-]. by apply spared_delete_chat.
  - destruct Hspare as [Hm Hn].
    apply keeps_bind; [by apply keeps_same|intros []].
    apply keeps_bind; [apply keeps_run; intros d d'; by apply spared_srem|intros []].
    apply keeps_bind; [apply keeps_run; intros d d'; apply spared_sadd|intros []].
    apply keeps_bind; [|intros []].
    { apply keeps_run. intros d d'. by apply spared_rename. }
    apply keeps_bind; [by apply keeps_same|].
    intros []; by apply keeps_same.
Qed.

(** *** Composition *)

Lemma sparing_bind {A B} (m : M A) (k : A → M B) :
  sparing c u m → (∀ a, sparing c u (k a)) → sparing c u (m ≫= k).
Proof.
  intros Hm Hk w Hb. rewrite bind_unfold.
  destruct (Hm w Hb) as (g1 & Hg1 & Hb1 & Hs1).
  destruct (m w) as [[e|a] w1]; [by exists g1|]. simpl in *.
  destruct (Hk a w1 Hb1) as (g2 & Hg2 & Hb2 & Hs2).
  exists (g1 ++ g2). split_and!; [by rewrite Hg2, Hg1, app_assoc|done|].
  intros [H1 H2]%Forall_app d0 Hd0. apply Hs2; [done|]. by apply Hs1.
Qed.

Lemma sparing_quiet {A} (m : M A) :
  quiet m →
  (∀ w, base_ok (db w) →
     base_ok (db (m w).2) ∧ ∀ d0, spared c u d0 (db w) → spared c u d0 (db (m w).2)) →
  sparing c u m.
Proof.
  intros Hq Hm w Hb. destruct (Hm w Hb) as [Hb' Hs].
  exists []. split_and!; [by rewrite Hq, app_nil_r|done|by intros _].
Qed.

Lemma sparing_same {A} (m : M A) : quiet m → (∀ w, db (m w).2 = db w) → sparing c u m.
Proof.
  intros Hq Hdb. apply sparing_quiet; [done|]. intros w Hb. by rewrite Hdb.
Qed.

Lemma sparing_for_each {A} (xs : list A) (body : A → M unit) :
  (∀ x, x ∈ xs → sparing c u (body x)) → sparing c u (for_each xs body).
Proof.
  induction xs as [|x xs IH]; intros Hbody; simpl.
  - by apply sparing_same.
  - apply sparing_bind.
    + apply Hbody. by left.
    + intros []. apply IH. intros y Hy. apply Hbody. by right.
Qed.

(** *** The cycle *)

Lemma deliver_sparing text m :
  chat_like m = true → sparing c u (deliver (subs_key u) text m).
Proof.
  intros Hchat w Hb.
  pose proof (deliver_keeps u (db w) text m Hchat w (cycle_ok_start _ _ Hb)) as [Hb' _].
  revert Hb'. rewrite deliver_run.
  set (o := send_message (sent w) m text).
  set (w' := World (db w) (sent w ++ [Delivery m text o]) (ui w) (logged w)).
  intros Hb'.
  destruct (react_emits (subs_key u) text m o w') as (g & Hg & _).
  exists (Delivery m text o :: g). split_and!; [|done|].
  - rewrite Hg. simpl. by rewrite <- app_assoc.
  - intros [Hfirst _]%Forall_cons d0 Hd0.
    by apply (react_spares d0 text m o Hchat Hfirst w').
Qed.

Lemma deliver_entry_sparing data title e :
  sparing c u (deliver_entry (subs_key u) data title e).
Proof.
  assert (∀ w : world, base_ok (db w) →
            ∃ g, sent w = sent w ++ g ∧ base_ok (db w)
                 ∧ (Forall (spares c) g →
                    ∀ d0, spared c u d0 (db w) → spared c u d0 (db w))) as Hstop.
  { intros w Hb. exists []. split_and!; [by rewrite app_nil_r|done|by intros _]. }
  intros w Hb. unfold deliver_entry. rewrite bind_unfold. unfold lift.
  destruct (render data title e) as [x|text]; [by apply Hstop|].
  rewrite bind_unfold. unfold r_smembers, ask.
  destruct (smembers (subs_key u) (db w)) as [x|s] eqn:Hs; [by apply Hstop|].
  apply smembers_members in Hs.
  apply sparing_for_each; [|done].
  intros m Hm. apply deliver_sparing.
  apply (ok_chats _ Hb u). unfold subscribers. rewrite Hs.
  apply elem_of_elements. by rewrite <- (set_order_perm s).
Qed.

Lemma check_feed_sparing : sparing c u (check_feed (subs_key u)).
Proof.
  unfold check_feed.
  destruct (match_subs_key (subs_key u)) as [v|] eqn:Hmatch; [|by apply sparing_same].
  pose proof (match_subs_key_inv _ _ Hmatch) as ->.
  apply sparing_bind; [by apply sparing_same|intros []].
  destruct (f_link _) as [l|].
  - apply sparing_bind; [by apply sparing_same|intros last].
    apply sparing_bind; [|intros []].
    { apply sparing_for_each. intros e _. apply deliver_entry_sparing. }
    apply sparing_bind; [by apply sparing_same|intros still].
    destruct (negb still).
    + apply sparing_quiet; [apply quiet_run|]. intros w Hb. simpl. split.
      * by apply base_ok_delete.
      * intros d0. apply spared_delete_marker.
    + destruct (get_new_entries _ last) as [|e0 rest]; [by apply sparing_same|].
      simpl. apply sparing_bind.
      * destruct (e_id e0), (e_link e0); by apply sparing_same.
      * intros i. apply sparing_quiet; [apply quiet_run|]. intros w Hb. simpl. split.
        -- apply base_ok_insert; [done|done|].
           intros u' Heq. symmetry in Heq. by apply subs_key_not_marker in Heq.
        -- intros d0. apply spared_set_marker.
  - destruct (p_status _) as [st|], (p_bozo_exception _) as [b|];
      try case_bool_decide; by apply sparing_same.
Qed.

End spare.


Lemma check_feed_end `{Env} key u l w w' :
  match_subs_key key = Some u →
  f_link (p_feed (feedparser_parse u)) = Some l →
  check_feed key w = (inr tt, w') →
  db w' !! key = None →
  db w' !! last_entry_key u = None.
Proof.
  intros Hkey Hlink Hrun Hnone.
  pose proof (match_subs_key_not_marker _ _ u Hkey) as Hdiff.
  unfold check_feed in Hrun. rewrite Hkey, Hlink in Hrun.
  rewrite bind_unfold in Hrun. simpl in Hrun.
  rewrite bind_unfold in Hrun.
  destruct (r_get (last_entry_key u) _) as [[x|last] w0]; [done|].
  rewrite bind_unfold in Hrun.
  destruct (for_each _ _ w0) as [[x|[]] w1]; [done|].
  rewrite bind_unfold in Hrun. unfold r_exists, ask in Hrun. simpl in Hrun.
  case_bool_decide as Hstill; simpl in Hrun.
  - destruct (get_new_entries _ last) as [|e0 rest].
    + injection Hrun as <-. rewrite Hnone in Hstill. by destruct Hstill.
    + rewrite advance_marker_run in Hrun.
      destruct (entry_ident e0) as [i|]; [|done].
      injection Hrun as <-. simpl in Hnone.
      rewrite lookup_insert_ne in Hnone by done.
      rewrite Hnone in Hstill. by destruct Hstill.
  - unfold r_delete, run in Hrun. injection Hrun as <-. simpl.
    apply lookup_delete_eq.
Qed.

(** C3, as the code has it.  When a cycle of the feed [feed_url] is told
    that chat [c] is unauthorized, then after the cycle [c] has no feed set
    of its own and is not a subscriber of [feed_url]; and if the cycle ends
    without an error and the subscriber key of [feed_url] is gone, so is
    its marker.  (This is for a transport that never names [c] as the new
    id of a migrated chat.)

    In a well-formed store nothing else is purged.  The subscriber key and
    the marker of every other feed hold what they held, [c] included.  And
    a chat that every delivery of the cycle spares (none of its messages is
    refused as unauthorized or migrated, and no migration names it as the
    new id) is a subscriber of [feed_url] afterwards if it was one before,
    and keeps its feed set as it was. *)
Theorem unauthorized_purge `{Env} feed_url c text w g :
  chat_like c = true →
  (∀ seen chat t n, send_message seen chat t = ChatMigrated n → str n ≠ c) →
  sent (check_feed (subs_key feed_url) w).2 = sent w ++ g →
  Delivery c text Unauthorized ∈ g →
  db (check_feed (subs_key feed_url) w).2 !! feed_hash c = None
  ∧ (c ∉ subscribers (db (check_feed (subs_key feed_url) w).2) feed_url)
  ∧ ((check_feed (subs_key feed_url) w).1 = inr tt →
     db (check_feed (subs_key feed_url) w).2 !! subs_key feed_url = None →
     ¬ has_marker (db (check_feed (subs_key feed_url) w).2) feed_url)
  ∧ (base_ok (db w) → ∀ u, u ≠ feed_url →
     db (check_feed (subs_key feed_url) w).2 !! subs_key u = db w !! subs_key u
     ∧ db (check_feed (subs_key feed_url) w).2 !! last_entry_key u
       = db w !! last_entry_key u)
  ∧ (base_ok (db w) → ∀ c', chat_like c' = true → Forall (spares c') g →
     (c' ∈ subscribers (db w) feed_url →
      c' ∈ subscribers (db (check_feed (subs_key feed_url) w).2) feed_url)
     ∧ db (check_feed (subs_key feed_url) w).2 !! feed_hash c' = db w !! feed_hash c').
Proof.
  intros Hc Hnever Hg Hin.
  assert (base_ok (db w) → ∀ u, u ≠ feed_url →
          db (check_feed (subs_key feed_url) w).2 !! subs_key u = db w !! subs_key u
          ∧ db (check_feed (subs_key feed_url) w).2 !! last_entry_key u
            = db w !! last_entry_key u)
    as Hframe.
  { intros Hb u Hu.
    destruct (check_feed_keeps feed_url (db w) w (cycle_ok_start _ _ Hb)) as [_ Hsame].
    apply (Hsame u Hu). }
  assert (base_ok (db w) → ∀ c', chat_like c' = true → Forall (spares c') g →
          (c' ∈ subscribers (db w) feed_url →
           c' ∈ subscribers (db (check_feed (subs_key feed_url) w).2) feed_url)
          ∧ db (check_feed (subs_key feed_url) w).2 !! feed_hash c' = db w !! feed_hash c')
    as Hothers.
  { intros Hb c' Hc' Hspare.
    destruct (check_feed_sparing c' feed_url Hc' w Hb) as (g' & Hg' & _ & Hkeep).
    rewrite Hg in Hg'. apply app_inv_head in Hg'. subst g'.
    by apply (Hkeep Hspare (db w)). }
  destruct (check_feed_purging c (subs_key feed_url)) with (w := w)
    as (g' & Hg' & _ & Hgone); try done.
  - intros n Heq. symmetry in Heq. by apply chat_key_not_subs in Heq; [|apply str_chat_like].
  - by apply chat_key_not_subs.
  - intros u Heq. symmetry in Heq. by apply chat_key_not_marker in Heq.
  - rewrite Hg in Hg'. apply app_inv_head in Hg'. subst g'.
    destruct Hgone as [Hkey Hmem]; [left; by exists text|].
    split_and!; [done|done| |done|done].
    intros Hok Hnone [v Hv].
    destruct (match_subs_key (subs_key feed_url)) as [u|] eqn:Hmatch.
    + pose proof (match_subs_key_inv _ _ Hmatch) as ->.
      destruct (f_link (p_feed (feedparser_parse feed_url))) as [l|] eqn:Hl.
      * destruct (check_feed (subs_key feed_url) w) as [r w'] eqn:Hrun.
        simpl in *. subst r.
        rewrite (check_feed_end _ _ _ _ _ Hmatch Hl Hrun Hnone) in Hv. done.
      * destruct (check_feed_no_link _ _ w Hmatch Hl) as [_ Hsent].
        rewrite Hsent in Hg. rewrite <- (app_nil_r (sent w)) in Hg at 1.
        apply app_inv_head in Hg. subst g. by apply elem_of_nil in Hin.
    + unfold check_feed in Hok. by rewrite Hmatch in Hok.
Qed.

Lemma lab_shared_ok : base_ok (db Lab.shared).
Proof.
  destruct store_ok_empty as [Hb _]. unfold Lab.shared, db.
  apply base_ok_insert; [|intros ? [= <-]; set_solver|].
  2:{ intros u _. eexists. split; [done|]. intros x Hx.
      apply elem_of_union in Hx as [->%elem_of_singleton| ->%elem_of_singleton];
        reflexivity. }
  apply base_ok_insert; [|done|].
  2:{ intros u Heq. symmetry in Heq. by apply subs_key_not_marker in Heq. }
  apply base_ok_insert; [|intros ? [= <-]; set_solver|].
  2:{ intros u _. eexists. split; [done|]. by intros x ->%elem_of_singleton. }
  apply base_ok_insert; [|done|].
  2:{ intros u Heq. symmetry in Heq. by apply subs_key_not_marker in Heq. }
  apply base_ok_insert; [|intros ? [= <-]; set_solver|].
  2:{ intros u Heq. by apply chat_key_not_subs in Heq. }
  apply base_ok_insert; [done|intros ? [= <-]; set_solver|].
  intros u Heq. by apply chat_key_not_subs in Heq.
Qed.

Lemma unauthorized_purge_witness :
  (db (@check_feed Demo.blocked (subs_key Demo.url) Demo.one_reader).2 !! feed_hash "7" = None
   ∧ ("7" ∉ subscribers (db (@check_feed Demo.blocked (subs_key Demo.url) Demo.one_reader).2)
              Demo.url)
   ∧ ¬ has_marker (db (@check_feed Demo.blocked (subs_key Demo.url) Demo.one_reader).2)
         Demo.url)
  ∧ (db (@check_feed Lab.one_blocked (subs_key Demo.url) Lab.shared).2 !! feed_hash "7" = None
     ∧ ("7" ∉ subscribers (db (@check_feed Lab.one_blocked (subs_key Demo.url) Lab.shared).2)
                Demo.url)
     ∧ "9" ∈ subscribers (db (@check_feed Lab.one_blocked (subs_key Demo.url) Lab.shared).2)
               Demo.url
     ∧ db (@check_feed Lab.one_blocked (subs_key Demo.url) Lab.shared).2 !! feed_hash "9"
       = Some (RSet {[Demo.url]})
     ∧ db (@check_feed Lab.one_blocked (subs_key Demo.url) Lab.shared).2
         !! subs_key Demo.other_url = Some (RSet {["7"]})
     ∧ db (@check_feed Lab.one_blocked (subs_key Demo.url) Lab.shared).2
         !! last_entry_key Demo.other_url = Some (RStr "g0")).
Proof.
  split.
  - destruct (@unauthorized_purge Demo.blocked Demo.url "7"
                (default "" (d_text <$> head
                   (sent (@check_feed Demo.blocked (subs_key Demo.url) Demo.one_reader).2)))
                Demo.one_reader
                (sent (@check_feed Demo.blocked (subs_key Demo.url) Demo.one_reader).2))
      as (Hkey & Hmem & Hmark & _).
    + reflexivity.
    + intros seen chat t n Hn. discriminate Hn.
    + reflexivity.
    + vm_compute. apply list_elem_of_here.
    + split_and!; [exact Hkey|exact Hmem|].
      apply Hmark; reflexivity.
  - destruct (@unauthorized_purge Lab.one_blocked Demo.url "7"
                (default "" (d_text <$> head
                   (sent (@check_feed Lab.one_blocked (subs_key Demo.url) Lab.shared).2)))
                Lab.shared
                (sent (@check_feed Lab.one_blocked (subs_key Demo.url) Lab.shared).2))
      as (Hkey & Hmem & _ & Hframe & Hothers).
    + reflexivity.
    + intros seen chat t n Hn. simpl in Hn. destruct (bool_decide (chat = "7")); discriminate Hn.
    + reflexivity.
    + vm_compute. apply list_elem_of_here.
    + destruct (Hframe lab_shared_ok Demo.other_url) as [Hsubs Hmarker]; [discriminate|].
      destruct (Hothers lab_shared_ok "9") as [Hstay Hfeeds]; [reflexivity| |].
      { vm_compute. repeat constructor; discriminate. }
      split_and!; [exact Hkey|exact Hmem| | | |].
      * apply Hstay. vm_compute. set_solver.
      * rewrite Hfeeds. reflexivity.
      * rewrite Hsubs. reflexivity.
      * rewrite Hmarker. reflexivity.
Defined.

(** C3, as stated, fails.  Chat 7 follows two feeds and has blocked the
    bot; the first feed has news, the second has none.  After the cycle of
    the first feed, and after the whole tick, chat 7 has no feed set of its
    own but is still in the subscriber set of the second feed. *)
Lemma unauthorized_purge_counterexample :
  map (λ d, (d_chat d, d_outcome d))
      (sent (@check_feed Demo.blocked (subs_key Demo.url) Demo.two_feeds).2)
    = [("7", Unauthorized)]
  ∧ db (@check_feed Demo.blocked (subs_key Demo.url) Demo.two_feeds).2 !! feed_hash "7" = None
  ∧ "7" ∈ subscribers (db (@check_feed Demo.blocked (subs_key Demo.url) Demo.two_feeds).2)
            Demo.other_url
  ∧ map (λ d, (d_chat d, d_outcome d)) (sent (@run_job Demo.blocked Demo.two_feeds).2)
    = [("7", Unauthorized)]
  ∧ db (@run_job Demo.blocked Demo.two_feeds).2 !! feed_hash "7" = None
  ∧ "7" ∈ subscribers (db (@run_job Demo.blocked Demo.two_feeds).2) Demo.other_url.
Proof.
  split_and!; by vm_compute.
Qed.

(** ** /del: a position in range *)

Lemma set_order_length `{Env} (s : gset string) : length (set_order s) = size s.
Proof. by rewrite set_order_perm. Qed.

Lemma set_order_elem `{Env} (s : gset string) i f : set_order s !! i = Some f → f ∈ s.
Proof.
  intros Hf%list_elem_of_lookup_2. rewrite set_order_perm in Hf.
  by apply elem_of_elements.
Qed.

(** What [srem] leaves in a set. *)
Lemma srem_lookup key x d d' :
  srem key x d = inr d' →
  d' !! key = (if bool_decide (members d key ∖ {[x]} = ∅) then None
               else Some (RSet (members d key ∖ {[x]})))
  ∨ (d !! key = None ∧ d' = d).
Proof.
  unfold srem, members. destruct (d !! key) as [[v|s]|] eqn:Hk; [done| |].
  - case_bool_decide; intros [= <-]; left.
    + by rewrite lookup_delete_eq.
    + by rewrite lookup_insert_eq.
  - intros [= <-]. by right.
Qed.

(** The writes of lines 254-257, on a store whose keys hold what they
    should. *)
Lemma unsubscribe_writes chat_id f d :
  chat_like chat_id = true →
  holds_set (feed_hash chat_id) d →
  holds_set (subs_key f) d →
  ∃ d1 d2 remaining,
    srem (feed_hash chat_id) f d = inr d1
    ∧ srem (subs_key f) chat_id d1 = inr d2
    ∧ smembers (subs_key f) d2 = inr remaining
    ∧ remaining = subscribers d f ∖ {[chat_id]}
    ∧ members d2 (feed_hash chat_id) = feeds_of d chat_id ∖ {[f]}
    ∧ d2 !! last_entry_key f = d !! last_entry_key f
    ∧ ∀ k, ¬ keys_of chat_id f k → d2 !! k = d !! k.
Proof.
  intros Hc Hchat Hsubs.
  pose proof (chat_key_not_subs _ f Hc) as Hne.
  destruct (srem_total _ f _ Hchat) as [d1 Hd1].
  destruct (srem_members _ _ _ _ Hd1) as [Hm1 Ho1].
  assert (holds_set (subs_key f) d1) as Hsubs1.
  { intros v. rewrite Ho1 by done. apply Hsubs. }
  destruct (srem_total _ chat_id _ Hsubs1) as [d2 Hd2].
  destruct (srem_members _ _ _ _ Hd2) as [Hm2 Ho2].
  pose proof (holds_set_srem _ _ _ _ Hsubs1 Hd2) as Hsubs2.
  exists d1, d2, (members d2 (subs_key f)). split_and!; [done|done| | | | |].
  - unfold smembers, members. destruct (d2 !! subs_key f) as [v|] eqn:Hv; [|done].
    by destruct (Hsubs2 v Hv) as [s ->].
  - rewrite Hm2. unfold subscribers, members. by rewrite Ho1.
  - unfold feeds_of. rewrite <- Hm1. unfold members. by rewrite Ho2.
  - rewrite Ho2, Ho1; [done| |].
    + apply not_eq_sym. by apply chat_key_not_marker.
    + apply not_eq_sym, subs_key_not_marker.
  - intros k Hk. rewrite Ho2, Ho1; [done| |]; intros ->; apply Hk; unfold keys_of; auto.
Qed.

Lemma unsubscribe_in_range `{Env} upd arg rest chat_id n subs w :
  can_use_bot upd = true →
  unsubscribe_chat upd rest = inr chat_id →
  py_int arg = Some n →
  smembers (feed_hash chat_id) (db w) = inr subs →
  (1 ≤ n ≤ Z.of_nat (size subs))%Z →
  (∀ u, holds_set (subs_key u) (db w)) →
  ∃ f d1 d2,
    set_order subs !! Z.to_nat (n - 1) = Some f
    ∧ f ∈ subs
    ∧ srem (feed_hash chat_id) f (db w) = inr d1
    ∧ srem (subs_key f) chat_id d1 = inr d2
    ∧ unsubscribe upd (arg :: rest) w =
        (inr tt,
         World (if bool_decide (subscribers (db w) f ∖ {[chat_id]} = ∅)
                then delete (last_entry_key f) d2 else d2)
           (sent w) (ui w ++ [ReplyOk (Removed f)]) (logged w))
    ∧ members d2 (feed_hash chat_id) = subs ∖ {[f]}
    ∧ members d2 (subs_key f) = subscribers (db w) f ∖ {[chat_id]}
    ∧ d2 !! last_entry_key f = db w !! last_entry_key f
    ∧ ∀ k, ¬ keys_of chat_id f k → d2 !! k = db w !! k.
Proof.
  intros Hcan Hchat Hint Hsubs Hn Htyped.
  pose proof (unsubscribe_chat_like _ _ _ Hchat) as Hc.
  destruct (lookup_lt_is_Some_2 (set_order subs) (Z.to_nat (n - 1))) as [f Hf].
  { rewrite set_order_length. lia. }
  pose proof (set_order_elem _ _ _ Hf) as Hin.
  destruct (unsubscribe_writes chat_id f (db w) Hc) as
    (d1 & d2 & remaining & Hd1 & Hd2 & Hrem & -> & Hm & Hmark & Hframe);
    [by eapply holds_set_smembers|done|].
  exists f, d1, d2. split_and!; [done|done|done|done| | | |done|done].
  - unfold unsubscribe. rewrite Hcan, Hchat, Hint. simpl.
    rewrite bind_unfold. unfold r_smembers, ask. rewrite Hsubs.
    rewrite bool_decide_false by lia. rewrite bool_decide_false by lia.
    rewrite Hf. unfold r_srem, r_smembers, r_delete, run, ask, reply.
    rewrite bind_unfold, Hd1. simpl. rewrite bind_unfold. simpl. rewrite Hd2.
    rewrite bind_unfold. simpl. rewrite Hrem. rewrite bind_unfold.
    by case_bool_decide.
  - rewrite Hm. unfold feeds_of. by rewrite (smembers_members _ _ _ Hsubs).
  - by apply smembers_members.
Qed.

Lemma smembers_total key d : holds_set key d → ∃ s, smembers key d = inr s.
Proof.
  intros Hset. unfold smembers. destruct (d !! key) as [v|] eqn:Hv; [|by eexists].
  destruct (Hset v Hv) as [s ->]. by eexists.
Qed.

(** X1.  /del with a position between 1 and the number of feeds of the chat
    removes the feed at that position of the set as Python iterates it: the
    feed leaves the set of the chat, the chat leaves the subscribers of the
    feed, the marker of the feed is deleted if no subscriber is left and
    kept otherwise, the answer is "removed", nothing is sent, and no other
    key changes. *)
Theorem unsubscribe_removes `{Env} upd arg rest chat_id n subs w :
  can_use_bot upd = true →
  unsubscribe_chat upd rest = inr chat_id →
  py_int arg = Some n →
  smembers (feed_hash chat_id) (db w) = inr subs →
  (1 ≤ n ≤ Z.of_nat (size subs))%Z →
  (∀ u, holds_set (subs_key u) (db w)) →
  ∃ f w',
    unsubscribe upd (arg :: rest) w = (inr tt, w')
    ∧ set_order subs !! Z.to_nat (n - 1) = Some f
    ∧ f ∈ subs
    ∧ ui w' = ui w ++ [ReplyOk (Removed f)]
    ∧ sent w' = sent w
    ∧ feeds_of (db w') chat_id = subs ∖ {[f]}
    ∧ subscribers (db w') f = subscribers (db w) f ∖ {[chat_id]}
    ∧ (subscribers (db w') f = ∅ → ¬ has_marker (db w') f)
    ∧ (subscribers (db w') f ≠ ∅ → db w' !! last_entry_key f = db w !! last_entry_key f)
    ∧ ∀ k, ¬ keys_of chat_id f k → db w' !! k = db w !! k.
Proof.
  intros Hcan Hchat Hint Hsubs Hn Htyped.
  pose proof (unsubscribe_chat_like _ _ _ Hchat) as Hc.
  destruct (unsubscribe_in_range _ _ _ _ _ _ _ Hcan Hchat Hint Hsubs Hn Htyped)
    as (f & d1 & d2 & Hf & Hin & _ & _ & Hrun & Hfeeds & Hmem & Hmark & Hframe).
  eexists f, _. split; [exact Hrun|]. simpl.
  assert (last_entry_key f ≠ feed_hash chat_id) as Hk1
    by (apply not_eq_sym; by apply chat_key_not_marker).
  assert (last_entry_key f ≠ subs_key f) as Hk2
    by apply not_eq_sym, subs_key_not_marker.
  split_and!; [done|done|done|done| | | | |].
  - unfold feeds_of. case_bool_decide; [rewrite members_delete_ne by done|]; done.
  - unfold subscribers in *. case_bool_decide; [rewrite members_delete_ne by done|]; done.
  - unfold subscribers in *. case_bool_decide as Hrem.
    + intros _ [v Hv]. by rewrite lookup_delete_eq in Hv.
    + by rewrite Hmem.
  - unfold subscribers in *. case_bool_decide as Hrem; [|done].
    rewrite members_delete_ne, Hmem by done. done.
  - intros k Hk. case_bool_decide; [|by apply Hframe].
    rewrite lookup_delete_ne; [by apply Hframe|].
    intros <-. apply Hk. unfold keys_of. auto.
Qed.

Lemma unsubscribe_removes_witness :
  ∃ w', @unsubscribe Demo.calm (Update 7) ["1"] Demo.one_reader = (inr tt, w')
        ∧ ui w' = [ReplyOk (Removed Demo.url)]
        ∧ feeds_of (db w') "7" = ∅
        ∧ ¬ has_marker (db w') Demo.url.
Proof.
  destruct (@unsubscribe_removes Demo.calm (Update 7) "1" [] "7" 1 {[Demo.url]} Demo.one_reader)
    as (f & w' & Hrun & Hf & _ & Hui & _ & Hfeeds & Hsubs & Hmark & _).
  - reflexivity.
  - reflexivity.
  - reflexivity.
  - reflexivity.
  - vm_compute. split; discriminate.
  - intros u v Hv. unfold Demo.one_reader in Hv. simpl in Hv.
    destruct (decide (subs_key u = subs_key Demo.url)) as [Heq|Hne].
    + rewrite Heq, lookup_insert_eq in Hv. injection Hv as <-. by eexists.
    + rewrite lookup_insert_ne in Hv by done.
      rewrite lookup_insert_ne in Hv by apply not_eq_sym, subs_key_not_marker.
      destruct (decide (feed_hash "7" = subs_key u)) as [Heq7|Hne7].
      * by apply chat_key_not_subs in Heq7.
      * rewrite lookup_insert_ne, lookup_empty in Hv by done. done.
  - vm_compute in Hf. injection Hf as <-.
    exists w'. split_and!; [exact Hrun|exact Hui| |].
    + rewrite Hfeeds. by vm_compute.
    + apply Hmark. rewrite Hsubs. by vm_compute.
Defined.

(** ** /sub: what it writes *)

Lemma subscribed_from_frame chat_id href entries d d3 k :
  subscribed_from chat_id href entries d d3 →
  ¬ keys_of chat_id href k → d3 !! k = d !! k.
Proof.
  intros (d1 & d2 & H1 & H2 & H3) Hk. unfold keys_of in Hk.
  assert (d1 !! k = d !! k) as E1.
  { destruct H1 as [->|(e0 & i & _ & _ & _ & ->)]; [done|].
    apply lookup_insert_ne. intros <-. tauto. }
  assert (d2 !! k = d1 !! k) as E2.
  { destruct H2 as [->|H2]; [done|]. eapply sadd_other; [done|]. intros ->. tauto. }
  assert (d3 !! k = d2 !! k) as E3.
  { destruct H3 as [->|H3]; [done|]. eapply sadd_other; [done|]. intros ->. tauto. }
  congruence.
Qed.

Lemma subscribed_from_marker chat_id href entries d d3 u :
  chat_like chat_id = true →
  subscribed_from chat_id href entries d d3 →
  has_marker d u → d3 !! last_entry_key u = d !! last_entry_key u.
Proof.
  intros Hc (d1 & d2 & H1 & H2 & H3) [v Hv].
  assert (d1 !! last_entry_key u = d !! last_entry_key u) as E1.
  { destruct H1 as [->|(e0 & i & _ & _ & Hnone & ->)]; [done|].
    apply lookup_insert_ne. intros Heq. rewrite Heq in Hnone. congruence. }
  assert (d2 !! last_entry_key u = d1 !! last_entry_key u) as E2.
  { destruct H2 as [->|H2]; [done|]. eapply sadd_other; [done|].
    apply not_eq_sym, subs_key_not_marker. }
  assert (d3 !! last_entry_key u = d2 !! last_entry_key u) as E3.
  { destruct H3 as [->|H3]; [done|]. eapply sadd_other; [done|].
    apply not_eq_sym. by apply chat_key_not_marker. }
  congruence.
Qed.

(** Whatever [store_subscription] ends with, it has sent and logged
    nothing, and the database is as it was or has the writes of a
    subscription that was not there. *)
Lemma store_subscription_effects chat_id data href w :
  sent (store_subscription chat_id data href w).2 = sent w
  ∧ logged (store_subscription chat_id data href w).2 = logged w
  ∧ (db (store_subscription chat_id data href w).2 = db w
     ∨ ((href ∉ feeds_of (db w) chat_id)
        ∧ subscribed_from chat_id href (p_entries data) (db w)
            (db (store_subscription chat_id data href w).2))).
Proof.
  unfold store_subscription, r_sismember.
  rewrite bind_unfold, bind_unfold. unfold r_smembers, ask.
  destruct (smembers (feed_hash chat_id) (db w)) as [x|s] eqn:Hs; simpl; [auto|].
  apply smembers_members in Hs. fold (feeds_of (db w) chat_id) in Hs. subst s.
  case_bool_decide as Hin; simpl; [auto|].
  rewrite bind_unfold, seed_marker_run.
  assert (∃ r w1, (match p_entries data with
                   | [] => (inr (), w)
                   | e0 :: _ =>
                       if bool_decide (is_Some (db w !! last_entry_key href)) then (inr (), w)
                       else match entry_ident e0 with
                            | Some i => (inr (), with_db w (<[last_entry_key href:=RStr i]> (db w)))
                            | None => (inl (KeyError "link"), w)
                            end
                   end) = (r, w1)
                  ∧ sent w1 = sent w ∧ logged w1 = logged w
                  ∧ (r ≠ inr tt → w1 = w)
                  ∧ (db w1 = db w
                     ∨ ∃ e0 i, head (p_entries data) = Some e0 ∧ entry_ident e0 = Some i
                               ∧ db w !! last_entry_key href = None
                               ∧ db w1 = <[last_entry_key href := RStr i]> (db w)))
    as (r & w1 & -> & Hsent1 & Hlog1 & Hfail & Hd1).
  { destruct (p_entries data) as [|e0 rest]; [eexists _, _; split_and!; eauto; done|].
    case_bool_decide as Hknown; [eexists _, _; split_and!; eauto; done|].
    destruct (entry_ident e0) as [i|] eqn:Hi; [|eexists _, _; split_and!; eauto; done].
    eexists _, _; split_and!; [done|done|done|done|]. right. exists e0, i. split_and!; [done|done| |done].
    by apply eq_None_not_Some. }
  destruct r as [x|[]]; [rewrite (Hfail ltac:(done)); auto|].
  rewrite <- Hsent1, <- Hlog1.
  unfold r_sadd, run, reply. rewrite !bind_unfold. simpl.
  destruct (sadd (subs_key href) chat_id (db w1)) as [x|d2] eqn:Hd2; simpl.
  { split_and!; [done|done|]. right. split; [done|].
    exists (db w1), (db w1). split_and!; auto. }
  rewrite !bind_unfold. simpl.
  destruct (sadd (feed_hash chat_id) href d2) as [x|d3] eqn:Hd3; simpl.
  { split_and!; [done|done|]. right. split; [done|].
    exists (db w1), d2. split_and!; auto. }
  split_and!; [done|done|]. right. split; [done|].
  exists (db w1), d2. split_and!; auto.
Qed.

Lemma subscribe_effects `{Env} upd args w :
  sent (subscribe upd args w).2 = sent w
  ∧ logged (subscribe upd args w).2 = logged w
  ∧ (db (subscribe upd args w).2 = db w
     ∨ ∃ chat_id data href,
         accepted upd args chat_id data href
         ∧ (href ∉ feeds_of (db w) chat_id)
         ∧ subscribed_from chat_id href (p_entries data) (db w) (db (subscribe upd args w).2)).
Proof.
  unfold subscribe.
  destruct (can_use_bot upd) eqn:Hcan; simpl; [|auto].
  destruct args as [|feed_url rest]; [auto|].
  destruct (looks_like_url feed_url) eqn:Hurl; simpl; [|auto].
  destruct (subscribe_chat upd rest) as [p|chat_id] eqn:Hchat; [auto|].
  rewrite bind_unfold. simpl.
  destruct (f_link (p_feed (feedparser_parse feed_url))) as [l|] eqn:Hl; [|auto].
  destruct (p_href (feedparser_parse feed_url)) as [href|] eqn:Hhref; [|auto].
  destruct (store_subscription_effects chat_id (feedparser_parse feed_url) href
              (World (db w) (sent w) (ui w ++ [Typing (u_chat_id upd)]) (logged w)))
    as (Hsent & Hlog & Hdb).
  split_and!; [done|done|].
  destruct Hdb as [Hdb|[Hnew Hfrom]]; [by left|]. right.
  exists chat_id, (feedparser_parse feed_url), href. split_and!; [|done|done].
  exists feed_url, rest. by split_and!.
Qed.

(** X3.  /sub never sends a feed message and logs nothing.  It changes the
    database only for a request that passes every check and names a feed the
    chat does not follow yet, and then it changes no key but the three of
    that subscription: the set of the chat, the subscribers of the feed, the
    marker of the feed. *)
Theorem subscribe_writes_three_keys `{Env} upd args w :
  sent (subscribe upd args w).2 = sent w
  ∧ logged (subscribe upd args w).2 = logged w
  ∧ (db (subscribe upd args w).2 = db w
     ∨ ∃ chat_id data href,
         accepted upd args chat_id data href
         ∧ (href ∉ feeds_of (db w) chat_id)
         ∧ ∀ k, ¬ keys_of chat_id href k → db (subscribe upd args w).2 !! k = db w !! k).
Proof.
  destruct (subscribe_effects upd args w) as (Hsent & Hlog & Hdb).
  split_and!; [done|done|].
  destruct Hdb as [Hdb|(chat_id & data & href & Hacc & Hnew & Hfrom)]; [by left|].
  right. exists chat_id, data, href. split_and!; [done|done|].
  intros k Hk. by eapply subscribed_from_frame.
Qed.

(** X4.  /sub never replaces or deletes a marker that is stored: a feed that
    has one keeps it, whoever subscribes to whatever. *)
Theorem subscribe_keeps_markers `{Env} upd args w u :
  has_marker (db w) u →
  db (subscribe upd args w).2 !! last_entry_key u = db w !! last_entry_key u.
Proof.
  intros Hu.
  destruct (subscribe_effects upd args w) as (_ & _ & Hdb).
  destruct Hdb as [->|(chat_id & data & href & Hacc & _ & Hfrom)]; [done|].
  eapply subscribed_from_marker; [|done|done].
  destruct Hacc as (? & ? & _ & _ & _ & Hc & _). by eapply subscribe_chat_like.
Qed.

Lemma subscribe_keeps_markers_witness :
  db (@subscribe Demo.calm (Update 9) [Demo.url] Demo.one_reader).2 !! last_entry_key Demo.url
  = Some (RStr "e2").
Proof.
  rewrite (@subscribe_keeps_markers Demo.calm (Update 9) [Demo.url] Demo.one_reader Demo.url).
  - reflexivity.
  - exists (RStr "e2"). reflexivity.
Defined.

(** ** /sub and /del keep the two indexes in step *)

Lemma members_agree d d' key : d' !! key = d !! key → members d' key = members d key.
Proof. unfold members. by intros ->. Qed.

Lemma linked_subscribe chat_id href d d1 d2 d3 :
  chat_like chat_id = true →
  linked d →
  (∀ k, k ≠ last_entry_key href → d1 !! k = d !! k) →
  sadd (subs_key href) chat_id d1 = inr d2 →
  sadd (feed_hash chat_id) href d2 = inr d3 →
  linked d3.
Proof.
  intros Hc Hlinked Hseed Hd2 Hd3 c u Hcl.
  destruct (sadd_members _ _ _ _ Hd2) as [Hm2 Ho2].
  destruct (sadd_members _ _ _ _ Hd3) as [Hm3 Ho3].
  assert (∀ k, k ≠ last_entry_key href → members d1 k = members d k) as Hm1.
  { intros k Hk. apply members_agree. by apply Hseed. }
  assert (subscribers d3 u = if decide (u = href) then {[chat_id]} ∪ subscribers d u
                             else subscribers d u) as ->.
  { unfold subscribers. rewrite (members_agree d2 d3)
      by (apply Ho3, not_eq_sym; by apply chat_key_not_subs).
    destruct (decide (u = href)) as [->|Hu].
    - rewrite Hm2, Hm1; [done|apply subs_key_not_marker].
    - rewrite (members_agree d1 d2) by (apply Ho2; by intros ?%subs_key_inj).
      apply Hm1, subs_key_not_marker. }
  assert (feeds_of d3 c = if decide (c = chat_id) then {[href]} ∪ feeds_of d c
                          else feeds_of d c) as ->.
  { unfold feeds_of. destruct (decide (c = chat_id)) as [->|Hne].
    - rewrite Hm3. rewrite (members_agree d1 d2) by (apply Ho2; by apply chat_key_not_subs).
      rewrite Hm1; [done|by apply chat_key_not_marker].
    - rewrite (members_agree d2 d3) by (apply Ho3; by intros ?%feed_hash_inj).
      rewrite (members_agree d1 d2) by (apply Ho2; by apply chat_key_not_subs).
      apply Hm1. by apply chat_key_not_marker. }
  specialize (Hlinked c u Hcl).
  destruct (decide (u = href)) as [->|Hu], (decide (c = chat_id)) as [->|Hcc]; set_solver.
Qed.

Lemma linked_unsubscribe chat_id f d d1 d2 d3 :
  chat_like chat_id = true →
  linked d →
  srem (feed_hash chat_id) f d = inr d1 →
  srem (subs_key f) chat_id d1 = inr d2 →
  d3 = d2 ∨ d3 = delete (last_entry_key f) d2 →
  linked d3.
Proof.
  intros Hc Hlinked Hd1 Hd2 Hd3 c u Hcl.
  destruct (srem_members _ _ _ _ Hd1) as [Hm1 Ho1].
  destruct (srem_members _ _ _ _ Hd2) as [Hm2 Ho2].
  assert (∀ k, k ≠ last_entry_key f → members d3 k = members d2 k) as Hm3.
  { intros k Hk. destruct Hd3 as [->| ->]; [done|]. by apply members_delete_ne. }
  assert (subscribers d3 u = if decide (u = f) then subscribers d u ∖ {[chat_id]}
                             else subscribers d u) as ->.
  { unfold subscribers. rewrite Hm3 by apply subs_key_not_marker.
    destruct (decide (u = f)) as [->|Hu].
    - rewrite Hm2. f_equal. apply members_agree, Ho1, not_eq_sym. by apply chat_key_not_subs.
    - rewrite (members_agree d1 d2) by (apply Ho2; by intros ?%subs_key_inj).
      apply members_agree, Ho1, not_eq_sym. by apply chat_key_not_subs. }
  assert (feeds_of d3 c = if decide (c = chat_id) then feeds_of d c ∖ {[f]}
                          else feeds_of d c) as ->.
  { unfold feeds_of. rewrite Hm3 by (by apply chat_key_not_marker).
    destruct (decide (c = chat_id)) as [->|Hne].
    - rewrite (members_agree d1 d2) by (apply Ho2; by apply chat_key_not_subs). done.
    - rewrite (members_agree d1 d2) by (apply Ho2; by apply chat_key_not_subs).
      apply members_agree, Ho1. by intros ?%feed_hash_inj. }
  specialize (Hlinked c u Hcl).
  destruct (decide (u = f)) as [->|Hu], (decide (c = chat_id)) as [->|Hcc]; set_solver.
Qed.

Lemma unsubscribe_cases `{Env} upd args w w1 :
  unsubscribe upd args w = (inr tt, w1) →
  db w1 = db w ∨
  ∃ chat_id f d1 d2,
    chat_like chat_id = true
    ∧ srem (feed_hash chat_id) f (db w) = inr d1
    ∧ srem (subs_key f) chat_id d1 = inr d2
    ∧ (db w1 = d2 ∨ db w1 = delete (last_entry_key f) d2).
Proof.
  unfold unsubscribe.
  destruct (can_use_bot upd); simpl; [|intros [= <-]; by left].
  destruct args as [|arg rest]; [intros [= <-]; by left|].
  destruct (unsubscribe_chat upd rest) as [p|chat_id] eqn:Hchat; [intros [= <-]; by left|].
  apply unsubscribe_chat_like in Hchat.
  destruct (py_int arg) as [n|]; [|intros [= <-]; by left].
  rewrite bind_unfold. unfold r_smembers, ask at 1.
  destruct (smembers (feed_hash chat_id) (db w)) as [x|subs]; [done|]. simpl.
  case_bool_decide; [intros [= <-]; by left|].
  case_bool_decide; [intros [= <-]; by left|].
  destruct (set_order subs !! Z.to_nat (n - 1)) as [f|]; [|done].
  rewrite bind_unfold. unfold r_srem.
  destruct (run (srem (feed_hash chat_id) f) w) as [[x|[]] w2] eqn:Hrem1; [done|].
  apply run_ok in Hrem1 as (d1 & Hrem1 & ->).
  rewrite bind_unfold.
  destruct (run (srem (subs_key f) chat_id) (with_db w d1)) as [[x|[]] w3] eqn:Hrem2;
    [done|].
  apply run_ok in Hrem2 as (d2 & Hrem2 & ->). simpl in Hrem2.
  rewrite bind_unfold. unfold ask at 1. simpl.
  destruct (smembers (subs_key f) d2) as [x|remaining] eqn:Hrem; [done|].
  rewrite bind_unfold. intros Hrun. right. exists chat_id, f, d1, d2.
  split_and!; [done|done|done|].
  revert Hrun. case_bool_decide; unfold r_delete, run, reply; simpl; intros [= <-]; auto.
Qed.

(** X5.  A /sub or a /del that ends without an exception keeps the two
    indexes in step: if, for every chat, the feeds in the set of the chat
    are the feeds that have the chat among their subscribers, this is so
    afterwards. *)
Theorem commands_keep_linked `{Env} upd args w w' :
  linked (db w) →
  subscribe upd args w = (inr tt, w') ∨ unsubscribe upd args w = (inr tt, w') →
  linked (db w').
Proof.
  intros Hlinked [Hrun|Hrun].
  - destruct (subscribe_cases _ _ _ _ Hrun) as [->|(chat_id & data & href & Hacc & Hstore)];
      [done|].
    destruct (store_subscription_cases _ _ _ _ _ Hstore)
      as [->|(w1 & d2 & d3 & Hseed & Hd2 & Hd3 & ->)]; [done|].
    eapply (linked_subscribe chat_id href (db w) (db w1)); [|done| |done|done].
    + destruct Hacc as (? & ? & _ & _ & _ & Hc & _). by eapply subscribe_chat_like.
    + intros k Hk. rewrite seed_marker_run in Hseed.
      destruct (p_entries data) as [|e0 ?]; [by injection Hseed as <-|].
      case_bool_decide; [by injection Hseed as <-|].
      destruct (entry_ident e0); [|done]. injection Hseed as <-. simpl.
      by rewrite lookup_insert_ne.
  - destruct (unsubscribe_cases _ _ _ _ Hrun)
      as [->|(chat_id & f & d1 & d2 & Hc & Hd1 & Hd2 & Hd3)]; [done|].
    by eapply linked_unsubscribe.
Qed.

Lemma commands_keep_linked_witness : linked (db Demo.subscribed).
Proof.
  apply (@commands_keep_linked Demo.calm (Update 7) [Demo.url] Demo.fresh Demo.subscribed).
  - intros c u _. unfold subscribers, feeds_of, members. simpl. by rewrite !lookup_empty.
  - left. reflexivity.
Defined.

(** ** /sub, then /del of the same feed *)

(** Removing from a set the member that was just added gives back what the
    key held, when no set is stored empty. *)
Lemma srem_after_sadd key x da db dc dd :
  sadd key x da = inr db →
  dc !! key = db !! key →
  srem key x dc = inr dd →
  x ∉ members da key →
  (∀ s, da !! key = Some (RSet s) → s ≠ ∅) →
  dd !! key = da !! key.
Proof.
  intros Hadd Hsame Hrem Hnew Hfull.
  destruct (sadd_lookup _ _ _ _ Hadd) as (s & -> & _ & ->).
  rewrite lookup_insert_eq in Hsame.
  unfold srem in Hrem. rewrite Hsame in Hrem.
  assert (({[x]} ∪ members da key) ∖ {[x]} = members da key) as Heq by set_solver.
  rewrite Heq in Hrem. unfold sadd in Hadd. unfold members in *.
  destruct (da !! key) as [[v|s0]|] eqn:Hk; [done| |].
  - rewrite bool_decide_false in Hrem by by apply Hfull.
    injection Hrem as <-. by rewrite lookup_insert_eq.
  - rewrite bool_decide_true in Hrem by done.
    injection Hrem as <-. by rewrite lookup_delete_eq.
Qed.

(** X6.  A chat subscribes to a feed and removes it again, by the position
    the feed then has in its list: the database is what it was before the
    two commands, the marker included, when the store was well formed and
    the chat was not among the subscribers of the feed. *)
Theorem subscribe_then_unsubscribe `{Env}
    upd args chat_id data href title w w1 upd' arg rest n :
  store_ok (db w) →
  chat_id ∉ subscribers (db w) href →
  accepted upd args chat_id data href →
  subscribe upd args w = (inr tt, w1) →
  ui w1 = ui w ++ [Typing (u_chat_id upd); ReplyOk (Added title)] →
  can_use_bot upd' = true →
  unsubscribe_chat upd' rest = inr chat_id →
  py_int arg = Some n →
  (1 ≤ n)%Z →
  set_order (feeds_of (db w1) chat_id) !! Z.to_nat (n - 1) = Some href →
  unsubscribe upd' (arg :: rest) w1 =
    (inr tt, World (db w) (sent w) (ui w1 ++ [ReplyOk (Removed href)]) (logged w)).
Proof.
  intros [Hbase Hmarkers] Hnot Hacc Hsub Hui Hcan Hchat Hint Hpos Hat.
  pose proof (unsubscribe_chat_like _ _ _ Hchat) as Hc.
  rewrite (subscribe_accepted _ _ _ _ _ _ Hacc) in Hsub.
  eapply (store_subscription_added _ _ _ _ _ title) in Hsub;
    [|by rewrite Hui; simpl; rewrite <- app_assoc].
  destruct Hsub as (s & w0 & d2 & d3 & Hs & Hnew & Hseed & Hd2 & Hd3 & Hdb & Hsent & Hlog).
  simpl in Hs. apply smembers_members in Hs as Hs'.
  rewrite seed_marker_run in Hseed.
  assert (sent w0 = sent w ∧ logged w0 = logged w
          ∧ (∀ k, k ≠ last_entry_key href → db w0 !! k = db w !! k)
          ∧ (has_marker (db w) href → db w0 = db w)) as (Hsent0 & Hlog0 & Hframe0 & Hkept).
  { destruct (p_entries data) as [|e0 ?]; [by injection Hseed as <-|].
    simpl in Hseed. case_bool_decide as Hknown; [by injection Hseed as <-|].
    destruct (entry_ident e0); [|done]. injection Hseed as <-. simpl.
    split_and!; [done|done| |done]. intros k Hk. by rewrite lookup_insert_ne. }
  assert (∀ u, holds_set (subs_key u) (db w1)) as Htyped.
  { intros u v. rewrite Hdb.
    rewrite (sadd_other _ _ _ _ _ Hd3) by (apply not_eq_sym; by apply chat_key_not_subs).
    destruct (decide (u = href)) as [->|Hu].
    - destruct (sadd_lookup _ _ _ _ Hd2) as (s2 & -> & _).
      rewrite lookup_insert_eq. intros [= <-]. by eexists.
    - rewrite (sadd_other _ _ _ _ _ Hd2) by (by intros ?%subs_key_inj).
      rewrite Hframe0 by apply subs_key_not_marker. apply Hbase. }
  assert (smembers (feed_hash chat_id) (db w1) = inr (feeds_of (db w1) chat_id)) as Hsm.
  { rewrite Hdb. destruct (sadd_lookup _ _ _ _ Hd3) as (s3 & -> & _).
    unfold smembers, feeds_of, members. by rewrite lookup_insert_eq. }
  assert (n ≤ Z.of_nat (size (feeds_of (db w1) chat_id)))%Z as Hhi.
  { apply lookup_lt_Some in Hat. rewrite set_order_length in Hat. lia. }
  destruct (unsubscribe_in_range _ _ _ _ _ _ _ Hcan Hchat Hint Hsm (conj Hpos Hhi) Htyped)
    as (f & d1u & d2u & Hf & _ & Hd1u & Hd2u & Hrun & _ & Hrem & Hmark & Hframe).
  rewrite Hat in Hf. injection Hf as <-.
  rewrite Hrun, Hsent, Hsent0, Hlog, Hlog0. f_equal. f_equal.
  assert (subscribers (db w1) href ∖ {[chat_id]} = subscribers (db w) href) as Hback.
  { unfold subscribers. rewrite Hdb.
    rewrite (members_agree d2 d3)
      by (eapply sadd_other; [done|]; apply not_eq_sym; by apply chat_key_not_subs).
    destruct (sadd_members _ _ _ _ Hd2) as [-> _].
    rewrite (members_agree (db w) (db w0)) by apply Hframe0, subs_key_not_marker.
    unfold subscribers in Hnot. set_solver. }
  rewrite Hback.
  assert (last_entry_key href ≠ feed_hash chat_id) as Hk1
    by (apply not_eq_sym; by apply chat_key_not_marker).
  assert (last_entry_key href ≠ subs_key href) as Hk2
    by apply not_eq_sym, subs_key_not_marker.
  assert (feed_hash chat_id ≠ subs_key href) as Hk3 by (by apply chat_key_not_subs).
  assert (d2u !! feed_hash chat_id = db w !! feed_hash chat_id) as Echat.
  { rewrite (srem_other _ _ _ _ _ Hd2u) by done.
    rewrite <- (Hframe0 (feed_hash chat_id)) by done.
    rewrite <- (sadd_other _ _ _ _ _ Hd2) by done.
    eapply (srem_after_sadd _ _ _ _ (db w1)); [exact Hd3|by rewrite Hdb|exact Hd1u| |].
    - rewrite (members_agree (db w0) d2) by (by eapply sadd_other).
      rewrite (members_agree (db w) (db w0)) by (by apply Hframe0).
      by rewrite Hs'.
    - intros s0. rewrite (sadd_other _ _ _ _ _ Hd2) by done.
      rewrite Hframe0 by done. apply Hbase. }
  assert (d2u !! subs_key href = db w !! subs_key href) as Esubs.
  { rewrite <- (Hframe0 (subs_key href)) by done.
    eapply (srem_after_sadd _ _ _ _ d1u); [exact Hd2| |exact Hd2u| |].
    - rewrite (srem_other _ _ _ _ _ Hd1u) by done. rewrite Hdb.
      by eapply sadd_other.
    - rewrite (members_agree (db w) (db w0)) by (by apply Hframe0). done.
    - intros s0. rewrite Hframe0 by done. apply Hbase. }
  apply map_eq. intros k.
  destruct (decide (k = last_entry_key href)) as [->|Hkm].
  - destruct (decide (subscribers (db w) href = ∅)) as [Hempty|Hempty];
      [rewrite bool_decide_true by done|rewrite bool_decide_false by done].
    + rewrite lookup_delete_eq. symmetry. apply eq_None_not_Some.
      intros Hhas. by apply (Hmarkers href) in Hhas.
    + rewrite Hmark, Hdb.
      rewrite (sadd_other _ _ _ _ _ Hd3), (sadd_other _ _ _ _ _ Hd2) by done.
      rewrite Hkept; [done|]. by apply (Hmarkers href).
  - assert ((if bool_decide (subscribers (db w) href = ∅)
             then delete (last_entry_key href) d2u else d2u) !! k = d2u !! k) as ->.
    { destruct (decide (subscribers (db w) href = ∅));
        [rewrite bool_decide_true by done|rewrite bool_decide_false by done];
        [by rewrite lookup_delete_ne|done]. }
    destruct (decide (k = feed_hash chat_id)) as [->|Hkc]; [done|].
    destruct (decide (k = subs_key href)) as [->|Hks]; [done|].
    rewrite Hframe by (unfold keys_of; tauto).
    rewrite Hdb, (sadd_other _ _ _ _ _ Hd3), (sadd_other _ _ _ _ _ Hd2) by done.
    by apply Hframe0.
Qed.

Lemma subscribe_then_unsubscribe_witness :
  @unsubscribe Demo.calm (Update 7) ["1"] Demo.subscribed =
    (inr tt, World ∅ [] [Typing 7; ReplyOk (Added "Example"); ReplyOk (Removed Demo.url)] []).
Proof.
  apply (@subscribe_then_unsubscribe Demo.calm (Update 7) [Demo.url] "7" (Demo.web Demo.url)
           Demo.url "Example" Demo.fresh Demo.subscribed (Update 7) "1" [] 1%Z).
  - exact store_ok_empty.
  - unfold subscribers, members. simpl. rewrite lookup_empty. set_solver.
  - exact demo_accepted.
  - reflexivity.
  - reflexivity.
  - reflexivity.
  - reflexivity.
  - reflexivity.
  - lia.
  - by vm_compute.
Defined.

(** ** The keys a tick lists *)

(** X7.  Every key that the pattern of [run_job] lists is the subscriber key
    of one feed URL, and the regular expression of [check_feed] gives that
    URL back, unless it is empty or contains a newline: for those two kinds
    of key the match fails. *)
Theorem listed_key_parses key :
  is_subs_key key = true →
  ∃ u, key = subs_key u
       ∧ match_subs_key key =
           (if bool_decide (u = "") || has_char newline u then None else Some u).
Proof.
  intros (u & ->)%is_subs_key_inv. exists u. split; [done|].
  unfold match_subs_key, subs_key, feed_hash.
  rewrite strip_prefix_app. simpl. rewrite strip_suffix_app. simpl.
  destruct u as [|a u]; [done|]. rewrite bool_decide_false by done. simpl.
  by destruct (_ || _).
Qed.

Lemma listed_key_parses_witness :
  ∃ u, subs_key Demo.url = subs_key u ∧ match_subs_key (subs_key Demo.url) = Some u.
Proof.
  destruct (listed_key_parses (subs_key Demo.url)) as (u & Hu & Hm).
  - reflexivity.
  - apply subs_key_inj in Hu. subst u. exists Demo.url. split; [reflexivity|exact Hm].
Defined.

(** ** The URL check of /sub *)

Lemma has_char_app c s t : has_char c (s +:+ t) = has_char c s || has_char c t.
Proof. induction s as [|a s IH]; sapp; simpl; [done|]. by rewrite IH, orb_assoc. Qed.

Lemma url_tail_chars c r :
  url_tail r = true → url_char c = false → c ≠ newline → has_char c r = false.
Proof.
  intros Hr Hc Hnl. induction r as [|a r IH]; simpl in *; [done|].
  destruct (url_char a) eqn:Ha.
  - rewrite IH by done. destruct (Ascii.eqb_spec a c) as [->|]; [congruence|done].
  - apply andb_prop in Hr as [Ha'%Ascii.eqb_eq Hr%bool_decide_eq_true]. subst.
    cbn [has_char]. destruct (Ascii.eqb_spec newline c) as [Heq|Hne]; [by destruct Hnl|done].
Qed.

Lemma looks_like_url_inv s :
  looks_like_url s = true →
  ∃ scheme c r, (scheme = "http://" ∨ scheme = "https://")
                ∧ s = scheme +:+ String c r ∧ url_char c = true ∧ url_tail r = true.
Proof.
  unfold looks_like_url.
  destruct (strip_prefix "http" s) as [rest|] eqn:Hp; [|done].
  apply strip_prefix_Some in Hp. subst s.
  destruct (strip_prefix "s" rest) as [rest'|] eqn:Hs; cbn [from_option id].
  - apply strip_prefix_Some in Hs. subst rest.
    destruct (strip_prefix "://" rest') as [[|c r]|] eqn:Hc; [done| |done].
    apply strip_prefix_Some in Hc. subst rest'.
    intros [? ?]%andb_prop. exists "https://", c, r. auto.
  - destruct (strip_prefix "://" rest) as [[|c r]|] eqn:Hc; [done| |done].
    apply strip_prefix_Some in Hc. subst rest.
    intros [? ?]%andb_prop. exists "http://", c, r. auto.
Qed.

Lemma looks_like_url_chars s c :
  looks_like_url s = true → url_char c = false → c ≠ newline → has_char c s = false.
Proof.
  intros (scheme & a & r & Hscheme & -> & Ha & Hr)%looks_like_url_inv Hc Hnl.
  assert (∀ b, url_char b = true → Ascii.eqb b c = false) as Hb.
  { intros b Hb. destruct (Ascii.eqb_spec b c) as [->|]; [congruence|done]. }
  rewrite has_char_app. cbn [has_char].
  rewrite (url_tail_chars c r), (Hb a) by done.
  destruct Hscheme as [-> | ->]; cbn [has_char]; rewrite !Hb by reflexivity; done.
Qed.

(** X8.  An argument of /sub that does not begin with [http://] or
    [https://], or that contains a character the pattern of line 164 has no
    class for (a space, a double quote, [#], a backquote, a brace, a byte
    above 126), is answered "That doesn't look like an URL.": nothing is
    stored, sent or logged. *)
Theorem subscribe_refuses_non_url `{Env} upd feed_url rest w :
  can_use_bot upd = true →
  (strip_prefix "http://" feed_url = None ∧ strip_prefix "https://" feed_url = None)
  ∨ (∃ c, url_char c = false ∧ c ≠ newline ∧ has_char c feed_url = true) →
  subscribe upd (feed_url :: rest) w =
    (inr tt, World (db w) (sent w) (ui w ++ [ReplyErr NotAnUrl]) (logged w)).
Proof.
  intros Hcan Hbad. unfold subscribe. rewrite Hcan. simpl.
  destruct (looks_like_url feed_url) eqn:Hurl; [|done]. exfalso.
  destruct Hbad as [[H1 H2]|(c & Hc & Hnl & Hin)].
  - apply looks_like_url_inv in Hurl as (scheme & a & r & [-> | ->] & -> & _).
    + by rewrite strip_prefix_app in H1.
    + by rewrite strip_prefix_app in H2.
  - by rewrite (looks_like_url_chars _ _ Hurl Hc Hnl) in Hin.
Qed.

Lemma subscribe_refuses_non_url_witness :
  @subscribe Demo.calm (Update 7) ["http://example.com/feed#top"] Demo.fresh =
    (inr tt, World ∅ [] [ReplyErr NotAnUrl] [])
  ∧ @subscribe Demo.calm (Update 7) ["example.com/feed"] Demo.fresh =
    (inr tt, World ∅ [] [ReplyErr NotAnUrl] []).
Proof.
  split.
  - apply (@subscribe_refuses_non_url Demo.calm (Update 7) "http://example.com/feed#top" []
             Demo.fresh); [reflexivity|].
    right. exists "#"%char. split_and!; [reflexivity|discriminate|reflexivity].
  - apply (@subscribe_refuses_non_url Demo.calm (Update 7) "example.com/feed" []
             Demo.fresh); [reflexivity|].
    left. split; reflexivity.
Defined.

(** ** The title of a rendered entry *)

Lemma has_char_replace_same c by_ s :
  has_char c by_ = false → has_char c (replace_char c by_ s) = false.
Proof.
  intros Hby. induction s as [|a s IH]; simpl; [done|].
  destruct (Ascii.eqb a c) eqn:Ha.
  - by rewrite has_char_app, Hby, IH.
  - simpl. by rewrite Ha, IH.
Qed.

Lemma has_char_replace_other c c' by_ s :
  has_char c by_ = false → has_char c s = false →
  has_char c (replace_char c' by_ s) = false.
Proof.
  intros Hby. induction s as [|a s IH]; simpl; [done|].
  intros [Ha Hs]%orb_false_elim.
  destruct (Ascii.eqb a c').
  - by rewrite has_char_app, Hby, IH.
  - simpl. by rewrite Ha, IH.
Qed.

Lemma replace_char_absent c by_ s : has_char c s = false → replace_char c by_ s = s.
Proof.
  induction s as [|a s IH]; simpl; [done|].
  intros [Ha Hs]%orb_false_elim. by rewrite Ha, IH.
Qed.



(** ** A cycle the transport does not disturb *)

Lemma tame_same K {A} (m : M A) : quiet m → (∀ w, db (m w).2 = db w) → tame K m.
Proof.
  intros Hq Hsame w. exists []. rewrite app_nil_r. split; [apply Hq|].
  intros _ k _. by rewrite Hsame.
Qed.

Lemma tame_bind K {A B} (m : M A) (k : A → M B) :
  tame K m → (∀ a, tame K (k a)) → tame K (m ≫= k).
Proof.
  intros Hm Hk w. rewrite bind_unfold.
  destruct (Hm w) as (g1 & Hg1 & Hd1).
  destruct (m w) as [[e|a] w1]; simpl in *.
  - exists g1. by split.
  - destruct (Hk a w1) as (g2 & Hg2 & Hd2). exists (g1 ++ g2). split.
    + by rewrite Hg2, Hg1, app_assoc.
    + intros [H1 H2]%Forall_app k' Hk'. rewrite Hd2, Hd1 by done. done.
Qed.

Lemma tame_for_each K {A} (xs : list A) (body : A → M unit) :
  (∀ x, tame K (body x)) → tame K (for_each xs body).
Proof.
  intros Hbody. induction xs as [|x xs IH]; simpl.
  - apply tame_same; [apply quiet_ret|done].
  - apply tame_bind; [apply Hbody|by intros []].
Qed.

Lemma tame_weaken (K K' : string → Prop) {A} (m : M A) :
  (∀ k, K k → K' k) → tame K m → tame K' m.
Proof.
  intros HK Hm w. destruct (Hm w) as (g & Hg & Hd). exists g. split; [done|].
  intros Hall k Hk. apply Hd; [done|]. intros ?. by apply Hk, HK.
Qed.

Lemma deliver_tame `{Env} key text member : tame (λ _, False) (deliver key text member).
Proof.
  intros w. rewrite deliver_run.
  generalize (send_message (sent w) member text). intros o.
  destruct (react_emits key text member o
              (World (db w) (sent w ++ [Delivery member text o]) (ui w) (logged w)))
    as (g & Hg & _).
  exists (Delivery member text o :: g). split.
  - rewrite Hg. simpl. by rewrite <- app_assoc.
  - intros Hall%Forall_cons_1 k _. destruct Hall as [Ho _]. simpl in Ho.
    by destruct o.
Qed.

Lemma deliver_entry_tame `{Env} key data title e :
  tame (λ _, False) (deliver_entry key data title e).
Proof.
  unfold deliver_entry.
  apply tame_bind; [apply tame_same; [apply quiet_lift|done]|intros text].
  apply tame_bind; [apply tame_same; [solve_quiet|done]|intros members].
  apply tame_for_each. intros m. apply deliver_tame.
Qed.

(** The end of a cycle (lines 345-355) sends nothing and writes at most
    the marker. *)
Lemma advance_marker_effects u new_entries w :
  sent (advance_marker (last_entry_key u) new_entries w).2 = sent w
  ∧ (∀ k, k ≠ last_entry_key u →
       db (advance_marker (last_entry_key u) new_entries w).2 !! k = db w !! k)
  ∧ (has_marker (db w) u → has_marker (db (advance_marker (last_entry_key u) new_entries w).2) u)
  ∧ ((advance_marker (last_entry_key u) new_entries w).1 ≠ inr tt →
       db (advance_marker (last_entry_key u) new_entries w).2 = db w).
Proof.
  destruct new_entries as [|e0 rest]; [done|]. rewrite advance_marker_run.
  destruct (entry_ident e0) as [i|]; [|done]. simpl. split_and!; [done| | |done].
  - intros k Hk. by rewrite lookup_insert_ne.
  - intros _. unfold has_marker. rewrite lookup_insert_eq. by eexists.
Qed.

(** X10.  A cycle in which the transport reports no chat as unauthorized or
    as migrated (every message is delivered, times out, is refused as a bad
    request, or fails with an error that nothing catches) changes no key of
    the store but the marker of its feed; and it does not delete that marker
    when the feed had a subscriber key at the start. *)
Theorem check_feed_undisturbed `{Env} u w g :
  sent (check_feed (subs_key u) w).2 = sent w ++ g →
  Forall (λ d, settled (d_outcome d) = true) g →
  (∀ k, k ≠ last_entry_key u → db (check_feed (subs_key u) w).2 !! k = db w !! k)
  ∧ (is_Some (db w !! subs_key u) → has_marker (db w) u →
     has_marker (db (check_feed (subs_key u) w).2) u).
Proof.
  unfold check_feed.
  destruct (match_subs_key (subs_key u)) as [v|] eqn:Hmatch; [|done].
  pose proof (match_subs_key_inv _ _ Hmatch) as ->.
  rewrite bind_unfold. simpl.
  destruct (f_link (p_feed (feedparser_parse u))) as [l|].
  2:{ intros _ _. destruct (p_status _) as [st|], (p_bozo_exception _) as [b|];
        try case_bool_decide; done. }
  rewrite bind_unfold. unfold r_get, ask. simpl.
  destruct (get (last_entry_key u) (db w)) as [x|last]; [done|].
  rewrite bind_unfold.
  match goal with
  | |- context [for_each ?es ?body ?w0] =>
      destruct (tame_for_each (λ _, False) es body
                  (λ e, deliver_entry_tame _ _ _ e) w0) as (g1 & Hg1 & Hd1);
      destruct (for_each es body w0) as [[x|[]] w1] eqn:Hloop
  end; simpl in Hg1, Hd1.
  - simpl. rewrite Hg1. intros <-%app_inv_head Hall.
    pose proof (λ k, Hd1 Hall k (λ x, x)) as Hsame.
    split; [intros k _; apply Hsame|]. intros _ [v Hv]. exists v. by rewrite Hsame.
  - rewrite bind_unfold. unfold r_exists, ask. simpl.
    case_bool_decide as Hstill; simpl.
    + destruct (advance_marker_effects u (get_new_entries (p_entries (feedparser_parse u)) last)
                  w1) as (Hs & Hf & Hm & _).
      rewrite Hs, Hg1. intros <-%app_inv_head Hall.
      pose proof (λ k, Hd1 Hall k (λ x, x)) as Hsame. split.
      * intros k Hk. rewrite Hf by done. apply Hsame.
      * intros _ [v Hv]. apply Hm. exists v. by rewrite Hsame.
    + unfold r_delete, run. simpl. rewrite Hg1. intros <-%app_inv_head Hall.
      pose proof (λ k, Hd1 Hall k (λ x, x)) as Hsame. split.
      * intros k Hk. rewrite lookup_delete_ne by done. apply Hsame.
      * intros Hkey. rewrite <- (Hsame (subs_key u)) in Hkey. done.
Qed.

Lemma check_feed_undisturbed_witness :
  db (@check_feed (Demo.env Demo.web (Demo.always TimedOut)) (subs_key Demo.url)
        Demo.one_reader).2 !! feed_hash "7" = Some (RSet {[Demo.url]})
  ∧ has_marker (db (@check_feed (Demo.env Demo.web (Demo.always TimedOut)) (subs_key Demo.url)
                      Demo.one_reader).2) Demo.url.
Proof.
  destruct (@check_feed_undisturbed (Demo.env Demo.web (Demo.always TimedOut)) Demo.url
              Demo.one_reader
              (sent (@check_feed (Demo.env Demo.web (Demo.always TimedOut)) (subs_key Demo.url)
                       Demo.one_reader).2)) as [Hframe Hmark].
  - reflexivity.
  - vm_compute. repeat constructor.
  - split.
    + rewrite Hframe; [reflexivity|]. by apply chat_key_not_marker.
    + apply Hmark; eexists; reflexivity.
Defined.

(** ** The marker during a cycle *)

Lemma marker_kept_srem u x d0 d d' :
  marker_kept u d0 d → srem (subs_key u) x d = inr d' → marker_kept u d0 d'.
Proof.
  intros [Hb Hm] Hs. split; [by eapply base_ok_srem|].
  rewrite <- Hm. eapply srem_other; [done|]. apply not_eq_sym, subs_key_not_marker.
Qed.

Lemma marker_kept_sadd u x d0 d d' :
  chat_like x = true →
  marker_kept u d0 d → sadd (subs_key u) x d = inr d' → marker_kept u d0 d'.
Proof.
  intros Hx [Hb Hm] Hs. split; [eapply base_ok_sadd; [done|by intros|done]|].
  rewrite <- Hm. eapply sadd_other; [done|]. apply not_eq_sym, subs_key_not_marker.
Qed.

Lemma marker_kept_delete_chat u m d0 d :
  chat_like m = true → marker_kept u d0 d → marker_kept u d0 (delete (feed_hash m) d).
Proof.
  intros Hchat [Hb Hm]. split; [by apply base_ok_delete|].
  rewrite <- Hm. apply lookup_delete_ne. by apply chat_key_not_marker.
Qed.

Lemma marker_kept_rename u m n d0 d d' :
  chat_like m = true →
  marker_kept u d0 d → rename (feed_hash m) (feed_hash (str n)) d = inr d' →
  marker_kept u d0 d'.
Proof.
  intros Hchat [Hb Hm] Hr. pose proof (str_chat_like n) as Hn. split.
  - eapply base_ok_rename; [done| |done]. intros u'. by apply chat_key_not_subs.
  - rewrite <- Hm. eapply rename_other; [done| |]; apply not_eq_sym;
      by apply chat_key_not_marker.
Qed.

Lemma react_keeps_marker `{Env} u d0 text m o :
  chat_like m = true → keeps (marker_kept u d0) (react (subs_key u) text m o).
Proof.
  intros Hchat. destruct o as [| |n| |why|why]; simpl; try (by apply keeps_same).
  - apply keeps_bind; [by apply keeps_same|intros []].
    apply keeps_bind; [|intros []].
    + apply keeps_run. intros d d'. apply marker_kept_srem.
    + apply keeps_run. intros d d' Hd [= <-]. by apply marker_kept_delete_chat.
  - apply keeps_bind; [by apply keeps_same|intros []].
    apply keeps_bind; [apply keeps_run; intros d d'; apply marker_kept_srem|intros []].
    apply keeps_bind; [|intros []].
    { apply keeps_run. intros d d'. apply marker_kept_sadd, str_chat_like. }
    apply keeps_bind; [|intros []].
    { apply keeps_run. intros d d'. by apply marker_kept_rename. }
    apply keeps_bind; [by apply keeps_same|].
    intros []; by apply keeps_same.
Qed.

Lemma deliver_entry_keeps_marker `{Env} u d0 data title e :
  keeps (marker_kept u d0) (deliver_entry (subs_key u) data title e).
Proof.
  intros w HK. unfold deliver_entry. rewrite bind_unfold. unfold lift.
  destruct (render data title e) as [x|text]; [done|].
  rewrite bind_unfold. unfold r_smembers, ask.
  destruct (smembers (subs_key u) (db w)) as [x|s] eqn:Hs; [done|].
  apply smembers_members in Hs.
  apply keeps_for_each; [|done].
  intros m Hm. unfold deliver. apply keeps_bind; [by apply keeps_same|].
  intros o. apply react_keeps_marker.
  destruct HK as [Hb _]. apply (ok_chats _ Hb u). unfold subscribers. rewrite Hs.
  apply elem_of_elements. by rewrite <- (set_order_perm s).
Qed.

(** X11.  A cycle that ends with an exception leaves the marker of its feed
    as it was, whatever happened to the subscribers before: the next tick
    starts from the same marker. *)
Theorem check_feed_failure_keeps_marker `{Env} u w e :
  base_ok (db w) →
  (check_feed (subs_key u) w).1 = inl e →
  db (check_feed (subs_key u) w).2 !! last_entry_key u = db w !! last_entry_key u.
Proof.
  intros Hb. unfold check_feed.
  destruct (match_subs_key (subs_key u)) as [v|] eqn:Hmatch; [|done].
  pose proof (match_subs_key_inv _ _ Hmatch) as ->.
  rewrite bind_unfold. simpl.
  destruct (f_link (p_feed (feedparser_parse u))) as [l|].
  2:{ intros _. destruct (p_status _) as [st|], (p_bozo_exception _) as [b|];
        try case_bool_decide; done. }
  rewrite bind_unfold. unfold r_get, ask. simpl.
  destruct (get (last_entry_key u) (db w)) as [x|last]; [done|].
  rewrite bind_unfold.
  match goal with
  | |- context [for_each ?es ?body ?w0] =>
      pose proof (keeps_for_each (marker_kept u (db w)) es body
                    (λ e _, deliver_entry_keeps_marker u (db w) _ _ e) w0
                    (conj Hb eq_refl)) as [_ Hkept];
      destruct (for_each es body w0) as [[x|[]] w1] eqn:Hloop
  end; simpl in Hkept; [done|].
  rewrite bind_unfold. unfold r_exists, ask. simpl.
  case_bool_decide as Hstill; simpl; [|done].
  destruct (advance_marker_effects u (get_new_entries (p_entries (feedparser_parse u)) last) w1)
    as (_ & _ & _ & Hfail).
  intros Hend. rewrite Hfail; [done|]. by rewrite Hend.
Qed.

Lemma check_feed_failure_keeps_marker_witness :
  db (@check_feed Demo.blocked (subs_key Demo.bare_url) Demo.bare_reader).2
    !! last_entry_key Demo.bare_url = Some (RStr "h2").
Proof.
  rewrite (@check_feed_failure_keeps_marker Demo.blocked Demo.bare_url Demo.bare_reader
             (AttributeError "link")).
  - reflexivity.
  - apply demo_bare_reader_ok.
  - by vm_compute.
Defined.

(** ** A chat that has migrated *)

Lemma react_migrated_run `{Env} key text c n w d1 d2 :
  srem key c (db w) = inr d1 →
  sadd key (str n) d1 = inr d2 →
  react key text c (ChatMigrated n) w =
    match rename (feed_hash c) (feed_hash (str n)) d2 with
    | inl x =>
        (inl x, World d2 (sent w) (ui w) (logged w ++ [LogChatMigrated c (str n)]))
    | inr d3 =>
        let o := send_message (sent w) c text in
        (match o with Delivered => inr tt | _ => inl (TelegramError o) end,
         World d3 (sent w ++ [Delivery c text o]) (ui w)
           (logged w ++ [LogChatMigrated c (str n)]))
    end.
Proof.
  intros Hd1 Hd2. unfold react, r_srem, r_sadd, r_rename, run, log, send.
  rewrite bind_unfold. simpl. rewrite bind_unfold. simpl. rewrite Hd1.
  rewrite bind_unfold. simpl. rewrite Hd2.
  rewrite bind_unfold. simpl.
  destruct (rename (feed_hash c) (feed_hash (str n)) d2) as [x|d3]; [done|].
  rewrite bind_unfold. simpl. by destruct (send_message (sent w) c text).
Qed.

Lemma migrated_sets u c n d d1 d2 :
  chat_like c = true →
  srem (subs_key u) c d = inr d1 →
  sadd (subs_key u) (str n) d1 = inr d2 →
  subscribers d2 u = {[str n]} ∪ (subscribers d u ∖ {[c]})
  ∧ ∀ k, k ≠ subs_key u → d2 !! k = d !! k.
Proof.
  intros Hc Hd1 Hd2.
  destruct (srem_members _ _ _ _ Hd1) as [Hm1 Ho1].
  destruct (sadd_members _ _ _ _ Hd2) as [Hm2 Ho2].
  split; [unfold subscribers; by rewrite Hm2, Hm1|].
  intros k Hk. by rewrite Ho2, Ho1.
Qed.

(** X12.  When the transport answers that chat [c] has become chat [n], and
    [c] has a feed set of its own, the handler replaces [c] by [n] among the
    subscribers of the feed, moves the feed set of [c] to the key of [n],
    and sends the text once more, to [c]; it ends without an exception only
    if that second message is delivered.  No other key changes. *)
Theorem migration_moves_chat `{Env} u text c n v w :
  chat_like c = true →
  holds_set (subs_key u) (db w) →
  db w !! feed_hash c = Some v →
  let r := react (subs_key u) text c (ChatMigrated n) w in
  let o := send_message (sent w) c text in
  subscribers (db r.2) u = {[str n]} ∪ (subscribers (db w) u ∖ {[c]})
  ∧ db r.2 !! feed_hash (str n) = Some v
  ∧ (str n ≠ c → db r.2 !! feed_hash c = None)
  ∧ sent r.2 = sent w ++ [Delivery c text o]
  ∧ (r.1 = inr tt ↔ o = Delivered)
  ∧ ∀ k, k ≠ subs_key u → k ≠ feed_hash c → k ≠ feed_hash (str n) →
         db r.2 !! k = db w !! k.
Proof.
  intros Hc Hset Hv r o. subst r.
  pose proof (str_chat_like n) as Hn.
  destruct (srem_total _ c _ Hset) as [d1 Hd1].
  pose proof (holds_set_srem _ _ _ _ Hset Hd1) as Hset1.
  destruct (smembers_total _ _ Hset1) as [s1 Hs1].
  assert (∃ d2, sadd (subs_key u) (str n) d1 = inr d2) as [d2 Hd2].
  { unfold sadd. unfold smembers in Hs1.
    destruct (d1 !! subs_key u) as [[?|?]|]; [done|by eexists|by eexists]. }
  destruct (migrated_sets _ _ _ _ _ _ Hc Hd1 Hd2) as [Hsubs Hother].
  rewrite (react_migrated_run _ _ _ _ _ _ _ Hd1 Hd2).
  assert (d2 !! feed_hash c = Some v) as Hv2.
  { rewrite Hother; [done|]. by apply chat_key_not_subs. }
  unfold rename. rewrite Hv2. simpl. fold o.
  assert (feed_hash (str n) ≠ subs_key u) as Hk1 by (by apply chat_key_not_subs).
  assert (feed_hash c ≠ subs_key u) as Hk2 by (by apply chat_key_not_subs).
  split_and!.
  - unfold subscribers, members in *.
    rewrite lookup_insert_ne, lookup_delete_ne by done. done.
  - by rewrite lookup_insert_eq.
  - intros Hne. rewrite lookup_insert_ne by (by intros ?%feed_hash_inj).
    by rewrite lookup_delete_eq.
  - done.
  - by destruct o.
  - intros k Hku Hkc Hkn. rewrite lookup_insert_ne, lookup_delete_ne by done.
    by apply Hother.
Qed.

Lemma migration_moves_chat_witness :
  subscribers (db (@react Demo.moved (subs_key Demo.url) "text" "7" (ChatMigrated 8)
                     Demo.one_reader).2) Demo.url = {["8"]}
  ∧ db (@react Demo.moved (subs_key Demo.url) "text" "7" (ChatMigrated 8) Demo.one_reader).2
      !! feed_hash "8" = Some (RSet {[Demo.url]})
  ∧ sent (@react Demo.moved (subs_key Demo.url) "text" "7" (ChatMigrated 8) Demo.one_reader).2
    = [Delivery "7" "text" (ChatMigrated 8)].
Proof.
  destruct (@migration_moves_chat Demo.moved Demo.url "text" "7" 8 (RSet {[Demo.url]})
              Demo.one_reader) as (Hsubs & Hnew & _ & Hsent & _).
  - reflexivity.
  - intros v Hv. vm_compute in Hv. injection Hv as <-. by eexists.
  - reflexivity.
  - split_and!; [|exact Hnew|exact Hsent].
    rewrite Hsubs. by vm_compute.
Defined.

(** X13.  When the chat that has migrated has no feed set of its own (its
    key is missing), the handler has already replaced it among the
    subscribers of the feed when [RENAME] fails: the cycle ends with the
    error of Redis, and the text is not sent again. *)
Theorem migration_without_chat_key `{Env} u text c n w :
  chat_like c = true →
  holds_set (subs_key u) (db w) →
  db w !! feed_hash c = None →
  let r := react (subs_key u) text c (ChatMigrated n) w in
  r.1 = inl (ResponseError "no such key")
  ∧ subscribers (db r.2) u = {[str n]} ∪ (subscribers (db w) u ∖ {[c]})
  ∧ sent r.2 = sent w
  ∧ ∀ k, k ≠ subs_key u → db r.2 !! k = db w !! k.
Proof.
  intros Hc Hset Hv r. subst r.
  destruct (srem_total _ c _ Hset) as [d1 Hd1].
  pose proof (holds_set_srem _ _ _ _ Hset Hd1) as Hset1.
  destruct (smembers_total _ _ Hset1) as [s1 Hs1].
  assert (∃ d2, sadd (subs_key u) (str n) d1 = inr d2) as [d2 Hd2].
  { unfold sadd. unfold smembers in Hs1.
    destruct (d1 !! subs_key u) as [[?|?]|]; [done|by eexists|by eexists]. }
  destruct (migrated_sets _ _ _ _ _ _ Hc Hd1 Hd2) as [Hsubs Hother].
  rewrite (react_migrated_run _ _ _ _ _ _ _ Hd1 Hd2).
  assert (d2 !! feed_hash c = None) as Hv2.
  { rewrite Hother; [done|]. by apply chat_key_not_subs. }
  unfold rename. rewrite Hv2. simpl. done.
Qed.

Lemma migration_without_chat_key_witness :
  (@react Demo.moved (subs_key Demo.url) "text" "7" (ChatMigrated 8)
     (World (<[subs_key Demo.url := RSet {["7"]}]> ∅) [] [] [])).1
  = inl (ResponseError "no such key").
Proof.
  apply (@migration_without_chat_key Demo.moved Demo.url "text" "7" 8
           (World (<[subs_key Demo.url := RSet {["7"]}]> ∅) [] [] [])).
  - reflexivity.
  - intros v Hv. vm_compute in Hv. injection Hv as <-. by eexists.
  - reflexivity.
Defined.

(** ** How often a chat is tried *)

Lemma attempts_app m g1 g2 : attempts m (g1 ++ g2) = (attempts m g1 + attempts m g2)%nat.
Proof. unfold attempts. by rewrite filter_app, length_app. Qed.

Lemma attempts_same m g : Forall (λ d, d_chat d = m) g → attempts m g = length g.
Proof.
  unfold attempts. induction 1 as [|d g Hd _ IH]; [done|].
  rewrite filter_cons_True by done. simpl. by rewrite IH.
Qed.

Lemma attempts_other m x g : x ≠ m → Forall (λ d, d_chat d = x) g → attempts m g = 0%nat.
Proof.
  intros Hne. unfold attempts. induction 1 as [|d g Hd _ IH]; [done|].
  rewrite filter_cons_False by congruence. done.
Qed.

(** The handler of an answer sends nothing, or, for a chat that has
    migrated, the one retry. *)
Lemma react_sends `{Env} key text c o w :
  sent (react key text c o w).2 = sent w
  ∨ ∃ n o', o = ChatMigrated n
            ∧ sent (react key text c o w).2 = sent w ++ [Delivery c text o'].
Proof.
  destruct o as [| |n| |why|why]; try (left; reflexivity).
  - left. unfold react. apply (quiet_bind _ _ (quiet_log _)). intros [].
    apply quiet_bind; [apply quiet_run|intros []]. apply quiet_run.
  - destruct (srem key c (db w)) as [x|d1] eqn:Hd1.
    { left. unfold react, r_srem, run, log. rewrite bind_unfold. simpl.
      rewrite bind_unfold. simpl. by rewrite Hd1. }
    destruct (sadd key (str n) d1) as [x|d2] eqn:Hd2.
    { left. unfold react, r_srem, r_sadd, run, log. rewrite bind_unfold. simpl.
      rewrite bind_unfold. simpl. rewrite Hd1. rewrite bind_unfold. simpl. by rewrite Hd2. }
    rewrite (react_migrated_run _ _ _ _ _ _ _ Hd1 Hd2).
    destruct (rename _ _ d2) as [x|d3]; [by left|].
    right. by eexists n, _.
Qed.

Lemma deliver_attempts `{Env} key text m w :
  ∃ g, sent (deliver key text m w).2 = sent w ++ g
       ∧ Forall (λ d, d_chat d = m) g
       ∧ Forall (λ d, d_text d = text) g
       ∧ (length g = 1%nat
          ∨ (length g = 2%nat ∧ ∃ n, Delivery m text (ChatMigrated n) ∈ g)).
Proof.
  rewrite deliver_run. set (o := send_message (sent w) m text).
  destruct (react_sends key text m o
              (World (db w) (sent w ++ [Delivery m text o]) (ui w) (logged w)))
    as [Hs|(n & o' & Ho & Hs)]; rewrite Hs; simpl.
  - exists [Delivery m text o]. split_and!; [done| | |by left];
      by apply Forall_singleton.
  - exists [Delivery m text o; Delivery m text o']. split_and!.
    + by rewrite <- app_assoc.
    + by repeat apply Forall_cons_2.
    + by repeat apply Forall_cons_2.
    + right. split; [done|]. exists n. rewrite Ho. apply list_elem_of_here.
Qed.

Lemma for_each_deliver_attempts `{Env} key text ms w w1 :
  NoDup ms →
  for_each ms (deliver key text) w = (inr tt, w1) →
  ∃ g, sent w1 = sent w ++ g
       ∧ Forall (λ d, d_text d = text) g
       ∧ ∀ m, (m ∈ ms → attempts m g = 1%nat
                        ∨ (attempts m g = 2%nat ∧ ∃ n, Delivery m text (ChatMigrated n) ∈ g))
              ∧ (m ∉ ms → attempts m g = 0%nat).
Proof.
  intros Hnd. revert w. induction Hnd as [|x ms Hx Hnd IH]; intros w; simpl.
  - intros [= <-]. exists []. rewrite app_nil_r. split_and!; [done|done|].
    intros m. split; [by intros ?%elem_of_nil|done].
  - rewrite bind_unfold.
    destruct (deliver_attempts key text x w) as (g1 & Hg1 & Hto & Htext & Hlen).
    destruct (deliver key text x w) as [[e|[]] w0]; [done|]. simpl in Hg1.
    intros (g2 & Hg2 & Htext2 & Hcount)%IH.
    exists (g1 ++ g2). split_and!.
    + by rewrite Hg2, Hg1, app_assoc.
    + by apply Forall_app.
    + intros m. rewrite attempts_app. destruct (Hcount m) as [Hin Hout].
      destruct (decide (m = x)) as [->|Hne].
      * rewrite (attempts_same _ _ Hto), (Hout Hx). split; [intros _|].
        -- destruct Hlen as [->|[-> [n Hn]]]; [by left|right]. split; [done|].
           exists n. apply elem_of_app. by left.
        -- intros Hnot. exfalso. apply Hnot, list_elem_of_here.
      * rewrite (attempts_other _ _ _ (not_eq_sym Hne) Hto). simpl. split.
        -- intros [?|Hm]%elem_of_cons; [done|].
           destruct (Hin Hm) as [?|[? [n Hn]]]; [by left|right]. split; [done|].
           exists n. apply elem_of_app. by right.
        -- intros Hnot. apply Hout. intros ?. apply Hnot. by apply elem_of_cons; right.
Qed.



(** ** A tick *)

Lemma voices_same P {A} (m : M A) : (∀ w, logged (m w).2 = logged w) → voices P m.
Proof. intros Hsame w. exists []. by rewrite app_nil_r. Qed.

Lemma voices_log (P : log_event → Prop) e : P e → voices P (log e).
Proof. intros He w. exists [e]. split; [done|]. by apply Forall_singleton. Qed.

Lemma voices_run P f : voices P (run f).
Proof. apply voices_same. intros w. unfold run. by destruct (f (db w)). Qed.

Lemma voices_bind P {A B} (m : M A) (k : A → M B) :
  voices P m → (∀ a, voices P (k a)) → voices P (m ≫= k).
Proof.
  intros Hm Hk w. rewrite bind_unfold.
  destruct (Hm w) as (l1 & Hl1 & HP1).
  destruct (m w) as [[e|a] w1]; simpl in *; [by exists l1|].
  destruct (Hk a w1) as (l2 & Hl2 & HP2). exists (l1 ++ l2). split.
  - by rewrite Hl2, Hl1, app_assoc.
  - by apply Forall_app.
Qed.

Lemma voices_for_each P {A} (xs : list A) (body : A → M unit) :
  (∀ x, voices P (body x)) → voices P (for_each xs body).
Proof.
  intros Hbody. induction xs as [|x xs IH]; simpl.
  - by apply voices_same.
  - apply voices_bind; [apply Hbody|by intros []].
Qed.

Lemma react_voices `{Env} u key text member o : voices (of_feed u) (react key text member o).
Proof.
  destruct o as [| |n| |why|why]; simpl; try (by apply voices_same);
    [| |by apply voices_log].
  - apply voices_bind; [by apply voices_log|intros []].
    apply voices_bind; [apply voices_run|intros []]. apply voices_run.
  - apply voices_bind; [by apply voices_log|intros []].
    apply voices_bind; [apply voices_run|intros []].
    apply voices_bind; [apply voices_run|intros []].
    apply voices_bind; [apply voices_run|intros []].
    apply voices_bind; [by apply voices_same|intros o'].
    destruct o'; by apply voices_same.
Qed.

Lemma deliver_entry_voices `{Env} u key data title e :
  voices (of_feed u) (deliver_entry key data title e).
Proof.
  unfold deliver_entry.
  apply voices_bind; [by apply voices_same|intros text].
  apply voices_bind; [by apply voices_same|intros members].
  apply voices_for_each. intros m. unfold deliver.
  apply voices_bind; [by apply voices_same|intros o]. apply react_voices.
Qed.

(** A cycle starts by logging the URL of its feed, and logs no other
    URL. *)
Lemma check_feed_announces `{Env} key u w :
  match_subs_key key = Some u →
  ∃ l, logged (check_feed key w).2 = logged w ++ LogInfo u :: l ∧ Forall (of_feed u) l.
Proof.
  intros Hmatch. unfold check_feed. rewrite Hmatch, bind_unfold. simpl.
  match goal with
  | |- context [?m (World ?d ?s ?i ?lg)] =>
      assert (voices (of_feed u) m) as Hw;
        [|destruct (Hw (World d s i lg)) as (l & Hl & HP)]
  end.
  - destruct (f_link _) as [link|].
    + apply voices_bind; [by apply voices_same|intros last].
      apply voices_bind; [|intros []].
      { apply voices_for_each. intros e. apply deliver_entry_voices. }
      apply voices_bind; [by apply voices_same|intros still].
      destruct (negb still); [apply voices_run|].
      destruct (get_new_entries _ last) as [|e0 rest]; [by apply voices_same|].
      apply voices_same. intros w0. rewrite advance_marker_run. by destruct (entry_ident e0).
    + destruct (p_status _) as [st|], (p_bozo_exception _) as [b|];
        try case_bool_decide; first [by apply voices_log | by apply voices_same].
  - exists l. split; [|done]. rewrite Hl. simpl. by rewrite <- app_assoc.
Qed.

Lemma check_feed_voices `{Env} key :
  voices (λ e, ∀ x, e = LogInfo x → match_subs_key key = Some x) (check_feed key).
Proof.
  intros w. destruct (match_subs_key key) as [u|] eqn:Hmatch.
  - destruct (check_feed_announces key u w Hmatch) as (l & Hl & HP).
    eexists. split; [exact Hl|]. apply Forall_cons_2; [by intros x [= <-]|].
    eapply Forall_impl; [exact HP|]. intros e He x Hx. f_equal. symmetry. by apply He.
  - unfold check_feed. rewrite Hmatch. exists []. by rewrite app_nil_r.
Qed.

Lemma tick_logs `{Env} keys w :
  (for_each keys (λ key, run_async (check_feed key)) w).1 = inr tt
  ∧ ∃ l, logged (for_each keys (λ key, run_async (check_feed key)) w).2 = logged w ++ l
         ∧ (∀ key u, key ∈ keys → match_subs_key key = Some u → LogInfo u ∈ l)
         ∧ (∀ x, LogInfo x ∈ l → ∃ key, key ∈ keys ∧ match_subs_key key = Some x).
Proof.
  revert w. induction keys as [|key keys IH]; intros w; simpl.
  - split; [done|]. exists []. rewrite app_nil_r. split_and!; [done| |].
    + by intros ?? ?%elem_of_nil.
    + by intros ? ?%elem_of_nil.
  - rewrite bind_unfold. unfold run_async at 1. simpl.
    destruct (IH (check_feed key w).2) as (Hok & l2 & Hl2 & Hin2 & Hout2).
    split; [done|].
    destruct (check_feed_voices key w) as (l1 & Hl1 & HP1).
    exists (l1 ++ l2). split_and!; [by rewrite Hl2, Hl1, app_assoc| |].
    + intros key' u [->|Hin]%elem_of_cons Hmatch.
      * destruct (check_feed_announces key u w Hmatch) as (l & Hl & _).
        rewrite Hl1 in Hl. apply app_inv_head in Hl. subst l1.
        apply elem_of_app. left. apply list_elem_of_here.
      * apply elem_of_app. right. by eapply Hin2.
    + intros x [Hx|Hx]%elem_of_app.
      * exists key. split; [apply list_elem_of_here|].
        rewrite Forall_forall in HP1. by apply (HP1 _ Hx).
      * destruct (Hout2 x Hx) as (key' & Hk & Hm). exists key'. split; [|done].
        by apply elem_of_cons; right.
Qed.

Lemma listed `{Env} u (d : gmap string rval) :
  is_Some (d !! subs_key u) →
  subs_key u ∈ filter (λ k, is_subs_key k = true) (set_order (dom d)).
Proof.
  intros Hu. apply list_elem_of_filter. split.
  - unfold is_subs_key, subs_key, feed_hash. rewrite strip_prefix_app.
    apply bool_decide_eq_true. rewrite strip_suffix_app. by eexists.
  - rewrite set_order_perm. apply elem_of_elements. by apply elem_of_dom.
Qed.

(** What a tick logs: the separator, then the records of its cycles. *)
Lemma run_job_logs `{Env} w :
  (run_job w).1 = inr tt
  ∧ ∃ l, logged (run_job w).2 = logged w ++ LogInfo separator :: l
         ∧ (∀ u, u ≠ "" → has_char newline u = false → is_Some (db w !! subs_key u) →
                 LogInfo u ∈ l)
         ∧ (∀ x, LogInfo x ∈ l → is_Some (db w !! subs_key x)).
Proof.
  unfold run_job. rewrite bind_unfold. simpl. rewrite bind_unfold.
  unfold r_keys_subs, ask. simpl.
  match goal with
  | |- context [for_each ?keys _ ?w0] =>
      destruct (tick_logs keys w0) as (Hok & l & Hl & Hin & Hout)
  end.
  split; [done|]. exists l. split_and!.
  - rewrite Hl. simpl. by rewrite <- app_assoc.
  - intros u Hne Hnl Hkey. apply (Hin (subs_key u)); [by apply listed|].
    by apply match_subs_key_subs.
  - intros x Hx. destruct (Hout x Hx) as (key & Hkey & Hmatch). simpl in Hkey.
    apply list_elem_of_filter in Hkey as [Hsubs Hdom].
    apply is_subs_key_inv in Hsubs as [u ->].
    apply match_subs_key_inv in Hmatch as ->.
    rewrite set_order_perm in Hdom. apply elem_of_elements in Hdom.
    by apply elem_of_dom.
Qed.

(** X15.  A tick starts a cycle for every feed that has a subscriber key
    when the tick begins (and whose URL is not empty and on one line),
    whatever becomes of the cycles before it: an exception in one worker
    does not reach the next one, and the tick itself ends without an
    exception. /sync does the same, for whoever sends it. *)
Theorem run_job_polls_every_feed `{Env} u w :
  u ≠ "" →
  has_char newline u = false →
  is_Some (db w !! subs_key u) →
  (run_job w).1 = inr tt
  ∧ (∃ l, logged (run_job w).2 = logged w ++ l ∧ LogInfo u ∈ l)
  ∧ ∀ upd, run_job_manually upd w = (inr tt, (run_job w).2).
Proof.
  intros Hne Hnl Hkey.
  destruct (run_job_logs w) as (Hok & l & Hl & Hin & _).
  split_and!; [done| |done].
  exists (LogInfo separator :: l). split; [done|].
  apply elem_of_cons. right. by apply Hin.
Qed.

Lemma run_job_polls_every_feed_witness :
  ∃ l, logged (@run_job Demo.blocked Demo.two_feeds).2 = l ∧ LogInfo Demo.other_url ∈ l.
Proof.
  destruct (@run_job_polls_every_feed Demo.blocked Demo.other_url Demo.two_feeds)
    as (_ & (l & Hl & Hin) & _).
  - discriminate.
  - reflexivity.
  - eexists. reflexivity.
  - exists l. split; [exact Hl|exact Hin].
Defined.

(** X16.  A tick starts no cycle for a feed that has no subscriber key when
    the tick begins: its URL is not logged, so a feed that the last
    subscriber has left is not polled any more. *)
Theorem run_job_skips_feed_without_subscribers `{Env} u w l :
  db w !! subs_key u = None →
  u ≠ separator →
  logged (run_job w).2 = logged w ++ l →
  LogInfo u ∉ l.
Proof.
  intros Hnone Hsep Hl Hin.
  destruct (run_job_logs w) as (_ & l' & Hl' & _ & Hout).
  rewrite Hl in Hl'. apply app_inv_head in Hl'. subst l.
  apply elem_of_cons in Hin as [[= Heq]|Hin]; [done|].
  apply Hout in Hin. rewrite Hnone in Hin. by destruct Hin.
Qed.

Lemma run_job_skips_feed_without_subscribers_witness :
  LogInfo Demo.other_url ∉ logged (@run_job Demo.calm Demo.one_reader).2.
Proof.
  apply (@run_job_skips_feed_without_subscribers Demo.calm Demo.other_url Demo.one_reader).
  - reflexivity.
  - discriminate.
  - reflexivity.
Defined.

(** X17.  A feed that a chat has just subscribed to is polled by the next
    tick (when its URL is not empty and on one line). *)
Theorem subscribed_feed_is_polled `{Env} upd args chat_id data href title w w1 :
  accepted upd args chat_id data href →
  subscribe upd args w = (inr tt, w1) →
  ui w1 = ui w ++ [Typing (u_chat_id upd); ReplyOk (Added title)] →
  href ≠ "" →
  has_char newline href = false →
  ∃ l, logged (run_job w1).2 = logged w1 ++ l ∧ LogInfo href ∈ l.
Proof.
  intros Hacc Hrun Hui Hne Hnl.
  assert (chat_like chat_id = true) as Hc.
  { destruct Hacc as (? & ? & _ & _ & _ & Hc & _). by eapply subscribe_chat_like. }
  rewrite (subscribe_accepted _ _ _ _ _ _ Hacc) in Hrun.
  eapply (store_subscription_added _ _ _ _ _ title) in Hrun;
    [|by rewrite Hui; simpl; rewrite <- app_assoc].
  destruct Hrun as (s & w' & d2 & d3 & _ & _ & _ & Hd2 & Hd3 & Hdb & _).
  assert (is_Some (db w1 !! subs_key href)) as Hkey.
  { rewrite Hdb, (sadd_other _ _ _ _ _ Hd3)
      by (apply not_eq_sym; by apply chat_key_not_subs).
    destruct (sadd_lookup _ _ _ _ Hd2) as (s2 & -> & _).
    rewrite lookup_insert_eq. by eexists. }
  destruct (run_job_logs w1) as (_ & l & Hl & Hin & _).
  exists (LogInfo separator :: l). split; [done|].
  apply elem_of_cons. right. by apply Hin.
Qed.

Lemma subscribed_feed_is_polled_witness :
  ∃ l, logged (@run_job Demo.calm Demo.subscribed).2 = logged Demo.subscribed ++ l
       ∧ LogInfo Demo.url ∈ l.
Proof.
  apply (@subscribed_feed_is_polled Demo.calm (Update 7) [Demo.url] "7" (Demo.web Demo.url)
           Demo.url "Example" Demo.fresh Demo.subscribed).
  - exact demo_accepted.
  - reflexivity.
  - reflexivity.
  - discriminate.
  - reflexivity.
Defined.

Lemma tame_run_async K {A} (m : M A) : tame K m → tame K (run_async m).
Proof. intros Hm w. apply Hm. Qed.

Lemma check_feed_tame `{Env} key : tame is_marker_key (check_feed key).
Proof.
  unfold check_feed.
  destruct (match_subs_key key) as [u|]; [|by apply tame_same; [solve_quiet|]].
  apply tame_bind; [by apply tame_same; [solve_quiet|]|intros []].
  destruct (f_link _) as [link|].
  - apply tame_bind; [by apply tame_same; [solve_quiet|]|intros last].
    apply tame_bind; [|intros []].
    { apply (tame_weaken (λ _, False)); [done|].
      apply tame_for_each. intros e. apply deliver_entry_tame. }
    apply tame_bind; [by apply tame_same; [solve_quiet|]|intros still].
    destruct (negb still).
    + intros w. exists []. rewrite app_nil_r. split; [done|].
      intros _ k Hk. simpl. apply lookup_delete_ne. intros <-. apply Hk. by exists u.
    + intros w. exists []. rewrite app_nil_r.
      destruct (advance_marker_effects u (get_new_entries (p_entries (feedparser_parse u)) last)
                  w) as (Hs & Hf & _).
      split; [done|]. intros _ k Hk. apply Hf. intros ->. apply Hk. by exists u.
  - destruct (p_status _) as [st|], (p_bozo_exception _) as [b|];
      try case_bool_decide; by apply tame_same; [solve_quiet|].
Qed.

(** X18.  A tick in which the transport reports no chat as unauthorized or
    as migrated changes nothing in the store but markers: no subscription is
    lost to a timeout or to a message that Telegram refuses. *)
Theorem run_job_undisturbed `{Env} w g :
  sent (run_job w).2 = sent w ++ g →
  Forall (λ d, settled (d_outcome d) = true) g →
  ∀ k, ¬ is_marker_key k → db (run_job w).2 !! k = db w !! k.
Proof.
  intros Hg Hall.
  assert (tame is_marker_key run_job) as Htame.
  { unfold run_job.
    apply tame_bind; [by apply tame_same; [solve_quiet|]|intros []].
    apply tame_bind; [by apply tame_same; [unfold r_keys_subs; solve_quiet|]|intros keys].
    apply tame_for_each. intros key. apply tame_run_async, check_feed_tame. }
  destruct (Htame w) as (g' & Hg' & Hd).
  rewrite Hg in Hg'. apply app_inv_head in Hg'. subst g'. by apply Hd.
Qed.

Lemma run_job_undisturbed_witness :
  db (@run_job (Demo.env Demo.web (Demo.always (BadRequest "chat not found"))) Demo.two_feeds).2
    !! feed_hash "7" = Some (RSet {[Demo.url; Demo.other_url]}).
Proof.
  rewrite (@run_job_undisturbed (Demo.env Demo.web (Demo.always (BadRequest "chat not found")))
             Demo.two_feeds
             (sent (@run_job (Demo.env Demo.web (Demo.always (BadRequest "chat not found")))
                      Demo.two_feeds).2)).
  - reflexivity.
  - reflexivity.
  - vm_compute. repeat constructor.
  - intros [u Hu]. by apply chat_key_not_marker in Hu.
Defined.

(** ** A user who may not use the bot *)

(** X19.  The five command handlers that ask [utils.can_use_bot] do nothing
    at all for a user it refuses: no answer, no write, no message, no log. *)
Theorem refused_user_is_ignored `{Env, Directory} upd here args w :
  can_use_bot upd = false →
  start upd w = (inr None, w)
  ∧ help_text upd w = (inr None, w)
  ∧ list_feeds upd here args w = (inr None, w)
  ∧ subscribe upd args w = (inr tt, w)
  ∧ unsubscribe upd args w = (inr tt, w).
Proof.
  intros Hcan. unfold start, help_text, list_feeds, subscribe, unsubscribe.
  by rewrite Hcan.
Qed.

Lemma refused_user_is_ignored_witness :
  @subscribe Lab.closed (Update 7) [Demo.url] Demo.fresh = (inr tt, Demo.fresh)
  ∧ @list_feeds Lab.closed Lab.directory (Update 7) Lab.ada [] Demo.one_reader
    = (inr None, Demo.one_reader).
Proof.
  split.
  - apply (@refused_user_is_ignored Lab.closed Lab.directory (Update 7) Lab.ada [Demo.url]
             Demo.fresh). reflexivity.
  - apply (@refused_user_is_ignored Lab.closed Lab.directory (Update 7) Lab.ada []
             Demo.one_reader). reflexivity.
Defined.

(** ** /rss and /del *)

Lemma str_app_assoc (a b c : string) : (a +:+ b) +:+ c = a +:+ (b +:+ c).
Proof. induction a as [|x a IH]; sapp; [done|]. by rewrite IH. Qed.

Lemma str_app_nil_r (a : string) : a +:+ "" = a.
Proof. induction a as [|x a IH]; sapp; [done|]. by rewrite IH. Qed.

(** The loop of lines 147-148 appends the numbered lines to the header. *)
Lemma add_lines_numbered text n subs : add_lines text n subs = text +:+ numbered n subs.
Proof.
  revert text n. induction subs as [|f subs IH]; intros text n; simpl.
  - by rewrite str_app_nil_r.
  - by rewrite IH, str_app_assoc.
Qed.

(** X20.  /rss shows every feed of the chat once.  For a chat that follows
    at least one feed the answer is a header with the title of the chat and
    then one line per feed, numbered from 1: no feed of the chat is left
    out, none is shown twice, and nothing else is shown.  A chat without
    feeds is told that there are none.  The store is not written to. *)
Theorem list_feeds_shows_every_feed `{Env, Directory} upd here rest chat_id title w :
  can_use_bot upd = true →
  list_chat upd here rest = inr (chat_id, title) →
  holds_set (feed_hash chat_id) (db w) →
  (feeds_of (db w) chat_id = ∅ →
     list_feeds upd here rest w = (inr (Some ("❌ " +:+ "There are no feeds.")), w))
  ∧ (feeds_of (db w) chat_id ≠ ∅ → ∀ t, title = Some t →
     ∃ l, NoDup l
          ∧ (∀ f, f ∈ l ↔ f ∈ feeds_of (db w) chat_id)
          ∧ length l = size (feeds_of (db w) chat_id)
          ∧ list_feeds upd here rest w =
              (inr (Some (("<b>" +:+ html_escape t +:+ "</b> is subscribed to:" +:+ nl)
                          +:+ numbered 0 l)), w)).
Proof.
  intros Hcan Hchat Hset.
  destruct (smembers_holds _ _ Hset) as [subs Hsubs].
  pose proof (smembers_members _ _ _ Hsubs) as Hmem. fold (feeds_of (db w) chat_id) in Hmem.
  unfold list_feeds. rewrite Hcan, Hchat. simpl.
  rewrite bind_unfold. unfold r_smembers, ask. rewrite Hsubs, Hmem. split.
  - intros ->. by rewrite bool_decide_true.
  - intros Hne t ->. rewrite bool_decide_false by done.
    exists (rss_order subs). split_and!.
    + rewrite rss_order_perm. apply NoDup_elements.
    + intros f. rewrite rss_order_perm. apply elem_of_elements.
    + by rewrite rss_order_perm.
    + by rewrite add_lines_numbered.
Qed.

Lemma list_feeds_shows_every_feed_witness :
  @list_feeds Lab.env Lab.directory (Update 7) Lab.ada [] Demo.fresh
    = (inr (Some ("❌ " +:+ "There are no feeds.")), Demo.fresh)
  ∧ ∃ l, (∀ f, f ∈ l ↔ f ∈ feeds_of (db Demo.two_feeds) "7")
         ∧ length l = 2
         ∧ @list_feeds Lab.env Lab.directory (Update 7) Lab.ada [] Demo.two_feeds =
             (inr (Some (("<b>Ada</b> is subscribed to:" +:+ nl) +:+ numbered 0 l)),
              Demo.two_feeds).
Proof.
  split.
  - apply (@list_feeds_shows_every_feed Lab.env Lab.directory (Update 7) Lab.ada [] "7"
             (Some "Ada") Demo.fresh).
    + reflexivity.
    + reflexivity.
    + intros v Hv. simpl in Hv. by rewrite lookup_empty in Hv.
    + unfold feeds_of, members. simpl. by rewrite lookup_empty.
  - destruct (@list_feeds_shows_every_feed Lab.env Lab.directory (Update 7) Lab.ada [] "7"
                (Some "Ada") Demo.two_feeds) as [_ Hlist].
    + reflexivity.
    + reflexivity.
    + intros v Hv. vm_compute in Hv. injection Hv as <-. by eexists.
    + destruct (Hlist) with (t := "Ada") as (l & _ & Hin & Hlen & Hrun).
      * intros Hempty. apply (f_equal size) in Hempty. vm_compute in Hempty.
        discriminate Hempty.
      * reflexivity.
      * exists l. split_and!; [exact Hin| |exact Hrun].
        rewrite Hlen. by vm_compute.
Defined.

(** ** /sub: an entry that cannot be identified *)

(** X21.  A feed whose newest entry has neither an id nor a link cannot be
    subscribed to while it has no marker: the request ends with a KeyError
    after the "typing" action; nothing is stored and no answer is given. *)
Theorem subscribe_entry_without_identifier `{Env} upd args chat_id data href e0 older w :
  accepted upd args chat_id data href →
  holds_set (feed_hash chat_id) (db w) →
  href ∉ feeds_of (db w) chat_id →
  p_entries data = e0 :: older →
  entry_ident e0 = None →
  ¬ has_marker (db w) href →
  subscribe upd args w =
    (inl (KeyError "link"),
     World (db w) (sent w) (ui w ++ [Typing (u_chat_id upd)]) (logged w)).
Proof.
  intros Hacc Hset Hnew Hentries Hident Hnone.
  rewrite (subscribe_accepted _ _ _ _ _ _ Hacc).
  unfold store_subscription, r_sismember.
  rewrite bind_unfold, bind_unfold. unfold r_smembers, ask. simpl.
  destruct (smembers_total _ _ Hset) as [s Hs]. rewrite Hs. simpl.
  apply smembers_members in Hs. fold (feeds_of (db w) chat_id) in Hs. subst s.
  rewrite bool_decide_false by done.
  rewrite bind_unfold, seed_marker_run, Hentries. simpl.
  rewrite bool_decide_false by done. by rewrite Hident.
Qed.

Lemma subscribe_entry_without_identifier_witness :
  @subscribe Lab.env (Update 7) [Lab.odd_url] Demo.fresh =
    (inl (KeyError "link"), World ∅ [] [Typing 7] []).
Proof.
  apply (@subscribe_entry_without_identifier Lab.env (Update 7) [Lab.odd_url] "7"
           (Lab.web Lab.odd_url) Lab.odd_url Lab.anonymous [] Demo.fresh).
  - exists Lab.odd_url, []. split_and!; try reflexivity. by eexists.
  - intros v Hv. simpl in Hv. by rewrite lookup_empty in Hv.
  - unfold feeds_of, members. simpl. rewrite lookup_empty. set_solver.
  - reflexivity.
  - reflexivity.
  - intros [v Hv]. simpl in Hv. by rewrite lookup_empty in Hv.
Defined.

(** ** /sub for a channel *)

(** X22.  /sub with a channel name writes to the store only if [getChat]
    knows the channel and the bot is an administrator of it; what it then
    writes are the set of that channel and the two keys of the feed. *)
Theorem subscribe_channel_needs_administrator `{Env} upd feed_url chat_name more w :
  db (subscribe upd (feed_url :: chat_name :: more) w).2 ≠ db w →
  ∃ id href,
    get_chat chat_name = Some id
    ∧ bot_status_in (str id) = "administrator"
    ∧ ∀ k, ¬ keys_of (str id) href k →
           db (subscribe upd (feed_url :: chat_name :: more) w).2 !! k = db w !! k.
Proof.
  intros Hchanged.
  destruct (subscribe_effects upd (feed_url :: chat_name :: more) w) as (_ & _ & Hdb).
  destruct Hdb as [Hdb|(chat_id & data & href & Hacc & _ & Hfrom)]; [done|].
  destruct Hacc as (feed_url' & rest & [= <- <-] & _ & _ & Hchat & _).
  unfold subscribe_chat in Hchat.
  destruct (get_chat chat_name) as [id|]; [|done].
  case_bool_decide as Hadmin; [|done]. injection Hchat as <-.
  exists id, href. split_and!; [done|done|].
  intros k Hk. by eapply subscribed_from_frame.
Qed.

Lemma subscribe_channel_needs_administrator_witness :
  ∃ id href,
    @get_chat Lab.newsroom "@news" = Some id
    ∧ @bot_status_in Lab.newsroom (str id) = "administrator"
    ∧ ∀ k, ¬ keys_of (str id) href k →
           db (@subscribe Lab.newsroom (Update 7) [Demo.url; "@news"] Demo.fresh).2 !! k
           = db Demo.fresh !! k.
Proof.
  apply (@subscribe_channel_needs_administrator Lab.newsroom (Update 7) Demo.url "@news" []
           Demo.fresh).
  intros Heq. apply (f_equal (λ d, d !! subs_key Demo.url)) in Heq.
  vm_compute in Heq. discriminate Heq.
Defined.

